(** * The gallery build script [scripts/generate-gallery.mjs]

    A shallow embedding of the thumbnail/manifest pipeline and the
    properties its specification states about it.

    - JavaScript strings are sequences of UTF-16 code units: [list N].
    - JavaScript numbers are IEEE-754 binary64 values: Rocq's primitive
      [float].  Pixel counts, which are integers, are carried as [Z] and
      converted where the script does floating-point arithmetic on them.
    - Effects (filesystem, image codec, clock) are answers of an environment
      that sees the history of effects so far; [main] threads that history
      and an error through an explicit state-and-error monad. *)

From Stdlib Require Import ZArith NArith List Bool Lia String Ascii.
From Stdlib Require Import DecimalString Floats.
Import ListNotations.

Set Warnings "-register-all".
Local Open Scope Z_scope.

(* ================================================================== *)
(** ** JavaScript strings and values *)

Module JS.

Definition jsstring := list N.

(** A string literal of the script, as code units. *)
Definition lit (s : string) : jsstring :=
  List.map N_of_ascii (list_ascii_of_string s).

Definition CHAR_DOT : N := 46.
Definition CHAR_FORWARD_SLASH : N := 47.
Definition CHAR_BACKWARD_SLASH : N := 92.
Definition CHAR_HYPHEN : N := 45.
Definition CHAR_UNDERSCORE : N := 95.

Fixpoint eqb (a b : jsstring) : bool :=
  match a, b with
  | [], [] => true
  | x :: a', y :: b' => N.eqb x y && eqb a' b'
  | _, _ => false
  end.

(** [s.startsWith(p)] *)
Fixpoint startsWith (s p : jsstring) {struct p} : bool :=
  match p, s with
  | [], _ => true
  | c :: p', d :: s' => N.eqb c d && startsWith s' p'
  | _ :: _, [] => false
  end.

(** [s.slice(a, b)] for [0 <= a]; an end before the start gives [""]. *)
Definition slice (s : jsstring) (a b : Z) : jsstring :=
  firstn (Z.to_nat (b - a)) (skipn (Z.to_nat a) s).

(** [s.slice(a)] for [0 <= a] *)
Definition sliceFrom (s : jsstring) (a : Z) : jsstring :=
  skipn (Z.to_nat a) s.

Definition len (s : jsstring) : Z := Z.of_nat (List.length s).

(** [s.replaceAll(c, by)] for a pattern that is the one-character string
    [c]: every occurrence, left to right. *)
Fixpoint replaceAllChar (c : N) (by_ : jsstring) (s : jsstring) : jsstring :=
  match s with
  | [] => []
  | d :: s' =>
      (if N.eqb d c then by_ else [d]) ++ replaceAllChar c by_ s'
  end.

(** [s.replaceAll(re, by)] for a global regular expression.  The regular
    expression is given by its matcher: [m atStart rest] is the length of
    the match that starts where [rest] starts ([atStart] tells whether
    that is index 0), or [None].  Matching resumes after each match; the
    expressions of the script never match the empty string. *)
Fixpoint replaceAllRe_from (m : bool -> jsstring -> option nat)
         (by_ : jsstring) (fuel : nat) (atStart : bool) (s : jsstring)
  : jsstring :=
  match fuel with
  | O => s
  | S fuel' =>
      match s with
      | [] => []
      | d :: s' =>
          match m atStart s with
          | Some (S n) => by_ ++ replaceAllRe_from m by_ fuel' false (skipn n s')
          | _ => d :: replaceAllRe_from m by_ fuel' false s'
          end
      end
  end.

Definition replaceAllRe (m : bool -> jsstring -> option nat)
           (by_ : jsstring) (s : jsstring) : jsstring :=
  replaceAllRe_from m by_ (List.length s) true s.

(** WhiteSpace and LineTerminator code units, as [String.prototype.trim]
    strips them. *)
Definition isWhiteSpace (c : N) : bool :=
  (N.leb 9 c && N.leb c 13) || N.eqb c 32 || N.eqb c 160 || N.eqb c 5760
  || (N.leb 8192 c && N.leb c 8202) || N.eqb c 8232 || N.eqb c 8233
  || N.eqb c 8239 || N.eqb c 8287 || N.eqb c 12288 || N.eqb c 65279.

Fixpoint trimStart (s : jsstring) : jsstring :=
  match s with
  | [] => []
  | c :: s' => if isWhiteSpace c then trimStart s' else s
  end.

Definition trimEnd (s : jsstring) : jsstring := rev (trimStart (rev s)).

(** [s.trim()] *)
Definition trim (s : jsstring) : jsstring := trimEnd (trimStart s).

(** [s.lastIndexOf(c)] for a one-character string [c]; [-1] when absent. *)
Fixpoint lastIndexOf_from (c : N) (s : jsstring) (i : Z) (found : Z) : Z :=
  match s with
  | [] => found
  | d :: s' => lastIndexOf_from c s' (i + 1) (if N.eqb d c then i else found)
  end.

Definition lastIndexOf (s : jsstring) (c : N) : Z :=
  lastIndexOf_from c s 0 (-1).

(** The values [JSON.parse] produces, and [undefined]. *)
Inductive value : Type :=
| VUndefined
| VNull
| VBool (b : bool)
| VNum (x : float)
| VStr (s : jsstring)
| VArr (items : list value)
| VObj (fields : list (jsstring * value)).

Fixpoint lookup (fields : list (jsstring * value)) (k : jsstring) : value :=
  match fields with
  | [] => VUndefined
  | (k', v) :: rest => if eqb k' k then v else lookup rest k
  end.

(** [item?.k] for a property name [k] that no prototype defines: the own
    property of an object, [undefined] on anything else. *)
Definition optProp (item : value) (k : jsstring) : value :=
  match item with
  | VObj fields => lookup fields k
  | _ => VUndefined
  end.

(** [v ?? d] *)
Definition nullish (v d : value) : value :=
  match v with
  | VUndefined | VNull => d
  | _ => v
  end.

Definition isString (v : value) : bool :=
  match v with VStr _ => true | _ => false end.

End JS.

Import JS.

(* ================================================================== *)
(** ** Node's [path.posix]

    The functions of Node's [lib/path.js] the script calls, for the POSIX
    flavour of [path].  Loops that run over indices from the end of the
    string run here over the reversed string; positions keep their meaning
    (an index into the path, [-1] for "not set"). *)

Module posix.

Definition isPosixPathSeparator (code : N) : bool :=
  N.eqb code CHAR_FORWARD_SLASH.

(** State of the loop of [normalizeString]: the result so far, the length
    of its last segment, the characters read since the last separator
    ([path.slice(lastSlash + 1, i)]), the dot counter, and the last
    character code read. *)
Record nstate : Type := mkNstate {
  res : jsstring;
  lastSegmentLength : Z;
  segment : jsstring;
  dots : Z;
  code : N
}.

(** The body of the loop when the current code is a separator. *)
Definition onSeparator (allowAboveRoot : bool) (st : nstate) : nstate :=
  let done r l := mkNstate r l [] 0 CHAR_FORWARD_SLASH in
  let above :=
    if allowAboveRoot
    then done (if 0 <? len st.(res)
               then st.(res) ++ lit "/.." else lit "..") 2
    else done st.(res) st.(lastSegmentLength) in
  if (len st.(segment) =? 0) || (st.(dots) =? 1) then
    done st.(res) st.(lastSegmentLength)
  else if st.(dots) =? 2 then
    if (len st.(res) <? 2) || negb (st.(lastSegmentLength) =? 2)
       || negb (JS.eqb (sliceFrom st.(res) (len st.(res) - 2)) (lit ".."))
    then
      if 2 <? len st.(res) then
        let lastSlashIndex := lastIndexOf st.(res) CHAR_FORWARD_SLASH in
        if lastSlashIndex =? -1
        then done [] 0
        else
          let r := slice st.(res) 0 lastSlashIndex in
          done r (len r - 1 - lastIndexOf r CHAR_FORWARD_SLASH)
      else if negb (len st.(res) =? 0) then done [] 0
      else above
    else above
  else
    done (if 0 <? len st.(res)
          then st.(res) ++ CHAR_FORWARD_SLASH :: st.(segment)
          else st.(segment))
         (len st.(segment)).

(** The body of the loop on a code that is not a separator. *)
Definition onChar (c : N) (st : nstate) : nstate :=
  mkNstate st.(res) st.(lastSegmentLength) (st.(segment) ++ [c])
           (if N.eqb c CHAR_DOT && negb (st.(dots) =? -1)
            then st.(dots) + 1 else -1)
           c.

Fixpoint normalizeLoop (allowAboveRoot : bool) (path : jsstring) (st : nstate)
  : jsstring :=
  match path with
  | [] =>
      if isPosixPathSeparator st.(code) then st.(res)
      else (onSeparator allowAboveRoot st).(res)
  | c :: path' =>
      normalizeLoop allowAboveRoot path'
        (if isPosixPathSeparator c then onSeparator allowAboveRoot st
         else onChar c st)
  end.

(** [normalizeString(path, allowAboveRoot, "/", isPosixPathSeparator)] *)
Definition normalizeString (path : jsstring) (allowAboveRoot : bool) : jsstring :=
  normalizeLoop allowAboveRoot path (mkNstate [] 0 [] 0 0%N).

(** [path.posix.normalize(path)] *)
Definition normalize (path : jsstring) : jsstring :=
  match path with
  | [] => lit "."
  | c :: _ =>
      let isAbsolute := N.eqb c CHAR_FORWARD_SLASH in
      let trailingSeparator := N.eqb (last path 0%N) CHAR_FORWARD_SLASH in
      let p := normalizeString path (negb isAbsolute) in
      match p with
      | [] =>
          if isAbsolute then lit "/"
          else if trailingSeparator then lit "./" else lit "."
      | _ =>
          let p' := if trailingSeparator then p ++ lit "/" else p in
          if isAbsolute then CHAR_FORWARD_SLASH :: p' else p'
      end
  end.

(** The loop of [join]: the non-empty arguments, separated by ["/"]. *)
Fixpoint joinArgs (joined : option jsstring) (args : list jsstring)
  : option jsstring :=
  match args with
  | [] => joined
  | arg :: rest =>
      joinArgs
        (match arg with
         | [] => joined
         | _ => match joined with
                | None => Some arg
                | Some j => Some (j ++ CHAR_FORWARD_SLASH :: arg)
                end
         end) rest
  end.

(** [path.posix.join(...args)] *)
Definition join (args : list jsstring) : jsstring :=
  match joinArgs None args with
  | None => lit "."
  | Some joined => normalize joined
  end.

(** The loop of [dirname], for [i] from [path.length - 1] down to [1]:
    [l] holds [path[i], path[i-1], ..., path[1]].  The index of the
    separator that ends the directory part, or [-1]. *)
Fixpoint dirnameLoop (l : jsstring) (matchedSlash : bool) : Z :=
  match l with
  | [] => -1
  | c :: l' =>
      if N.eqb c CHAR_FORWARD_SLASH then
        if negb matchedSlash then len l else dirnameLoop l' matchedSlash
      else dirnameLoop l' false
  end.

(** [path.posix.dirname(path)] *)
Definition dirname (path : jsstring) : jsstring :=
  match path with
  | [] => lit "."
  | c :: rest =>
      let hasRoot := N.eqb c CHAR_FORWARD_SLASH in
      let end_ := dirnameLoop (rev rest) true in
      if end_ =? -1 then (if hasRoot then lit "/" else lit ".")
      else if hasRoot && (end_ =? 1) then lit "//"
      else slice path 0 end_
  end.

(** State of the loop of [extname]. *)
Record estate : Type := mkEstate {
  startDot : Z;
  startPart : Z;
  eEnd : Z;
  eMatchedSlash : bool;
  preDotState : Z
}.

(** The loop of [extname], for [i] from [path.length - 1] down to [0]:
    [l] holds [path[i], ..., path[0]], so [i = len l - 1]. *)
Fixpoint extnameLoop (l : jsstring) (st : estate) : estate :=
  match l with
  | [] => st
  | c :: l' =>
      let i := len l' in
      if N.eqb c CHAR_FORWARD_SLASH then
        if negb st.(eMatchedSlash)
        then mkEstate st.(startDot) (i + 1) st.(eEnd) st.(eMatchedSlash)
                      st.(preDotState)
        else extnameLoop l' st
      else
        let st1 :=
          if st.(eEnd) =? -1
          then mkEstate st.(startDot) st.(startPart) (i + 1) false
                        st.(preDotState)
          else st in
        let st2 :=
          if N.eqb c CHAR_DOT then
            if st1.(startDot) =? -1
            then mkEstate i st1.(startPart) st1.(eEnd) st1.(eMatchedSlash)
                          st1.(preDotState)
            else if negb (st1.(preDotState) =? 1)
            then mkEstate st1.(startDot) st1.(startPart) st1.(eEnd)
                          st1.(eMatchedSlash) 1
            else st1
          else if negb (st1.(startDot) =? -1)
          then mkEstate st1.(startDot) st1.(startPart) st1.(eEnd)
                        st1.(eMatchedSlash) (-1)
          else st1 in
        extnameLoop l' st2
  end.

(** [path.posix.extname(path)] *)
Definition extname (path : jsstring) : jsstring :=
  let st := extnameLoop (rev path) (mkEstate (-1) 0 (-1) true 0) in
  if (st.(startDot) =? -1) || (st.(eEnd) =? -1) || (st.(preDotState) =? 0)
     || ((st.(preDotState) =? 1) && (st.(startDot) =? st.(eEnd) - 1)
         && (st.(startDot) =? st.(startPart) + 1))
  then []
  else slice path st.(startDot) st.(eEnd).

(** State of the loops of [basename]: [extRest] holds
    [suffix[extIdx], ..., suffix[0]], so [extIdx = len extRest - 1]. *)
Record bstate : Type := mkBstate {
  bStart : Z;
  bEnd : Z;
  bMatchedSlash : bool;
  extRest : jsstring;
  firstNonSlashEnd : Z
}.

(** The loop of [basename] when a suffix is given. *)
Fixpoint basenameSuffixLoop (l : jsstring) (st : bstate) : bstate :=
  match l with
  | [] => st
  | c :: l' =>
      let i := len l' in
      if N.eqb c CHAR_FORWARD_SLASH then
        if negb st.(bMatchedSlash)
        then mkBstate (i + 1) st.(bEnd) st.(bMatchedSlash) st.(extRest)
                      st.(firstNonSlashEnd)
        else basenameSuffixLoop l' st
      else
        let st1 :=
          if st.(firstNonSlashEnd) =? -1
          then mkBstate st.(bStart) st.(bEnd) false st.(extRest) (i + 1)
          else st in
        let st2 :=
          match st1.(extRest) with
          | [] => st1
          | x :: ext' =>
              if N.eqb c x then
                match ext' with
                | [] => mkBstate st1.(bStart) i st1.(bMatchedSlash) []
                                 st1.(firstNonSlashEnd)
                | _ => mkBstate st1.(bStart) st1.(bEnd) st1.(bMatchedSlash)
                                ext' st1.(firstNonSlashEnd)
                end
              else mkBstate st1.(bStart) st1.(firstNonSlashEnd)
                            st1.(bMatchedSlash) [] st1.(firstNonSlashEnd)
          end in
        basenameSuffixLoop l' st2
  end.

(** The loop of [basename] without a suffix. *)
Fixpoint basenameLoop (l : jsstring) (st : bstate) : bstate :=
  match l with
  | [] => st
  | c :: l' =>
      let i := len l' in
      if N.eqb c CHAR_FORWARD_SLASH then
        if negb st.(bMatchedSlash)
        then mkBstate (i + 1) st.(bEnd) st.(bMatchedSlash) st.(extRest)
                      st.(firstNonSlashEnd)
        else basenameLoop l' st
      else if st.(bEnd) =? -1
      then basenameLoop l' (mkBstate st.(bStart) (i + 1) false st.(extRest)
                                     st.(firstNonSlashEnd))
      else basenameLoop l' st
  end.

(** [path.posix.basename(path, suffix)] *)
Definition basename (path suffix : jsstring) : jsstring :=
  if (0 <? len suffix) && (len suffix <=? len path) then
    if JS.eqb suffix path then []
    else
      let st := basenameSuffixLoop (rev path)
                  (mkBstate 0 (-1) true (rev suffix) (-1)) in
      let end_ :=
        if st.(bStart) =? st.(bEnd) then st.(firstNonSlashEnd)
        else if st.(bEnd) =? -1 then len path
        else st.(bEnd) in
      slice path st.(bStart) end_
  else
    let st := basenameLoop (rev path) (mkBstate 0 (-1) true [] (-1)) in
    if st.(bEnd) =? -1 then [] else slice path st.(bStart) st.(bEnd).

End posix.

(* ================================================================== *)
(** ** The script: constants, types and the environment *)

Definition THUMB_WIDTH : Z := 900.
Definition THUMB_QUALITY : Z := 78.

(** [GalleryPhoto] and [GalleryManifest] of [src/features/gallery/types.ts]. *)
Record GalleryPhoto : Type := mkPhoto {
  id : jsstring;
  src : jsstring;
  thumbSrc : jsstring;
  width : Z;
  height : Z;
  thumbWidth : Z;
  thumbHeight : Z;
  title : jsstring;
  shotUsing : jsstring;
  location : jsstring;
  description : jsstring
}.

Record ThumbPolicy : Type := mkThumb {
  tWidth : Z;
  tQuality : Z;
  tFormat : jsstring
}.

Record GalleryManifest : Type := mkManifest {
  generatedAt : jsstring;
  thumb : ThumbPolicy;
  photos : list GalleryPhoto
}.

(** What [fs.stat] resolves to, as far as the script reads it. *)
Record Stats : Type := mkStats {
  isFile : bool;
  mtimeMs : float
}.

(** What [sharp(...).metadata()] resolves to; a field may be [undefined]. *)
Record Metadata : Type := mkMetadata {
  mWidth : option Z;
  mHeight : option Z
}.

(** The effects of the script that change the world, in the order they are
    started. *)
Inductive event : Type :=
| Mkdir (path : jsstring)
| ToFile (source dest : jsstring) (w h : Z)
| WriteFile (path : jsstring) (data : GalleryManifest).

Definition history := list event.

(** The world the script runs in.  Every answer may depend on the effects
    started so far.  A [None] or [false] answer is a rejected promise (or,
    for [readSource], also a [JSON.parse] that throws). *)
Record Env : Type := mkEnv {
  cwd : jsstring;
  toLowerCase : jsstring -> jsstring;
  numberToString : float -> jsstring;
  readSource : option value;
  stat : history -> jsstring -> option Stats;
  mkdirOk : history -> jsstring -> bool;
  metadata : history -> jsstring -> option Metadata;
  toFileOk : history -> jsstring -> jsstring -> Z -> Z -> bool;
  writeFileOk : history -> jsstring -> GalleryManifest -> bool;
  now : history -> jsstring
}.

(** The ways a run fails: the four errors the script throws itself, the
    rejections of the operations it awaits, and the [TypeError] of a
    [String(...)] that cannot convert its argument. *)
Inductive error : Type :=
| ReadFailure
| NotAnArray
| InvalidDescriptor (idx : nat)
| MissingSourceFile (idx : nat) (absSrc : jsstring)
| UnreadableImage (source : jsstring)
| MkdirFailure (path : jsstring)
| CodecFailure (absSrc : jsstring)
| ThumbnailWriteFailure (absThumb : jsstring)
| ManifestWriteFailure
| CoercionFailure (idx : nat).

Inductive result (A : Type) : Type :=
| Ok (a : A)
| Err (e : error).

Arguments Ok {A} a.
Arguments Err {A} e.

(** State (the history) and error. *)
Definition M (A : Type) : Type := history -> result A * history.

Definition ret {A} (a : A) : M A := fun h => (Ok a, h).

Definition throw {A} (e : error) : M A := fun h => (Err e, h).

Definition bind {A B} (m : M A) (k : A -> M B) : M B :=
  fun h =>
    match m h with
    | (Ok a, h') => k a h'
    | (Err e, h') => (Err e, h')
    end.

Notation "x <- m ;; k" := (bind m (fun x => k))
  (at level 61, m at next level, right associativity).
Notation "m ;;; k" := (bind m (fun _ => k))
  (at level 61, right associativity).

(** An answer of the environment that changes nothing. *)
Definition ask {A} (f : history -> A) : M A := fun h => (Ok (f h), h).

(** An effect: it is recorded, then it succeeds or is rejected. *)
Definition effect (ev : event) (ok : history -> bool) (e : error) : M unit :=
  fun h => (if ok h then Ok tt else Err e, h ++ [ev]).

(** [${idx}] *)
Definition decimal (n : nat) : jsstring :=
  lit (NilZero.string_of_uint (Nat.to_uint n)).

(* ================================================================== *)
(** ** The script: functions *)

Definition ensureLeadingSlash (p : value) : jsstring :=
  match p with
  | VStr s => if startsWith s (lit "/") then s else lit "/" ++ s
  | _ => []
  end.

Definition stripLeadingSlash (p : jsstring) : jsstring :=
  if startsWith p (lit "/") then sliceFrom p 1 else p.

Definition normalizeUrlPath (p : value) : jsstring :=
  let withSlash := ensureLeadingSlash p in
  replaceAllChar CHAR_BACKWARD_SLASH (lit "/") withSlash.

Definition toThumbUrl (srcUrl : value) : jsstring :=
  let srcNoSlash := stripLeadingSlash (normalizeUrlPath srcUrl) in
  let srcDir := posix.dirname srcNoSlash in
  let base := posix.basename srcNoSlash (posix.extname srcNoSlash) in
  let rel := posix.join [lit "gallery"; lit "thumbs"; srcDir; base ++ lit ".jpg"] in
  replaceAllChar CHAR_BACKWARD_SLASH (lit "/") (lit "/" ++ rel).

(** [x.trim().length > 0] on a string, [false] on anything else. *)
Definition isNonEmptyString (x : value) : bool :=
  match x with
  | VStr s => 0 <? len (trim s)
  | _ => false
  end.

(** The character class [[a-z0-9-_]]. *)
Definition idChar (c : N) : bool :=
  (N.leb 97 c && N.leb c 122) || (N.leb 48 c && N.leb c 57)
  || N.eqb c CHAR_HYPHEN || N.eqb c CHAR_UNDERSCORE.

(** [/[^a-z0-9-_]/] *)
Definition reNotIdChar (atStart : bool) (rest : jsstring) : option nat :=
  match rest with
  | c :: _ => if idChar c then None else Some 1%nat
  | [] => None
  end.

Fixpoint hyphens (s : jsstring) : nat :=
  match s with
  | c :: s' => if N.eqb c CHAR_HYPHEN then S (hyphens s') else O
  | [] => O
  end.

(** [/-+/] *)
Definition reHyphens (atStart : bool) (rest : jsstring) : option nat :=
  match hyphens rest with
  | O => None
  | n => Some n
  end.

(** [/^-|-$/] *)
Definition reEdgeHyphen (atStart : bool) (rest : jsstring) : option nat :=
  match rest with
  | c :: rest' =>
      if N.eqb c CHAR_HYPHEN
         && (atStart || match rest' with [] => true | _ => false end)
      then Some 1%nat else None
  | [] => None
  end.

(** [String(v)].  A number is printed by the engine.  An array prints its
    elements, [null] as the empty string, separated by commas.  An object
    prints as ["[object Object]"], unless it has an own property
    ["toString"]: a value parsed from JSON is not callable, conversion to a
    primitive then finds no method that returns one, and a [TypeError] is
    thrown ([None]). *)
Fixpoint joinComma (parts : list (option jsstring)) : option jsstring :=
  match parts with
  | [] => Some []
  | [p] => p
  | p :: rest =>
      match p, joinComma rest with
      | Some a, Some b => Some (a ++ lit "," ++ b)
      | _, _ => None
      end
  end.

Fixpoint toJsString (numToString : float -> jsstring) (v : value)
  : option jsstring :=
  match v with
  | VUndefined => Some (lit "undefined")
  | VNull => Some (lit "null")
  | VBool true => Some (lit "true")
  | VBool false => Some (lit "false")
  | VNum x => Some (numToString x)
  | VStr s => Some s
  | VArr items =>
      joinComma
        (List.map (fun x => match x with
                            | VUndefined | VNull => Some []
                            | _ => toJsString numToString x
                            end) items)
  | VObj fields =>
      match lookup fields (lit "toString") with
      | VUndefined => Some (lit "[object Object]")
      | _ => None
      end
  end.

(** The double nearest to an integer (exact below [2^53]). *)
Definition Number_of_Z (z : Z) : float :=
  SF2Prim (binary_normalize prec emax z 0 false).

(** [Math.round(x)] read as an integer: the integer nearest to [x], the
    larger one on a tie, computed exactly from the sign, mantissa and
    exponent of [x].  [NaN] and the infinities, which [Math.round] returns
    unchanged, read as [0]. *)
Definition Math_round (x : float) : Z :=
  match Prim2SF x with
  | S754_finite s m e =>
      let v := if s then Z.neg m else Z.pos m in
      if 0 <=? e then v * 2 ^ e
      else (2 * v + 2 ^ (- e)) / 2 ^ (1 - e)
  | _ => 0
  end.

(** Lines 116-120: the thumbnail box of a [width] x [height] source. *)
Definition thumbWidthOf (width : Z) : Z := Z.min THUMB_WIDTH width.

Definition thumbHeightOf (width height : Z) : Z :=
  Z.max 1 (Math_round ((Number_of_Z height / Number_of_Z width)
                       * Number_of_Z (thumbWidthOf width))%float).

(** Line 122: [thumbMtime < 0 || srcMtime > thumbMtime]. *)
Definition shouldGenerate (srcMtime thumbMtime : float) : bool :=
  (thumbMtime <? 0)%float || (thumbMtime <? srcMtime)%float.

Section Script.

Variable E : Env.

Definition PROJECT_ROOT : jsstring := E.(cwd).
Definition PUBLIC_DIR : jsstring := posix.join [PROJECT_ROOT; lit "public"].
Definition SOURCE_JSON : jsstring :=
  posix.join [PROJECT_ROOT; lit "src"; lit "data"; lit "gallery.json"].
Definition GENERATED_DIR : jsstring :=
  posix.join [PROJECT_ROOT; lit "src"; lit "generated"].
Definition MANIFEST_JSON : jsstring :=
  posix.join [GENERATED_DIR; lit "gallery.manifest.json"].
Definition THUMBS_PUBLIC_DIR : jsstring :=
  posix.join [PUBLIC_DIR; lit "gallery"; lit "thumbs"].

Definition toFsPathFromPublicUrl (urlPath : value) : jsstring :=
  let rel := stripLeadingSlash (normalizeUrlPath urlPath) in
  posix.join [PUBLIC_DIR; rel].

Definition fileMtimeMs (filePath : jsstring) : M float :=
  ask (fun h =>
         match E.(stat) h filePath with
         | Some st => st.(mtimeMs)
         | None => (-1)%float
         end).

Definition stableIdFromSrc (source : value) : jsstring :=
  let normalized := E.(toLowerCase) (normalizeUrlPath source) in
  replaceAllRe reEdgeHyphen []
    (replaceAllRe reHyphens (lit "-")
       (replaceAllRe reNotIdChar []
          (replaceAllChar CHAR_DOT (lit "-")
             (replaceAllChar CHAR_FORWARD_SLASH (lit "-") normalized)))).

(** [String(item?.k ?? "").trim()] *)
Definition textField (idx : nat) (item : value) (k : string) : M jsstring :=
  match toJsString E.(numberToString)
          (nullish (optProp item (lit k)) (VStr [])) with
  | Some s => ret (trim s)
  | None => throw (CoercionFailure idx)
  end.

(** The message of an error the script throws itself. *)
Definition message (e : error) : option jsstring :=
  match e with
  | NotAnArray => Some (lit "Expected an array in " ++ SOURCE_JSON)
  | InvalidDescriptor idx =>
      Some (lit "gallery.json[" ++ decimal idx
            ++ lit "].src must be a non-empty string")
  | MissingSourceFile idx absSrc =>
      Some (lit "Missing file for gallery.json[" ++ decimal idx
            ++ lit "].src: expected " ++ absSrc)
  | UnreadableImage source =>
      Some (lit "Could not read dimensions for " ++ source
            ++ lit " (check file format / corruption)")
  | _ => None
  end.

(** The body of the loop of [main], lines 81-149, for the entry [item] at
    index [idx]; it returns the photo that is pushed. *)
Definition processItem (idx : nat) (item : value) : M GalleryPhoto :=
  let src := normalizeUrlPath (nullish (optProp item (lit "src")) (VStr [])) in
  title <- textField idx item "title" ;;
  shotUsing <- textField idx item "shotUsing" ;;
  location <- textField idx item "location" ;;
  description <- textField idx item "description" ;;
  (if negb (isNonEmptyString (VStr src))
   then throw (InvalidDescriptor idx) else ret tt) ;;;
  let absSrc := toFsPathFromPublicUrl (VStr src) in
  absSrcStat <- ask (fun h => E.(stat) h absSrc) ;;
  (match absSrcStat with
   | Some st => if st.(isFile) then ret tt
                else throw (MissingSourceFile idx absSrc)
   | None => throw (MissingSourceFile idx absSrc)
   end) ;;;
  let thumbSrc := toThumbUrl (VStr src) in
  let absThumb := toFsPathFromPublicUrl (VStr thumbSrc) in
  effect (Mkdir (posix.dirname absThumb))
         (fun h => E.(mkdirOk) h (posix.dirname absThumb))
         (MkdirFailure (posix.dirname absThumb)) ;;;
  srcMtime <- fileMtimeMs absSrc ;;
  thumbMtime <- fileMtimeMs absThumb ;;
  meta <- (fun h => match E.(metadata) h absSrc with
                    | Some m => (Ok m, h)
                    | None => (Err (CodecFailure absSrc), h)
                    end) ;;
  let width := match meta.(mWidth) with Some w => w | None => 0 end in
  let height := match meta.(mHeight) with Some x => x | None => 0 end in
  (if (width =? 0) || (height =? 0)
   then throw (UnreadableImage src) else ret tt) ;;;
  let thumbWidth := thumbWidthOf width in
  let thumbHeight := thumbHeightOf width height in
  (if shouldGenerate srcMtime thumbMtime
   then effect (ToFile absSrc absThumb thumbWidth thumbHeight)
               (fun h => E.(toFileOk) h absSrc absThumb thumbWidth thumbHeight)
               (ThumbnailWriteFailure absThumb)
   else ret tt) ;;;
  ret (mkPhoto (stableIdFromSrc (VStr src)) src thumbSrc width height
               thumbWidth thumbHeight title shotUsing location description).

(** The loop of [main], line 80: [photos] grows by one entry per item. *)
Fixpoint processAll (idx : nat) (items : list value)
         (photos : list GalleryPhoto) : M (list GalleryPhoto) :=
  match items with
  | [] => ret photos
  | item :: rest =>
      photo <- processItem idx item ;;
      processAll (S idx) rest (photos ++ [photo])
  end.

(** [main], lines 67-159. *)
Definition main : M unit :=
  match E.(readSource) with
  | None => throw ReadFailure
  | Some (VArr parsed) =>
      effect (Mkdir GENERATED_DIR)
             (fun h => E.(mkdirOk) h GENERATED_DIR)
             (MkdirFailure GENERATED_DIR) ;;;
      effect (Mkdir THUMBS_PUBLIC_DIR)
             (fun h => E.(mkdirOk) h THUMBS_PUBLIC_DIR)
             (MkdirFailure THUMBS_PUBLIC_DIR) ;;;
      photos <- processAll 0 parsed [] ;;
      generatedAt <- ask E.(now) ;;
      let manifest :=
        mkManifest generatedAt
                   (mkThumb THUMB_WIDTH THUMB_QUALITY (lit "jpeg")) photos in
      effect (WriteFile MANIFEST_JSON manifest)
             (fun h => E.(writeFileOk) h MANIFEST_JSON manifest)
             ManifestWriteFailure
  | Some _ => throw NotAnArray
  end.

(** Lines 161-165: the run, from an empty history; the exit code is [1]
    when [main] rejects and stays [0] otherwise. *)
Definition run : Z * history :=
  match main [] with
  | (Ok _, h) => (0, h)
  | (Err _, h) => (1, h)
  end.

End Script.

(* ================================================================== *)
(** ** The specification's words *)

(** The derivation of an identifier as the specification words it
    ([deriveId]): lower-case the normalized source URL, replace every ["/"]
    and ["."] with ["-"], strip any character outside [[a-z0-9-_]],
    collapse runs of ["-"] into one, and trim leading and trailing ["-"]. *)
Module IdSpec.

Definition replaceSeparators (s : jsstring) : jsstring :=
  List.map (fun c => if N.eqb c CHAR_FORWARD_SLASH || N.eqb c CHAR_DOT
                     then CHAR_HYPHEN else c) s.

Definition stripOutside (s : jsstring) : jsstring := List.filter idChar s.

Fixpoint collapseRuns (s : jsstring) : jsstring :=
  match s with
  | [] => []
  | c :: s' =>
      if N.eqb c CHAR_HYPHEN then
        match s' with
        | d :: _ => if N.eqb d CHAR_HYPHEN then collapseRuns s'
                    else c :: collapseRuns s'
        | [] => [c]
        end
      else c :: collapseRuns s'
  end.

Fixpoint trimLeading (s : jsstring) : jsstring :=
  match s with
  | c :: s' => if N.eqb c CHAR_HYPHEN then trimLeading s' else s
  | [] => []
  end.

Definition trimHyphens (s : jsstring) : jsstring :=
  rev (trimLeading (rev (trimLeading s))).

Definition deriveId (E : Env) (source : jsstring) : jsstring :=
  trimHyphens
    (collapseRuns
       (stripOutside
          (replaceSeparators
             (E.(toLowerCase) (normalizeUrlPath (VStr source)))))).

End IdSpec.

(** Exact rounding of the quotient [a / b] to the nearest integer, the
    larger one on a tie, as the specification's [round] reads. *)
Definition roundDiv (a b : Z) : Z := (2 * a + b) / (2 * b).

(* ================================================================== *)
(** ** A small world to run the script in *)

Module demo.

Definition asciiLower (s : jsstring) : jsstring :=
  List.map (fun c => if N.leb 65 c && N.leb c 90 then (c + 32)%N else c) s.

Definition rome : value :=
  VObj [(lit "src", VStr (lit "/photos/Rome-01.PNG"));
        (lit "title", VStr (lit "  Forum  "))].

Definition noSrc : value := VObj [(lit "title", VStr (lit "untitled"))].

(** One 2000 x 1000 picture under [public/photos]; a thumbnail exists once
    it has been written. *)
Definition world (input : list value) : Env :=
  mkEnv (lit "/srv/site") asciiLower (fun _ => lit "0")
        (Some (VArr input))
        (fun h path =>
           if JS.eqb path (lit "/srv/site/public/photos/Rome-01.PNG")
           then Some (mkStats true 1700000000000%float)
           else if JS.eqb path (lit "/srv/site/public")
           then Some (mkStats false 1700000000000%float)
           else if existsb (fun ev => match ev with
                                      | ToFile _ dest _ _ => JS.eqb dest path
                                      | _ => false
                                      end) h
           then Some (mkStats true 1700000000001%float)
           else None)
        (fun _ _ => true)
        (fun _ _ => Some (mkMetadata (Some 2000) (Some 1000)))
        (fun _ _ _ _ _ => true)
        (fun _ _ _ => true)
        (fun _ => lit "2024-01-01T00:00:00.000Z").

(** The same world, where the picture measures [w] x [h]. *)
Definition sized (w h : Z) (E : Env) : Env :=
  mkEnv E.(cwd) E.(toLowerCase) E.(numberToString) E.(readSource) E.(stat)
        E.(mkdirOk) (fun _ _ => Some (mkMetadata (Some w) (Some h)))
        E.(toFileOk) E.(writeFileOk) E.(now).

(** The manifest a run writes last, if it writes one, and its photos. *)
Definition writtenManifest (E : Env) : GalleryManifest :=
  match last (snd (main E [])) (Mkdir []) with
  | WriteFile _ m => m
  | _ => mkManifest [] (mkThumb 0 0 []) []
  end.

Definition written (E : Env) : list GalleryPhoto :=
  (writtenManifest E).(photos).

(** The same world, where every file exists and was last modified at
    [t]. *)
Definition dated (t : float) (E : Env) : Env :=
  mkEnv E.(cwd) E.(toLowerCase) E.(numberToString) E.(readSource)
        (fun _ _ => Some (mkStats true t))
        E.(mkdirOk) E.(metadata) E.(toFileOk) E.(writeFileOk) E.(now).

(** The world of a second run: the thumbnail of the picture is there and
    is newer than the picture; no other thumbnail exists. *)
Definition secondRun (input : list value) : Env :=
  mkEnv (lit "/srv/site") asciiLower (fun _ => lit "0")
        (Some (VArr input))
        (fun _ path =>
           if JS.eqb path (lit "/srv/site/public/photos/Rome-01.PNG")
           then Some (mkStats true 1700000000000%float)
           else if JS.eqb path (lit "/srv/site/public")
           then Some (mkStats false 1700000000000%float)
           else if JS.eqb path
                     (lit "/srv/site/public/gallery/thumbs/photos/Rome-01.jpg")
           then Some (mkStats true 1700000000001%float)
           else None)
        (fun _ _ => true)
        (fun _ _ => Some (mkMetadata (Some 2000) (Some 1000)))
        (fun _ _ _ _ _ => true)
        (fun _ _ _ => true)
        (fun _ => lit "2024-01-01T00:00:00.000Z").

End demo.

(* ================================================================== *)
(** ** Strings: basic facts *)

Lemma eqb_eq (a b : jsstring) : JS.eqb a b = true <-> a = b.
Proof.
  revert b; induction a as [|x a IH]; intros [|y b]; simpl; split;
    try congruence; try reflexivity.
  - intros H. apply andb_true_iff in H as [H1 H2].
    apply N.eqb_eq in H1. apply IH in H2. congruence.
  - intros H. injection H as -> ->. rewrite N.eqb_refl. simpl.
    now apply IH.
Qed.

Lemma eqb_refl (a : jsstring) : JS.eqb a a = true.
Proof. now apply eqb_eq. Qed.

Lemma len_app (a b : jsstring) : len (a ++ b) = len a + len b.
Proof. unfold len. rewrite length_app. lia. Qed.

Lemma len_nonneg (a : jsstring) : 0 <= len a.
Proof. unfold len. lia. Qed.

Lemma len_cons (c : N) (a : jsstring) : len (c :: a) = len a + 1.
Proof. unfold len. simpl List.length. lia. Qed.

Lemma len_zero (a : jsstring) : len a = 0 -> a = [].
Proof. destruct a; [reflexivity|]. rewrite len_cons. pose proof (len_nonneg a). lia. Qed.

Lemma slice_prefix (a b : jsstring) : slice (a ++ b) 0 (len a) = a.
Proof.
  unfold slice, len. simpl. rewrite Z.sub_0_r, Nat2Z.id.
  rewrite firstn_app, Nat.sub_diag, firstn_all. simpl. now rewrite app_nil_r.
Qed.

Lemma slice_middle (a b c : jsstring) :
  slice (a ++ b ++ c) (len a) (len a + len b) = b.
Proof.
  unfold slice, len.
  replace (Z.of_nat (List.length a) + Z.of_nat (List.length b)
           - Z.of_nat (List.length a)) with (Z.of_nat (List.length b)) by lia.
  rewrite !Nat2Z.id, skipn_app, Nat.sub_diag, skipn_all. simpl.
  rewrite firstn_app, Nat.sub_diag, firstn_all. simpl. now rewrite app_nil_r.
Qed.

Lemma forallb_rev_eq (f : N -> bool) (a : jsstring) :
  forallb f (rev a) = forallb f a.
Proof.
  induction a as [|c a IH]; [reflexivity|].
  simpl. rewrite forallb_app, IH. simpl. rewrite andb_true_r. apply andb_comm.
Qed.

Lemma replaceAllChar_app (c : N) (r a b : jsstring) :
  replaceAllChar c r (a ++ b) = replaceAllChar c r a ++ replaceAllChar c r b.
Proof.
  induction a as [|d a IH]; simpl; [reflexivity|].
  now rewrite IH, app_assoc.
Qed.

Lemma replaceAllChar_absent (c : N) (r a : jsstring) :
  forallb (fun d => negb (N.eqb d c)) a = true -> replaceAllChar c r a = a.
Proof.
  induction a as [|d a IH]; simpl; [reflexivity|].
  intros H. apply andb_true_iff in H as [H1 H2].
  apply negb_true_iff in H1. rewrite H1. simpl. now rewrite IH.
Qed.

(** After the replacement no occurrence is left, when the replacement
    itself has none. *)
Lemma replaceAllChar_removes (c : N) (r a : jsstring) :
  forallb (fun d => negb (N.eqb d c)) r = true ->
  forallb (fun d => negb (N.eqb d c)) (replaceAllChar c r a) = true.
Proof.
  intros Hr. induction a as [|d a IH]; simpl; [reflexivity|].
  rewrite forallb_app, IH, andb_true_r.
  destruct (N.eqb d c) eqn:Hd; [exact Hr|]. simpl. now rewrite Hd.
Qed.

(* ================================================================== *)
(** ** [path.posix]: the loop of [normalizeString] as a fold *)

Module posix_facts.
Import posix.

Definition step (allowAboveRoot : bool) (st : nstate) (c : N) : nstate :=
  if isPosixPathSeparator c then onSeparator allowAboveRoot st
  else onChar c st.

Definition finish (allowAboveRoot : bool) (st : nstate) : jsstring :=
  if isPosixPathSeparator st.(code) then st.(res)
  else (onSeparator allowAboveRoot st).(res).

Lemma normalizeLoop_fold (b : bool) (path : jsstring) (st : nstate) :
  normalizeLoop b path st = finish b (fold_left (step b) path st).
Proof.
  revert st; induction path as [|c path IH]; intros st; simpl; [reflexivity|].
  now rewrite IH.
Qed.

Definition noSlash (s : jsstring) : bool :=
  forallb (fun c => negb (N.eqb c CHAR_FORWARD_SLASH)) s.

(** The dot counter after reading the characters [s] of one segment. *)
Fixpoint dotsAfter (d : Z) (s : jsstring) : Z :=
  match s with
  | [] => d
  | c :: s' =>
      dotsAfter (if N.eqb c CHAR_DOT && negb (d =? -1) then d + 1 else -1) s'
  end.

Lemma fold_segment (b : bool) (s : jsstring) (st : nstate) :
  noSlash s = true -> s <> [] ->
  fold_left (step b) s st =
  mkNstate st.(res) st.(lastSegmentLength) (st.(segment) ++ s)
           (dotsAfter st.(dots) s) (last s 0%N).
Proof.
  revert st; induction s as [|c s IH]; intros st Hs Hne; [congruence|].
  simpl in Hs. apply andb_true_iff in Hs as [Hc Hs].
  apply negb_true_iff in Hc.
  simpl fold_left. unfold step at 2. unfold isPosixPathSeparator. rewrite Hc.
  destruct s as [|c' s'].
  - simpl. unfold onChar. now destruct st.
  - rewrite IH by (assumption || discriminate).
    unfold onChar. cbn [res lastSegmentLength segment dots code].
    rewrite <- app_assoc. reflexivity.
Qed.

Lemma noSlash_last (s : jsstring) :
  noSlash s = true -> s <> [] ->
  isPosixPathSeparator (last s 0%N) = false.
Proof.
  induction s as [|c s IH]; intros Hs Hne; [congruence|].
  simpl in Hs. apply andb_true_iff in Hs as [Hc Hs].
  destruct s as [|c' s'].
  - simpl. now apply negb_true_iff in Hc.
  - apply IH; [assumption|discriminate].
Qed.

Lemma dotsAfter_unset (s : jsstring) : dotsAfter (-1) s = -1.
Proof.
  induction s as [|c s IH]; simpl; [reflexivity|].
  now rewrite andb_false_r.
Qed.

(** A counter that is still counting after [s] has counted only dots. *)
Lemma dotsAfter_counting (s : jsstring) (d : Z) :
  0 <= d ->
  dotsAfter d s = -1 \/
  (dotsAfter d s = d + len s /\ s = repeat CHAR_DOT (List.length s)).
Proof.
  revert d; induction s as [|c s IH]; intros d Hd; simpl.
  - right. unfold len. simpl. split; [lia|reflexivity].
  - destruct (N.eqb c CHAR_DOT) eqn:Hc; simpl.
    + replace (d =? -1) with false by (symmetry; apply Z.eqb_neq; lia).
      simpl. destruct (IH (d + 1)) as [H|[H1 H2]]; [lia|now left|].
      right. rewrite len_cons. split; [lia|].
      apply N.eqb_eq in Hc. subst c. now rewrite <- H2.
    + left. apply dotsAfter_unset.
Qed.

Lemma dotsAfter_last (s : jsstring) (c : N) (d : Z) :
  N.eqb c CHAR_DOT = false -> dotsAfter d (s ++ [c]) = -1.
Proof.
  intros Hc. revert d; induction s as [|x s IH]; intros d; simpl.
  - now rewrite Hc.
  - apply IH.
Qed.

(** A segment that is neither empty, ["."] nor [".."], and has no
    separator. *)
Definition plainSegment (s : jsstring) : bool :=
  noSlash s && negb (JS.eqb s []) && negb (JS.eqb s (lit "."))
  && negb (JS.eqb s (lit "..")).

Lemma plainSegment_dots (s : jsstring) :
  plainSegment s = true ->
  noSlash s = true /\ s <> [] /\ dotsAfter 0 s <> 1 /\ dotsAfter 0 s <> 2.
Proof.
  unfold plainSegment. intros H.
  apply andb_true_iff in H as [H H4]. apply andb_true_iff in H as [H H3].
  apply andb_true_iff in H as [H1 H2].
  apply negb_true_iff in H2, H3, H4.
  assert (Hne : s <> []) by (intros ->; discriminate).
  repeat split; try assumption.
  - intros Hd. destruct (dotsAfter_counting s 0) as [E|[E1 E2]]; [lia|lia|].
    assert (List.length s = 1%nat) by (unfold len in E1; lia).
    rewrite H in E2. simpl in E2. subst s. discriminate.
  - intros Hd. destruct (dotsAfter_counting s 0) as [E|[E1 E2]]; [lia|lia|].
    assert (List.length s = 2%nat) by (unfold len in E1; lia).
    rewrite H in E2. simpl in E2. subst s. discriminate.
Qed.

Definition push (r s : jsstring) : jsstring :=
  if 0 <? len r then r ++ CHAR_FORWARD_SLASH :: s else s.

Lemma onSeparator_push (b : bool) (st : nstate) :
  st.(segment) <> [] -> st.(dots) <> 1 -> st.(dots) <> 2 ->
  onSeparator b st =
  mkNstate (push st.(res) st.(segment)) (len st.(segment)) [] 0
           CHAR_FORWARD_SLASH.
Proof.
  intros Hs H1 H2. unfold onSeparator.
  replace (len (segment st) =? 0) with false.
  2:{ symmetry. apply Z.eqb_neq. intros H. now apply len_zero in H. }
  replace (dots st =? 1) with false by (symmetry; now apply Z.eqb_neq).
  replace (dots st =? 2) with false by (symmetry; now apply Z.eqb_neq).
  reflexivity.
Qed.

(** [normalizeString] keeps a last segment that does not end in a dot. *)
Lemma normalizeString_tail (b : bool) (a t : jsstring) (c : N) :
  noSlash (t ++ [c]) = true -> N.eqb c CHAR_DOT = false ->
  exists r, normalizeString (a ++ t ++ [c]) b = r ++ t ++ [c].
Proof.
  intros Ht Hc. unfold normalizeString.
  rewrite normalizeLoop_fold, fold_left_app.
  set (st1 := fold_left (step b) a _).
  assert (Hne : t ++ [c] <> []) by (destruct t; discriminate).
  rewrite (fold_segment b _ st1 Ht Hne).
  unfold finish. cbn [code]. rewrite (noSlash_last _ Ht Hne).
  rewrite onSeparator_push; cbn [res segment dots].
  - unfold push. destruct (0 <? len (res st1)).
    + exists (res st1 ++ CHAR_FORWARD_SLASH :: segment st1).
      now rewrite <- !app_assoc.
    + exists (segment st1). reflexivity.
  - intros H. apply app_eq_nil in H as [_ H]. now apply Hne.
  - rewrite dotsAfter_last by assumption. lia.
  - rewrite dotsAfter_last by assumption. lia.
Qed.

Fixpoint joinSlash (segs : list jsstring) : jsstring :=
  match segs with
  | [] => []
  | [s] => s
  | s :: rest => s ++ CHAR_FORWARD_SLASH :: joinSlash rest
  end.

Lemma fold_plain_segment (b : bool) (s : jsstring) (st : nstate) :
  plainSegment s = true -> st.(segment) = [] -> st.(dots) = 0 ->
  fold_left (step b) (s ++ [CHAR_FORWARD_SLASH]) st =
  mkNstate (push st.(res) s) (len s) [] 0 CHAR_FORWARD_SLASH.
Proof.
  intros Hs Hseg Hd. apply plainSegment_dots in Hs as (H1 & H2 & H3 & H4).
  rewrite fold_left_app, (fold_segment b _ st H1 H2), Hseg, Hd.
  simpl fold_left. unfold step, isPosixPathSeparator. rewrite N.eqb_refl.
  rewrite onSeparator_push; cbn [res segment dots]; simpl app;
    try assumption.
  reflexivity.
Qed.

Lemma finish_plain_segments (b : bool) (segs : list jsstring) (st : nstate) :
  segs <> [] -> forallb plainSegment segs = true ->
  st.(segment) = [] -> st.(dots) = 0 ->
  finish b (fold_left (step b) (joinSlash segs) st) =
  push st.(res) (joinSlash segs).
Proof.
  revert st; induction segs as [|s segs IH]; intros st Hne Hall Hseg Hd;
    [congruence|].
  simpl in Hall. apply andb_true_iff in Hall as [Hs Hall].
  destruct segs as [|s2 rest].
  - simpl joinSlash. apply plainSegment_dots in Hs as (H1 & H2 & H3 & H4).
    rewrite (fold_segment b _ st H1 H2), Hseg, Hd. unfold finish. cbn [code].
    rewrite (noSlash_last _ H1 H2).
    rewrite onSeparator_push; cbn [res segment dots]; simpl app;
      try assumption.
    reflexivity.
  - change (joinSlash (s :: s2 :: rest))
      with (s ++ CHAR_FORWARD_SLASH :: joinSlash (s2 :: rest)).
    replace (s ++ CHAR_FORWARD_SLASH :: joinSlash (s2 :: rest))
      with ((s ++ [CHAR_FORWARD_SLASH]) ++ joinSlash (s2 :: rest))
      by now rewrite <- app_assoc.
    rewrite fold_left_app, (fold_plain_segment b _ st Hs Hseg Hd).
    rewrite IH; try (reflexivity || assumption || discriminate).
    cbn [res]. apply plainSegment_dots in Hs as (H1 & H2 & _).
    unfold push.
    assert (Hpos : 0 < len s).
    { destruct s; [congruence|]. rewrite len_cons. pose proof (len_nonneg s). lia. }
    destruct (0 <? len (res st)) eqn:Hr.
    + replace (0 <? len (res st ++ CHAR_FORWARD_SLASH :: s)) with true.
      * rewrite <- !app_assoc. reflexivity.
      * symmetry. apply Z.ltb_lt. rewrite len_app, len_cons.
        pose proof (len_nonneg (res st)). lia.
    + replace (0 <? len s) with true by (symmetry; now apply Z.ltb_lt).
      rewrite <- !app_assoc. reflexivity.
Qed.

(** [normalizeString] leaves a path of plain segments as it is. *)
Lemma normalizeString_plain (b : bool) (segs : list jsstring) :
  segs <> [] -> forallb plainSegment segs = true ->
  normalizeString (joinSlash segs) b = joinSlash segs.
Proof.
  intros Hne Hall. unfold normalizeString.
  rewrite normalizeLoop_fold, finish_plain_segments by (assumption || reflexivity).
  reflexivity.
Qed.

Lemma last_app_one (a : jsstring) (c d : N) : last (a ++ [c]) d = c.
Proof. apply last_last. Qed.

Lemma last_app_right (a b : jsstring) (d : N) :
  b <> [] -> last (a ++ b) d = last b d.
Proof.
  intros Hb. induction a as [|x a IH]; [reflexivity|].
  simpl app. destruct (a ++ b) eqn:E.
  - apply app_eq_nil in E as [_ E]. congruence.
  - rewrite <- IH. reflexivity.
Qed.

(** [normalize] keeps a last segment that does not end in a dot. *)
Lemma normalize_tail (a t : jsstring) (c : N) :
  noSlash (t ++ [c]) = true -> N.eqb c CHAR_DOT = false ->
  exists r, normalize (a ++ t ++ [c]) = r ++ t ++ [c].
Proof.
  intros Ht Hc.
  assert (Hsep : N.eqb c CHAR_FORWARD_SLASH = false).
  { unfold noSlash in Ht. rewrite forallb_app in Ht.
    apply andb_true_iff in Ht as [_ Ht]. simpl in Ht.
    rewrite andb_true_r in Ht. now apply negb_true_iff in Ht. }
  destruct (normalizeString_tail (negb (N.eqb (hd 0%N (a ++ t ++ [c]))
                                              CHAR_FORWARD_SLASH)) a t c Ht Hc)
    as [r Hr].
  unfold normalize.
  destruct (a ++ t ++ [c]) as [|c0 rest] eqn:Hp.
  { destruct a, t; discriminate. }
  simpl hd in Hr. rewrite Hr.
  assert (Hlast : last (c0 :: rest) 0%N = c).
  { rewrite <- Hp, app_assoc. apply last_app_one. }
  rewrite Hlast, Hsep.
  destruct (r ++ t ++ [c]) eqn:Hq.
  { destruct r, t; discriminate. }
  rewrite <- Hq.
  destruct (N.eqb c0 CHAR_FORWARD_SLASH).
  - exists (CHAR_FORWARD_SLASH :: r). reflexivity.
  - exists r. reflexivity.
Qed.

Lemma joinArgs_last (o : option jsstring) (args : list jsstring) (y : jsstring) :
  y <> [] ->
  exists a, joinArgs o (args ++ [y]) = Some (a ++ y).
Proof.
  intros Hy. revert o; induction args as [|x args IH]; intros o.
  - simpl. destruct y as [|c y]; [congruence|].
    destruct o as [j|].
    + exists (j ++ [CHAR_FORWARD_SLASH]). now rewrite <- app_assoc.
    + exists []. reflexivity.
  - simpl. apply IH.
Qed.

(** [join] keeps the end of its last argument, from its last separator on,
    when that end does not finish in a dot. *)
Lemma join_tail (args : list jsstring) (y t : jsstring) (c : N) :
  noSlash (t ++ [c]) = true -> N.eqb c CHAR_DOT = false ->
  exists r, join (args ++ [y ++ t ++ [c]]) = r ++ t ++ [c].
Proof.
  intros Ht Hc.
  destruct (joinArgs_last None args (y ++ t ++ [c])) as [a Ha].
  { destruct y, t; discriminate. }
  unfold join. setoid_rewrite Ha.
  replace (a ++ y ++ t ++ [c]) with ((a ++ y) ++ t ++ [c])
    by now rewrite <- app_assoc.
  now apply normalize_tail.
Qed.

Lemma joinSlash_cons (s : jsstring) (segs : list jsstring) :
  segs <> [] ->
  joinSlash (s :: segs) = s ++ CHAR_FORWARD_SLASH :: joinSlash segs.
Proof. destruct segs; [congruence|reflexivity]. Qed.

Lemma joinSlash_app (a b : list jsstring) :
  a <> [] -> b <> [] ->
  joinSlash (a ++ b) = joinSlash a ++ CHAR_FORWARD_SLASH :: joinSlash b.
Proof.
  intros Ha Hb. induction a as [|s a IH]; [congruence|].
  destruct a as [|s2 a].
  - simpl app. now rewrite joinSlash_cons.
  - change ((s :: s2 :: a) ++ b) with (s :: (s2 :: a) ++ b).
    rewrite joinSlash_cons by discriminate.
    rewrite IH by discriminate.
    rewrite (joinSlash_cons s (s2 :: a)) by discriminate.
    now rewrite <- app_assoc.
Qed.

Lemma plainSegment_nonempty (s : jsstring) :
  plainSegment s = true -> exists c s', s = c :: s' /\ N.eqb c CHAR_FORWARD_SLASH = false.
Proof.
  intros H. apply plainSegment_dots in H as (H1 & H2 & _).
  destruct s as [|c s']; [congruence|]. exists c, s'. split; [reflexivity|].
  simpl in H1. apply andb_true_iff in H1 as [H1 _]. now apply negb_true_iff in H1.
Qed.

Lemma joinSlash_last (segs : list jsstring) :
  segs <> [] -> forallb plainSegment segs = true ->
  N.eqb (last (joinSlash segs) 0%N) CHAR_FORWARD_SLASH = false.
Proof.
  induction segs as [|s segs IH]; intros Hne Hall; [congruence|].
  simpl in Hall. apply andb_true_iff in Hall as [Hs Hall].
  destruct segs as [|s2 rest].
  - simpl. apply plainSegment_dots in Hs as (H1 & H2 & _).
    now apply noSlash_last.
  - rewrite joinSlash_cons by discriminate.
    assert (Hj : joinSlash (s2 :: rest) <> []).
    { destruct (plainSegment_nonempty s2) as (c & s' & -> & _).
      - simpl in Hall. now apply andb_true_iff in Hall as [H _].
      - destruct rest; discriminate. }
    replace (s ++ CHAR_FORWARD_SLASH :: joinSlash (s2 :: rest))
      with ((s ++ [CHAR_FORWARD_SLASH]) ++ joinSlash (s2 :: rest))
      by now rewrite <- app_assoc.
    rewrite last_app_right by assumption.
    apply IH; [discriminate|assumption].
Qed.

Lemma normalize_fixed (p : jsstring) :
  N.eqb (hd CHAR_FORWARD_SLASH p) CHAR_FORWARD_SLASH = false ->
  N.eqb (last p 0%N) CHAR_FORWARD_SLASH = false ->
  normalizeString p true = p ->
  normalize p = p.
Proof.
  intros Hhd Hlast Hn. unfold normalize.
  destruct p as [|c p1]; [discriminate|].
  simpl hd in Hhd. rewrite Hhd. simpl negb. rewrite Hn, Hlast. reflexivity.
Qed.

Lemma joinSlash_hd (segs : list jsstring) :
  segs <> [] -> forallb plainSegment segs = true ->
  N.eqb (hd CHAR_FORWARD_SLASH (joinSlash segs)) CHAR_FORWARD_SLASH = false.
Proof.
  intros Hne Hall. destruct segs as [|s rest]; [congruence|].
  simpl in Hall. apply andb_true_iff in Hall as [Hs Hall].
  destruct (plainSegment_nonempty s Hs) as (c & s' & -> & Hc).
  destruct rest; exact Hc.
Qed.

(** [normalize] leaves a relative path of plain segments as it is. *)
Lemma normalize_plain (segs : list jsstring) :
  segs <> [] -> forallb plainSegment segs = true ->
  normalize (joinSlash segs) = joinSlash segs.
Proof.
  intros Hne Hall. apply normalize_fixed.
  - now apply joinSlash_hd.
  - now apply joinSlash_last.
  - now apply normalizeString_plain.
Qed.

(** [join] of plain segments puts a separator between them. *)
Lemma join_plain (segs : list jsstring) :
  segs <> [] -> forallb plainSegment segs = true ->
  joinArgs None segs = Some (joinSlash segs).
Proof.
  intros Hne Hall.
  assert (G : forall segs j, forallb plainSegment segs = true ->
              joinArgs (Some j) segs =
              Some (match segs with
                    | [] => j
                    | _ => j ++ CHAR_FORWARD_SLASH :: joinSlash segs
                    end)).
  { clear. induction segs as [|s segs IH]; intros j Hall; [reflexivity|].
    simpl in Hall. apply andb_true_iff in Hall as [Hs Hall].
    destruct (plainSegment_nonempty s Hs) as (c & s' & -> & _).
    cbn [joinArgs]. rewrite IH by assumption.
    destruct segs as [|s2 rest]; [reflexivity|].
    rewrite (joinSlash_cons (c :: s')) by discriminate.
    now rewrite <- app_assoc. }
  destruct segs as [|s rest]; [congruence|].
  simpl in Hall. apply andb_true_iff in Hall as [Hs Hall].
  destruct (plainSegment_nonempty s Hs) as (c & s' & -> & _).
  cbn [joinArgs]. rewrite G by assumption.
  destruct rest; reflexivity.
Qed.

(** *** [dirname] *)

Lemma dirnameLoop_file (f l : jsstring) :
  noSlash f = true ->
  dirnameLoop (f ++ CHAR_FORWARD_SLASH :: l) false = len l + 1.
Proof.
  induction f as [|c f IH]; intros Hf.
  - simpl app. cbn [dirnameLoop]. rewrite N.eqb_refl. simpl negb. cbv iota.
    now rewrite len_cons.
  - simpl in Hf. apply andb_true_iff in Hf as [Hc Hf].
    apply negb_true_iff in Hc. simpl app. cbn [dirnameLoop]. rewrite Hc.
    now apply IH.
Qed.

(** The directory part of [d/f], for a relative [d] and a file name [f]. *)
Lemma dirname_file (c0 : N) (d f : jsstring) :
  N.eqb c0 CHAR_FORWARD_SLASH = false ->
  noSlash f = true -> f <> [] ->
  dirname ((c0 :: d) ++ CHAR_FORWARD_SLASH :: f) = c0 :: d.
Proof.
  intros Hc0 Hf Hne. unfold dirname. simpl app. cbv beta iota. rewrite Hc0.
  rewrite rev_app_distr. simpl rev. rewrite <- app_assoc. simpl app.
  destruct (rev f) as [|x rf] eqn:Hrf.
  { apply (f_equal (@rev N)) in Hrf. rewrite rev_involutive in Hrf. now subst f. }
  assert (Hnf : noSlash (x :: rf) = true).
  { rewrite <- Hrf. unfold noSlash. rewrite forallb_rev_eq. exact Hf. }
  simpl in Hnf. apply andb_true_iff in Hnf as [Hx Hrest].
  apply negb_true_iff in Hx.
  simpl app. cbn [dirnameLoop]. rewrite Hx.
  rewrite dirnameLoop_file by assumption.
  assert (Hl : len (rev d) + 1 = len (c0 :: d)).
  { rewrite len_cons. unfold len. now rewrite length_rev. }
  rewrite Hl.
  replace (len (c0 :: d) =? -1) with false.
  2:{ symmetry. apply Z.eqb_neq. pose proof (len_nonneg (c0 :: d)). lia. }
  simpl andb.
  change (c0 :: d ++ CHAR_FORWARD_SLASH :: f)
    with ((c0 :: d) ++ CHAR_FORWARD_SLASH :: f).
  apply slice_prefix.
Qed.

(** *** [extname] *)

Definition noSlashDot (s : jsstring) : bool :=
  forallb (fun c => negb (N.eqb c CHAR_FORWARD_SLASH)
                    && negb (N.eqb c CHAR_DOT)) s.

Lemma len_rev (a : jsstring) : len (rev a) = len a.
Proof. unfold len. now rewrite length_rev. Qed.

Lemma slice_at (a b c : jsstring) (i j : Z) :
  i = len a -> j = len a + len b -> slice (a ++ b ++ c) i j = b.
Proof. intros -> ->. apply slice_middle. Qed.

Lemma neqb_m1 (z : Z) : 0 <= z -> (z =? -1) = false.
Proof. intros H. apply Z.eqb_neq. lia. Qed.

(** Below the extension: nothing changes until the dot is met. *)
Lemma extnameLoop_ext (e rest : jsstring) (st : estate) :
  noSlashDot e = true -> 0 <= st.(eEnd) -> st.(startDot) = -1 ->
  extnameLoop (e ++ rest) st = extnameLoop rest st.
Proof.
  intros He Hend Hdot. induction e as [|c e IH]; [reflexivity|].
  simpl in He. apply andb_true_iff in He as [Hc He].
  apply andb_true_iff in Hc as [Hc1 Hc2].
  apply negb_true_iff in Hc1, Hc2.
  simpl app. cbn [extnameLoop]. rewrite Hc1, Hc2.
  rewrite (neqb_m1 _ Hend), Hdot. simpl. now apply IH.
Qed.

(** What the characters [n] before the dot, read from the right, make of
    [preDotState]. *)
Fixpoint preDotAfter (p : Z) (n : jsstring) : Z :=
  match n with
  | [] => p
  | c :: n' =>
      preDotAfter (if N.eqb c CHAR_DOT
                   then (if negb (p =? 1) then 1 else p) else -1) n'
  end.

Lemma preDotAfter_set (n : jsstring) (p : Z) :
  p = 1 \/ p = -1 -> preDotAfter p n = 1 \/ preDotAfter p n = -1.
Proof.
  revert p; induction n as [|c n IH]; intros p Hp; [exact Hp|].
  simpl. apply IH. destruct (N.eqb c CHAR_DOT); [|now right].
  destruct Hp as [-> | ->]; simpl; now left.
Qed.

Lemma preDotAfter_nonempty (n : jsstring) (p : Z) :
  n <> [] -> preDotAfter p n = 1 \/ preDotAfter p n = -1.
Proof.
  destruct n as [|c n]; [congruence|]. intros _. simpl.
  apply preDotAfter_set. destruct (N.eqb c CHAR_DOT); [|now right].
  destruct (p =? 1) eqn:E; simpl; [|now left].
  apply Z.eqb_eq in E. now left.
Qed.

Lemma extnameLoop_name (n rest : jsstring) (st : estate) :
  noSlash n = true -> 0 <= st.(startDot) -> 0 <= st.(eEnd) ->
  extnameLoop (n ++ rest) st =
  extnameLoop rest (mkEstate st.(startDot) st.(startPart) st.(eEnd)
                             st.(eMatchedSlash)
                             (preDotAfter st.(preDotState) n)).
Proof.
  revert st; induction n as [|c n IH]; intros st Hn Hdot Hend.
  - simpl. now destruct st.
  - simpl in Hn. apply andb_true_iff in Hn as [Hc Hn].
    apply negb_true_iff in Hc.
    simpl app. cbn [extnameLoop]. rewrite Hc, (neqb_m1 _ Hend).
    destruct st as [sd sp en ms pd]. cbn [startDot startPart eEnd eMatchedSlash preDotState] in *.
    rewrite (neqb_m1 _ Hdot). simpl negb at 1. cbv iota.
    destruct (N.eqb c CHAR_DOT) eqn:Hd.
    + destruct (negb (pd =? 1)) eqn:Hp.
      * rewrite IH by assumption. cbn [startDot startPart eEnd eMatchedSlash preDotState].
        cbn [preDotAfter]. now rewrite Hd, Hp.
      * rewrite IH by assumption. cbn [startDot startPart eEnd eMatchedSlash preDotState].
        cbn [preDotAfter]. now rewrite Hd, Hp.
    + simpl negb. cbv iota.
      rewrite IH by assumption. cbn [startDot startPart eEnd eMatchedSlash preDotState].
      cbn [preDotAfter]. now rewrite Hd.
Qed.

Lemma extnameLoop_first (c : N) (l : jsstring) :
  N.eqb c CHAR_FORWARD_SLASH = false -> N.eqb c CHAR_DOT = false ->
  extnameLoop (c :: l) (mkEstate (-1) 0 (-1) true 0)
  = extnameLoop l (mkEstate (-1) 0 (len l + 1) false 0).
Proof. intros H1 H2. cbn [extnameLoop]. rewrite H1, H2. reflexivity. Qed.

Lemma extnameLoop_dot (l : jsstring) (en : Z) :
  0 <= en ->
  extnameLoop (CHAR_DOT :: l) (mkEstate (-1) 0 en false 0)
  = extnameLoop l (mkEstate (len l) 0 en false 0).
Proof.
  intros H. cbn [extnameLoop].
  change (N.eqb CHAR_DOT CHAR_FORWARD_SLASH) with false.
  change (N.eqb CHAR_DOT CHAR_DOT) with true. cbv iota.
  cbn [startDot startPart eEnd eMatchedSlash preDotState].
  rewrite (neqb_m1 _ H). reflexivity.
Qed.

Lemma extnameLoop_sep (l : jsstring) (sd sp en pd : Z) :
  extnameLoop (CHAR_FORWARD_SLASH :: l) (mkEstate sd sp en false pd)
  = mkEstate sd (len l + 1) en false pd.
Proof. cbn [extnameLoop]. rewrite N.eqb_refl. reflexivity. Qed.

Lemma rev_nonempty (a : jsstring) : a <> [] -> rev a <> [].
Proof.
  intros Ha H. apply (f_equal (@rev N)) in H.
  rewrite rev_involutive in H. now subst a.
Qed.

(** The extension of [d/name.ext]. *)
Lemma extname_file (d name ext : jsstring) :
  noSlash name = true -> name <> [] ->
  noSlashDot ext = true -> ext <> [] ->
  extname (d ++ CHAR_FORWARD_SLASH :: name ++ CHAR_DOT :: ext)
  = CHAR_DOT :: ext.
Proof.
  intros Hname Hne Hext Hxe. unfold extname.
  assert (Hrev : rev (d ++ CHAR_FORWARD_SLASH :: name ++ CHAR_DOT :: ext)
                 = rev ext ++ CHAR_DOT :: rev name
                   ++ CHAR_FORWARD_SLASH :: rev d).
  { rewrite rev_app_distr. simpl rev. rewrite rev_app_distr. simpl rev.
    rewrite <- !app_assoc. reflexivity. }
  rewrite Hrev.
  pose proof (len_nonneg d) as Hd0. pose proof (len_nonneg name) as Hn0.
  pose proof (len_nonneg ext) as He0.
  assert (Hext' : 0 < len ext).
  { destruct ext; [congruence|]. rewrite len_cons. pose proof (len_nonneg ext). lia. }
  destruct (rev ext) as [|c e] eqn:Hre.
  { now apply rev_nonempty in Hxe. }
  assert (He : noSlashDot (c :: e) = true).
  { rewrite <- Hre. unfold noSlashDot. now rewrite forallb_rev_eq. }
  assert (Hlen : len ext = len e + 1).
  { rewrite <- len_rev, Hre. apply len_cons. }
  simpl in He. apply andb_true_iff in He as [Hc He].
  apply andb_true_iff in Hc as [Hc1 Hc2]. apply negb_true_iff in Hc1, Hc2.
  assert (Hrn : noSlash (rev name) = true)
    by (unfold noSlash; now rewrite forallb_rev_eq).
  remember (rev name ++ CHAR_FORWARD_SLASH :: rev d) as tl eqn:Htl.
  assert (Htl_len : len tl = len d + 1 + len name).
  { subst tl. rewrite len_app, len_cons, !len_rev. lia. }
  simpl app. rewrite extnameLoop_first by assumption.
  rewrite extnameLoop_ext;
    cbn [startDot startPart eEnd eMatchedSlash preDotState];
    [|assumption|pose proof (len_nonneg (e ++ CHAR_DOT :: tl)); lia|reflexivity].
  rewrite extnameLoop_dot by (pose proof (len_nonneg (e ++ CHAR_DOT :: tl)); lia).
  assert (Hend : len (e ++ CHAR_DOT :: tl) + 1 = len tl + 1 + len ext).
  { rewrite len_app, len_cons. lia. }
  rewrite Hend. subst tl.
  rewrite extnameLoop_name;
    cbn [startDot startPart eEnd eMatchedSlash preDotState];
    [|assumption|lia|lia].
  rewrite extnameLoop_sep.
  cbn [startDot startPart eEnd eMatchedSlash preDotState].
  rewrite Htl_len.
  rewrite (neqb_m1 (len d + 1 + len name)) by lia.
  rewrite (neqb_m1 (len d + 1 + len name + 1 + len ext)) by lia.
  replace (preDotAfter 0 (rev name) =? 0) with false.
  2:{ symmetry. apply Z.eqb_neq.
      destruct (preDotAfter_nonempty (rev name) 0 (rev_nonempty _ Hne)); lia. }
  replace (len d + 1 + len name =? len d + 1 + len name + 1 + len ext - 1)
    with false by (symmetry; apply Z.eqb_neq; lia).
  rewrite andb_false_r. simpl orb. cbv iota.
  replace (d ++ CHAR_FORWARD_SLASH :: name ++ CHAR_DOT :: ext)
    with ((d ++ CHAR_FORWARD_SLASH :: name) ++ (CHAR_DOT :: ext) ++ []).
  2:{ rewrite app_nil_r, <- app_assoc. reflexivity. }
  apply slice_at.
  - rewrite len_app, len_cons. lia.
  - rewrite len_app, !len_cons. lia.
Qed.

(** *** [basename] *)

(** While the suffix matches: its characters are consumed, and the index of
    its first character becomes the end of the base name. *)
Lemma basenameSuffixLoop_match (sfx rest : jsstring) (st : bstate) :
  noSlash sfx = true -> sfx <> [] -> st.(extRest) = sfx ->
  -1 <= st.(firstNonSlashEnd) ->
  basenameSuffixLoop (sfx ++ rest) st =
  basenameSuffixLoop rest
    (mkBstate st.(bStart) (len rest)
              (if st.(firstNonSlashEnd) =? -1 then false
               else st.(bMatchedSlash))
              []
              (if st.(firstNonSlashEnd) =? -1 then len (sfx ++ rest)
               else st.(firstNonSlashEnd))).
Proof.
  revert st; induction sfx as [|c sfx IH]; intros st Hs Hne Hx Hf;
    [congruence|].
  simpl in Hs. apply andb_true_iff in Hs as [Hc Hs].
  apply negb_true_iff in Hc.
  destruct st as [bs be ms xr fn].
  cbn [bStart bEnd bMatchedSlash extRest firstNonSlashEnd] in *. subst xr.
  simpl app. cbn [basenameSuffixLoop]. rewrite Hc.
  cbn [bStart bEnd bMatchedSlash extRest firstNonSlashEnd].
  destruct sfx as [|c2 sfx'].
  - simpl app. destruct (fn =? -1) eqn:Hfn;
      cbn [bStart bEnd bMatchedSlash extRest firstNonSlashEnd];
      rewrite N.eqb_refl; rewrite ?len_cons; reflexivity.
  - destruct (fn =? -1) eqn:Hfn;
      cbn [bStart bEnd bMatchedSlash extRest firstNonSlashEnd];
      rewrite N.eqb_refl;
      rewrite IH;
      cbn [bStart bEnd bMatchedSlash extRest firstNonSlashEnd];
      try (assumption || discriminate || reflexivity).
    + rewrite neqb_m1 by (pose proof (len_nonneg ((c2 :: sfx') ++ rest)); lia).
      rewrite (len_cons c). reflexivity.
    + rewrite Hfn. reflexivity.
Qed.

(** Once the suffix is consumed, the rest of the component is passed. *)
Lemma basenameSuffixLoop_pass (n rest : jsstring) (st : bstate) :
  noSlash n = true -> 0 <= st.(firstNonSlashEnd) -> st.(extRest) = [] ->
  basenameSuffixLoop (n ++ rest) st = basenameSuffixLoop rest st.
Proof.
  intros Hn Hf Hx. induction n as [|c n IH]; [reflexivity|].
  simpl in Hn. apply andb_true_iff in Hn as [Hc Hn].
  apply negb_true_iff in Hc.
  simpl app. cbn [basenameSuffixLoop]. rewrite Hc, (neqb_m1 _ Hf), Hx.
  now apply IH.
Qed.

Lemma basenameSuffixLoop_sep (l : jsstring) (s e f : Z) (x : jsstring) :
  basenameSuffixLoop (CHAR_FORWARD_SLASH :: l) (mkBstate s e false x f)
  = mkBstate (len l + 1) e false x f.
Proof. cbn [basenameSuffixLoop]. rewrite N.eqb_refl. reflexivity. Qed.

Lemma eqb_len (a b : jsstring) : len a <> len b -> JS.eqb a b = false.
Proof.
  intros H. destruct (JS.eqb a b) eqn:E; [|reflexivity].
  apply eqb_eq in E. now subst.
Qed.

Lemma noSlashDot_noSlash (s : jsstring) : noSlashDot s = true -> noSlash s = true.
Proof.
  unfold noSlashDot, noSlash. induction s as [|c s IH]; [reflexivity|].
  simpl. intros H. apply andb_true_iff in H as [H1 H2].
  apply andb_true_iff in H1 as [H1 _]. rewrite H1. now apply IH.
Qed.

(** The base name of [d/name.ext] without its extension. *)
Lemma basename_file (d name ext : jsstring) :
  noSlash name = true -> name <> [] -> noSlashDot ext = true ->
  basename (d ++ CHAR_FORWARD_SLASH :: name ++ CHAR_DOT :: ext)
           (CHAR_DOT :: ext)
  = name.
Proof.
  intros Hname Hne Hext. unfold basename.
  pose proof (len_nonneg d) as Hd0. pose proof (len_nonneg name) as Hn0.
  pose proof (len_nonneg ext) as He0.
  assert (Hpos : 0 < len name).
  { destruct name; [congruence|]. rewrite len_cons. pose proof (len_nonneg name). lia. }
  assert (Hlen : len (d ++ CHAR_FORWARD_SLASH :: name ++ CHAR_DOT :: ext)
                 = len d + 1 + len name + 1 + len ext).
  { rewrite len_app, len_cons, len_app, len_cons. lia. }
  replace (0 <? len (CHAR_DOT :: ext)) with true
    by (symmetry; apply Z.ltb_lt; rewrite len_cons; lia).
  replace (len (CHAR_DOT :: ext) <=? _) with true
    by (symmetry; apply Z.leb_le; rewrite Hlen, len_cons; lia).
  rewrite eqb_len by (rewrite Hlen, len_cons; lia).
  simpl andb. cbv iota.
  assert (Hrev : rev (d ++ CHAR_FORWARD_SLASH :: name ++ CHAR_DOT :: ext)
                 = (rev ext ++ [CHAR_DOT]) ++ rev name
                   ++ CHAR_FORWARD_SLASH :: rev d).
  { rewrite rev_app_distr. simpl rev. rewrite rev_app_distr. simpl rev.
    rewrite <- !app_assoc. reflexivity. }
  rewrite Hrev. simpl (rev (CHAR_DOT :: ext)).
  assert (Hsfx : noSlash (rev ext ++ [CHAR_DOT]) = true).
  { unfold noSlash. rewrite forallb_app, forallb_rev_eq.
    apply noSlashDot_noSlash in Hext. unfold noSlash in Hext.
    now rewrite Hext. }
  rewrite basenameSuffixLoop_match;
    cbn [bStart bEnd bMatchedSlash extRest firstNonSlashEnd];
    [|assumption|destruct (rev ext); discriminate|reflexivity|lia].
  simpl (-1 =? -1). cbv iota.
  rewrite basenameSuffixLoop_pass;
    cbn [bStart bEnd bMatchedSlash extRest firstNonSlashEnd];
    [|unfold noSlash; now rewrite forallb_rev_eq
     |apply len_nonneg|reflexivity].
  rewrite basenameSuffixLoop_sep.
  cbn [bStart bEnd bMatchedSlash extRest firstNonSlashEnd].
  rewrite len_rev, len_app, len_cons, !len_rev.
  replace (len d + 1 =? len name + (len d + 1)) with false
    by (symmetry; apply Z.eqb_neq; lia).
  rewrite neqb_m1 by lia.
  replace (d ++ CHAR_FORWARD_SLASH :: name ++ CHAR_DOT :: ext)
    with ((d ++ [CHAR_FORWARD_SLASH]) ++ name ++ CHAR_DOT :: ext)
    by (rewrite <- app_assoc; reflexivity).
  apply slice_at.
  - rewrite len_app, len_cons. change (len []) with 0. lia.
  - rewrite len_app, len_cons. change (len []) with 0. lia.
Qed.

End posix_facts.

(* ================================================================== *)
(** ** URL paths *)

Import posix_facts.

Definition noBackslash (s : jsstring) : bool :=
  forallb (fun d => negb (N.eqb d CHAR_BACKWARD_SLASH)) s.

Lemma noBackslash_app (a b : jsstring) :
  noBackslash (a ++ b) = noBackslash a && noBackslash b.
Proof. apply forallb_app. Qed.

Lemma ensureLeadingSlash_string (s : jsstring) :
  ensureLeadingSlash (VStr s)
  = match s with
    | c :: _ => if N.eqb c CHAR_FORWARD_SLASH then s else CHAR_FORWARD_SLASH :: s
    | [] => [CHAR_FORWARD_SLASH]
    end.
Proof.
  destruct s as [|c s]; [reflexivity|].
  unfold ensureLeadingSlash. cbn [startsWith lit list_ascii_of_string List.map].
  rewrite andb_true_r, N.eqb_sym. reflexivity.
Qed.

(** What [normalizeUrlPath] does hold of every string: the result starts
    with a slash, has no backslash, and is the input with its backslashes
    replaced, behind a slash when the input did not start with one. *)
Lemma normalizeUrlPath_string (s : jsstring) :
  exists rest,
    normalizeUrlPath (VStr s) = CHAR_FORWARD_SLASH :: rest
    /\ noBackslash (normalizeUrlPath (VStr s)) = true
    /\ (normalizeUrlPath (VStr s)
        = replaceAllChar CHAR_BACKWARD_SLASH (lit "/") s
        \/ normalizeUrlPath (VStr s)
           = CHAR_FORWARD_SLASH
             :: replaceAllChar CHAR_BACKWARD_SLASH (lit "/") s).
Proof.
  unfold normalizeUrlPath. rewrite ensureLeadingSlash_string.
  assert (Hno : forall x, noBackslash
            (replaceAllChar CHAR_BACKWARD_SLASH (lit "/") x) = true).
  { intros x. now apply replaceAllChar_removes. }
  destruct s as [|c s].
  - exists []. repeat split. now right.
  - destruct (N.eqb c CHAR_FORWARD_SLASH) eqn:Hc.
    + apply N.eqb_eq in Hc. subst c.
      exists (replaceAllChar CHAR_BACKWARD_SLASH (lit "/") s).
      repeat split; [apply Hno|now left].
    + exists (replaceAllChar CHAR_BACKWARD_SLASH (lit "/") (c :: s)).
      repeat split; [apply (Hno (CHAR_FORWARD_SLASH :: c :: s))|now right].
Qed.

Lemma normalizeUrlPath_not_string (v : value) :
  isString v = false -> normalizeUrlPath v = [].
Proof. destruct v; simpl; intros H; try discriminate; reflexivity. Qed.

(** A URL that starts with a slash and has no backslash is normalized. *)
Lemma normalizeUrlPath_fixed (p : jsstring) :
  noBackslash p = true ->
  normalizeUrlPath (VStr (CHAR_FORWARD_SLASH :: p)) = CHAR_FORWARD_SLASH :: p.
Proof.
  intros H. unfold normalizeUrlPath. rewrite ensureLeadingSlash_string.
  rewrite N.eqb_refl. now apply (replaceAllChar_absent _ _ (CHAR_FORWARD_SLASH :: p)).
Qed.

Lemma stripLeadingSlash_slash (p : jsstring) :
  stripLeadingSlash (CHAR_FORWARD_SLASH :: p) = p.
Proof. reflexivity. Qed.

(** [toThumbUrl] ends in [".jpg"], whatever it is given. *)
Lemma toThumbUrl_jpg (srcUrl : value) :
  exists r, toThumbUrl srcUrl = r ++ lit ".jpg".
Proof.
  unfold toThumbUrl.
  set (p := stripLeadingSlash (normalizeUrlPath srcUrl)).
  destruct (join_tail [lit "gallery"; lit "thumbs"; posix.dirname p]
              (posix.basename p (posix.extname p)) (lit ".jp") 103%N)
    as [r Hr]; [reflexivity|reflexivity|].
  change (posix.basename p (posix.extname p) ++ lit ".jpg")
    with (posix.basename p (posix.extname p) ++ lit ".jp" ++ [103%N]).
  change ([lit "gallery"; lit "thumbs"; posix.dirname p;
           posix.basename p (posix.extname p) ++ lit ".jp" ++ [103%N]])
    with ([lit "gallery"; lit "thumbs"; posix.dirname p]
          ++ [posix.basename p (posix.extname p) ++ lit ".jp" ++ [103%N]]).
  rewrite Hr, replaceAllChar_app, (replaceAllChar_app _ _ r).
  exists (replaceAllChar CHAR_BACKWARD_SLASH (lit "/") (lit "/")
          ++ replaceAllChar CHAR_BACKWARD_SLASH (lit "/") r).
  rewrite <- app_assoc. reflexivity.
Qed.

Lemma stripLeadingSlash_jpg (r : jsstring) :
  exists r', stripLeadingSlash (r ++ lit ".jpg") = r' ++ lit ".jpg".
Proof.
  destruct r as [|c r].
  - exists []. reflexivity.
  - unfold stripLeadingSlash. simpl app.
    destruct (startsWith (c :: r ++ lit ".jpg") (lit "/")).
    + exists r. reflexivity.
    + exists (c :: r). reflexivity.
Qed.

(** The file a thumbnail is written to ends in [".jpg"]. *)
Lemma thumbPath_jpg (E : Env) (srcUrl : value) :
  exists r,
    toFsPathFromPublicUrl E (VStr (toThumbUrl srcUrl)) = r ++ lit ".jpg".
Proof.
  destruct (toThumbUrl_jpg srcUrl) as [r Hr]. rewrite Hr.
  unfold toFsPathFromPublicUrl.
  assert (H1 : exists r1, normalizeUrlPath (VStr (r ++ lit ".jpg"))
                          = r1 ++ lit ".jpg").
  { destruct (normalizeUrlPath_string (r ++ lit ".jpg")) as (_ & _ & _ & [H|H]);
      rewrite H, replaceAllChar_app.
    - now exists (replaceAllChar CHAR_BACKWARD_SLASH (lit "/") r).
    - now exists (CHAR_FORWARD_SLASH :: replaceAllChar CHAR_BACKWARD_SLASH (lit "/") r). }
  destruct H1 as [r1 ->].
  destruct (stripLeadingSlash_jpg r1) as [r2 ->].
  destruct (join_tail [PUBLIC_DIR E] r2 (lit ".jp") 103%N) as [r3 H3];
    [reflexivity|reflexivity|].
  exists r3. exact H3.
Qed.

Lemma MANIFEST_JSON_json (E : Env) :
  exists r, MANIFEST_JSON E = r ++ lit ".json".
Proof.
  destruct (join_tail [GENERATED_DIR E] (lit "gallery.manifest")
              (lit ".jso") 110%N) as [r Hr]; [reflexivity|reflexivity|].
  exists r. exact Hr.
Qed.

(** No thumbnail is written over the manifest. *)
Lemma thumbPath_not_manifest (E : Env) (srcUrl : value) :
  toFsPathFromPublicUrl E (VStr (toThumbUrl srcUrl)) <> MANIFEST_JSON E.
Proof.
  destruct (thumbPath_jpg E srcUrl) as [r1 H1].
  destruct (MANIFEST_JSON_json E) as [r2 H2].
  rewrite H1, H2. intros H.
  apply (f_equal (fun s => last s 0%N)) in H.
  change (lit ".jpg") with (lit ".jp" ++ [103%N]) in H.
  change (lit ".json") with (lit ".jso" ++ [110%N]) in H.
  rewrite !app_assoc, !last_app_one in H. discriminate.
Qed.

(** The parts of a source URL [/<dir>/<name>.<ext>]: directory segments,
    a file name and an extension. *)
Definition urlSegment (s : jsstring) : bool :=
  plainSegment s && noBackslash s.

Definition fileName (name : jsstring) : bool :=
  noSlash name && noBackslash name && negb (JS.eqb name []).

Definition fileExt (ext : jsstring) : bool :=
  noSlashDot ext && noBackslash ext && negb (JS.eqb ext []).

Lemma joinArgs_four (a b c d : jsstring) :
  a <> [] -> b <> [] -> c <> [] -> d <> [] ->
  posix.joinArgs None [a; b; c; d]
  = Some (a ++ CHAR_FORWARD_SLASH :: b ++ CHAR_FORWARD_SLASH
            :: c ++ CHAR_FORWARD_SLASH :: d).
Proof.
  intros Ha Hb Hc Hd.
  destruct a; [congruence|]. destruct b; [congruence|].
  destruct c; [congruence|]. destruct d; [congruence|].
  cbn [posix.joinArgs]. f_equal. rewrite <- !app_assoc. reflexivity.
Qed.

Lemma noBackslash_joinSlash (segs : list jsstring) :
  forallb noBackslash segs = true -> noBackslash (joinSlash segs) = true.
Proof.
  induction segs as [|s segs IH]; [reflexivity|].
  simpl forallb. intros H. apply andb_true_iff in H as [Hs H].
  destruct segs as [|s2 rest]; [exact Hs|].
  rewrite joinSlash_cons by discriminate.
  rewrite noBackslash_app, Hs. simpl. now apply IH.
Qed.

Lemma forallb_and (f g : jsstring -> bool) (l : list jsstring) :
  forallb (fun x => f x && g x) l = forallb f l && forallb g l.
Proof.
  induction l as [|x l IH]; [reflexivity|]. simpl. rewrite IH.
  destruct (f x), (g x), (forallb f l); reflexivity.
Qed.

Lemma plainSegment_jpg (name : jsstring) :
  noSlash name = true -> plainSegment (name ++ lit ".jpg") = true.
Proof.
  intros H. unfold plainSegment.
  assert (Hlen : 4 <= len (name ++ lit ".jpg")).
  { rewrite len_app. pose proof (len_nonneg name). change (len (lit ".jpg")) with 4. lia. }
  rewrite !eqb_len.
  - unfold noSlash in *. rewrite forallb_app, H. reflexivity.
  - change (len (lit "..")) with 2. lia.
  - change (len (lit ".")) with 1. lia.
  - change (len []) with 0. lia.
Qed.

Lemma toThumbUrl_segments (seg : jsstring) (segs : list jsstring)
      (name ext : jsstring) :
  forallb urlSegment (seg :: segs) = true ->
  fileName name = true -> fileExt ext = true ->
  toThumbUrl (VStr (lit "/" ++ joinSlash (seg :: segs) ++ lit "/"
                    ++ name ++ lit "." ++ ext))
  = lit "/gallery/thumbs/" ++ joinSlash (seg :: segs) ++ lit "/"
    ++ name ++ lit ".jpg".
Proof.
  intros Hsegs Hname Hext.
  unfold urlSegment in Hsegs. rewrite forallb_and in Hsegs.
  apply andb_true_iff in Hsegs as [Hplain Hnb].
  unfold fileName in Hname. apply andb_true_iff in Hname as [Hname Hn3].
  apply andb_true_iff in Hname as [Hn1 Hn2].
  unfold fileExt in Hext. apply andb_true_iff in Hext as [Hext He3].
  apply andb_true_iff in Hext as [He1 He2].
  assert (Hnne : name <> []) by (intros ->; discriminate).
  assert (Hene : ext <> []) by (intros ->; discriminate).
  set (d := joinSlash (seg :: segs)) in *.
  assert (Hd_nb : noBackslash d = true) by now apply noBackslash_joinSlash.
  assert (Hd_hd : N.eqb (hd CHAR_FORWARD_SLASH d) CHAR_FORWARD_SLASH = false)
    by (apply joinSlash_hd; [discriminate|assumption]).
  change (lit "/") with [CHAR_FORWARD_SLASH].
  change (lit ".") with [CHAR_DOT].
  cbn [app].
  unfold toThumbUrl.
  rewrite normalizeUrlPath_fixed.
  2:{ rewrite !noBackslash_app, Hd_nb. cbn [noBackslash forallb].
      change (noBackslash (name ++ CHAR_DOT :: ext) = true).
      rewrite noBackslash_app, Hn2. exact He2. }
  rewrite stripLeadingSlash_slash.
  rewrite extname_file by assumption.
  rewrite basename_file by assumption.
  destruct d as [|c0 d'] eqn:Hd; [discriminate|]. simpl hd in Hd_hd.
  rewrite dirname_file.
  2: assumption.
  2:{ unfold noSlash. rewrite forallb_app. fold (noSlash name). rewrite Hn1.
      apply noSlashDot_noSlash in He1. exact He1. }
  2:{ destruct name; discriminate. }
  unfold posix.join. rewrite joinArgs_four; try discriminate.
  2:{ destruct name; discriminate. }
  rewrite <- Hd.
  assert (Hj : lit "gallery" ++ CHAR_FORWARD_SLASH :: lit "thumbs"
               ++ CHAR_FORWARD_SLASH :: d ++ CHAR_FORWARD_SLASH
               :: name ++ lit ".jpg"
               = joinSlash ([lit "gallery"; lit "thumbs"]
                            ++ (seg :: segs) ++ [name ++ lit ".jpg"])).
  { rewrite joinSlash_app by discriminate.
    rewrite (joinSlash_app (seg :: segs)) by discriminate.
    reflexivity. }
  subst d. rewrite Hj, normalize_plain.
  2: discriminate.
  2:{ rewrite !forallb_app, Hplain. cbn [forallb].
      rewrite plainSegment_jpg by assumption. reflexivity. }
  rewrite <- Hj.
  rewrite replaceAllChar_absent; [reflexivity|].
  change (noBackslash (lit "/" ++ lit "gallery" ++ CHAR_FORWARD_SLASH
                       :: lit "thumbs" ++ CHAR_FORWARD_SLASH
                       :: joinSlash (seg :: segs) ++ CHAR_FORWARD_SLASH
                       :: name ++ lit ".jpg") = true).
  rewrite <- Hd in Hd_nb.
  change (lit "/" ++ lit "gallery" ++ CHAR_FORWARD_SLASH
          :: lit "thumbs" ++ CHAR_FORWARD_SLASH
          :: joinSlash (seg :: segs) ++ CHAR_FORWARD_SLASH
          :: name ++ lit ".jpg")
    with (lit "/gallery/thumbs/" ++ joinSlash (seg :: segs)
          ++ lit "/" ++ name ++ lit ".jpg").
  rewrite !noBackslash_app, Hd_nb, Hn2. reflexivity.
Qed.

(* ================================================================== *)
(** ** Identifiers *)

Module id_facts.
Import IdSpec.

Lemma replaceAllChar_one (c r : N) (s : jsstring) :
  replaceAllChar c [r] s = List.map (fun d => if N.eqb d c then r else d) s.
Proof.
  induction s as [|d s IH]; [reflexivity|].
  simpl. rewrite IH. now destruct (N.eqb d c).
Qed.

Lemma replaceSeparators_eq (s : jsstring) :
  replaceAllChar CHAR_DOT (lit "-")
    (replaceAllChar CHAR_FORWARD_SLASH (lit "-") s)
  = replaceSeparators s.
Proof.
  change (lit "-") with [CHAR_HYPHEN]. rewrite !replaceAllChar_one.
  unfold replaceSeparators. rewrite map_map. apply map_ext. intros c.
  destruct (N.eqb c CHAR_FORWARD_SLASH) eqn:H1; [reflexivity|].
  reflexivity.
Qed.

Lemma stripOutside_fuel (fuel : nat) (b : bool) (s : jsstring) :
  (List.length s <= fuel)%nat ->
  replaceAllRe_from reNotIdChar [] fuel b s = stripOutside s.
Proof.
  revert b s; induction fuel as [|fuel IH]; intros b s Hlen.
  - destruct s; [reflexivity|simpl in Hlen; lia].
  - destruct s as [|c s]; [reflexivity|].
    simpl in Hlen. cbn [replaceAllRe_from reNotIdChar stripOutside filter].
    destruct (idChar c).
    + f_equal. apply IH. lia.
    + simpl. apply IH. lia.
Qed.

Lemma stripOutside_eq (s : jsstring) :
  replaceAllRe reNotIdChar [] s = stripOutside s.
Proof. apply stripOutside_fuel. lia. Qed.

Lemma collapseRuns_run (s : jsstring) :
  collapseRuns (CHAR_HYPHEN :: s)
  = CHAR_HYPHEN :: collapseRuns (skipn (hyphens s) s).
Proof.
  induction s as [|d s IH]; [reflexivity|].
  cbn [hyphens]. destruct (N.eqb d CHAR_HYPHEN) eqn:Hd.
  - apply N.eqb_eq in Hd. subst d. cbn [skipn].
    rewrite <- IH. cbn [collapseRuns]. rewrite !N.eqb_refl. reflexivity.
  - cbn [skipn]. cbn [collapseRuns]. rewrite N.eqb_refl, Hd. reflexivity.
Qed.

Lemma collapseRuns_fuel (fuel : nat) (b : bool) (s : jsstring) :
  (List.length s <= fuel)%nat ->
  replaceAllRe_from reHyphens (lit "-") fuel b s = collapseRuns s.
Proof.
  revert b s; induction fuel as [|fuel IH]; intros b s Hlen.
  - destruct s; [reflexivity|simpl in Hlen; lia].
  - destruct s as [|c s]; [reflexivity|].
    simpl in Hlen. cbn [replaceAllRe_from]. unfold reHyphens. cbn [hyphens].
    destruct (N.eqb c CHAR_HYPHEN) eqn:Hc.
    + apply N.eqb_eq in Hc. subst c. rewrite collapseRuns_run.
      change (lit "-" ++ ?x) with (CHAR_HYPHEN :: x). f_equal.
      apply IH. rewrite length_skipn. lia.
    + cbn [collapseRuns]. rewrite Hc. f_equal. apply IH. lia.
Qed.

Lemma collapseRuns_eq (s : jsstring) :
  replaceAllRe reHyphens (lit "-") s = collapseRuns s.
Proof. apply collapseRuns_fuel. lia. Qed.

(** What [/^-|-$/g] removes: one hyphen at the start, one at the end. *)
Definition dropFirstHyphen (s : jsstring) : jsstring :=
  match s with
  | c :: s' => if N.eqb c CHAR_HYPHEN then s' else s
  | [] => []
  end.

Fixpoint dropLastHyphen (s : jsstring) : jsstring :=
  match s with
  | [] => []
  | [c] => if N.eqb c CHAR_HYPHEN then [] else [c]
  | c :: s' => c :: dropLastHyphen s'
  end.

Lemma dropLastHyphen_fuel (fuel : nat) (s : jsstring) :
  (List.length s <= fuel)%nat ->
  replaceAllRe_from reEdgeHyphen [] fuel false s = dropLastHyphen s.
Proof.
  revert s; induction fuel as [|fuel IH]; intros s Hlen.
  - destruct s; [reflexivity|simpl in Hlen; lia].
  - destruct s as [|c s]; [reflexivity|].
    simpl in Hlen. cbn [replaceAllRe_from reEdgeHyphen orb].
    destruct s as [|c2 s'].
    + rewrite andb_true_r. cbn [dropLastHyphen].
      destruct (N.eqb c CHAR_HYPHEN); simpl; destruct fuel; reflexivity.
    + rewrite andb_false_r. cbn [dropLastHyphen]. f_equal. apply IH. lia.
Qed.

Lemma edgeHyphens_eq (s : jsstring) :
  replaceAllRe reEdgeHyphen [] s = dropLastHyphen (dropFirstHyphen s).
Proof.
  unfold replaceAllRe. destruct s as [|c s]; [reflexivity|].
  cbn [List.length replaceAllRe_from reEdgeHyphen orb dropFirstHyphen].
  rewrite andb_true_r. destruct (N.eqb c CHAR_HYPHEN) eqn:E.
  - simpl. apply dropLastHyphen_fuel. lia.
  - rewrite dropLastHyphen_fuel by lia.
    destruct s; [|reflexivity].
    simpl. now rewrite E.
Qed.

(** No two hyphens in a row. *)
Fixpoint noDouble (s : jsstring) : bool :=
  match s with
  | c :: s' =>
      match s' with
      | d :: _ => negb (N.eqb c CHAR_HYPHEN && N.eqb d CHAR_HYPHEN)
                  && noDouble s'
      | [] => true
      end
  | [] => true
  end.

Lemma noDouble_tail (c : N) (s : jsstring) :
  noDouble (c :: s) = true -> noDouble s = true.
Proof.
  destruct s as [|d s]; [reflexivity|]. cbn [noDouble]. intros H.
  now apply andb_true_iff in H as [_ H].
Qed.

Lemma collapseRuns_head (s : jsstring) (c : N) :
  N.eqb c CHAR_HYPHEN = false ->
  hd c (collapseRuns s) = hd c s.
Proof.
  intros Hc. induction s as [|d s IH]; [reflexivity|].
  cbn [collapseRuns]. destruct (N.eqb d CHAR_HYPHEN) eqn:Hd; [|reflexivity].
  destruct s as [|d2 s']; [reflexivity|].
  destruct (N.eqb d2 CHAR_HYPHEN) eqn:Hd2; [|reflexivity].
  rewrite IH. simpl. apply N.eqb_eq in Hd, Hd2. congruence.
Qed.

Lemma noDouble_collapseRuns (s : jsstring) : noDouble (collapseRuns s) = true.
Proof.
  induction s as [|c s IH]; [reflexivity|].
  cbn [collapseRuns].
  assert (G : forall x, N.eqb x CHAR_HYPHEN
                        && N.eqb (hd 0%N (collapseRuns s)) CHAR_HYPHEN = false ->
                        noDouble (x :: collapseRuns s) = true).
  { intros x Hx. cbn [noDouble]. destruct (collapseRuns s) as [|d t] eqn:E;
      [reflexivity|]. simpl hd in Hx. now rewrite Hx, IH. }
  destruct (N.eqb c CHAR_HYPHEN) eqn:Hc.
  - destruct s as [|d s']; [reflexivity|].
    destruct (N.eqb d CHAR_HYPHEN) eqn:Hd; [exact IH|].
    apply G. rewrite Hc. cbn [andb collapseRuns]. rewrite Hd. exact Hd.
  - apply G. now rewrite Hc.
Qed.

Lemma trimLeading_noDouble (s : jsstring) :
  noDouble s = true -> trimLeading s = dropFirstHyphen s.
Proof.
  destruct s as [|c s]; [reflexivity|]. cbn [trimLeading dropFirstHyphen].
  destruct (N.eqb c CHAR_HYPHEN) eqn:Hc; [|reflexivity].
  destruct s as [|d s]; [reflexivity|]. cbn [noDouble]. rewrite Hc. simpl.
  intros H. apply andb_true_iff in H as [H _]. apply negb_true_iff in H.
  now rewrite H.
Qed.

Lemma noDouble_dropFirstHyphen (s : jsstring) :
  noDouble s = true -> noDouble (dropFirstHyphen s) = true.
Proof.
  destruct s as [|c s]; [reflexivity|]. cbn [dropFirstHyphen].
  destruct (N.eqb c CHAR_HYPHEN); [apply noDouble_tail|trivial].
Qed.

Lemma dropLastHyphen_snoc (s : jsstring) (c : N) :
  dropLastHyphen (s ++ [c]) = if N.eqb c CHAR_HYPHEN then s else s ++ [c].
Proof.
  induction s as [|x s IH]; [reflexivity|].
  simpl app. destruct (s ++ [c]) as [|y t] eqn:E.
  { destruct s; discriminate. }
  change (dropLastHyphen (x :: y :: t)) with (x :: dropLastHyphen (y :: t)).
  rewrite IH. now destruct (N.eqb c CHAR_HYPHEN).
Qed.

Lemma noDouble_snoc (s : jsstring) (d c : N) :
  noDouble (s ++ [d; c]) = true ->
  N.eqb d CHAR_HYPHEN && N.eqb c CHAR_HYPHEN = false.
Proof.
  induction s as [|x s IH].
  - cbn [app noDouble]. intros H. apply andb_true_iff in H as [H _].
    now apply negb_true_iff in H.
  - intros H. apply IH. exact (noDouble_tail _ _ H).
Qed.

Lemma noDouble_init (s : jsstring) (c : N) :
  noDouble (s ++ [c]) = true -> noDouble s = true.
Proof.
  induction s as [|x s IH]; [reflexivity|].
  simpl app. intros H. pose proof (noDouble_tail _ _ H) as Ht.
  destruct s as [|y t]; [reflexivity|].
  cbn [noDouble]. simpl app in H. cbn [noDouble] in H.
  apply andb_true_iff in H as [H _]. rewrite H. now apply IH.
Qed.

Lemma snoc_cases (s : jsstring) : s = [] \/ exists s' c, s = s' ++ [c].
Proof.
  destruct s as [|x s]; [now left|]. right.
  destruct (@exists_last _ (x :: s)) as (s' & c & H); [discriminate|].
  now exists s', c.
Qed.

(** On a string without a double hyphen, trimming the hyphens at the end
    removes at most one. *)
Lemma trimTrailing_noDouble (s : jsstring) :
  noDouble s = true -> rev (trimLeading (rev s)) = dropLastHyphen s.
Proof.
  intros H. destruct (snoc_cases s) as [-> | (s' & c & ->)]; [reflexivity|].
  rewrite dropLastHyphen_snoc, rev_app_distr. cbn [rev app trimLeading].
  destruct (N.eqb c CHAR_HYPHEN) eqn:Hc.
  - destruct (snoc_cases s') as [-> | (s'' & d & ->)]; [reflexivity|].
    rewrite <- app_assoc in H. cbn [app] in H.
    apply noDouble_snoc in H. rewrite Hc, andb_true_r in H.
    rewrite rev_app_distr. cbn [rev app trimLeading]. rewrite H.
    change (d :: rev s'') with (rev [d] ++ rev s'').
    now rewrite <- rev_app_distr, rev_involutive.
  - change (c :: rev s') with (rev [c] ++ rev s').
    now rewrite <- rev_app_distr, rev_involutive.
Qed.

Lemma trimHyphens_noDouble (s : jsstring) :
  noDouble s = true ->
  trimHyphens s = dropLastHyphen (dropFirstHyphen s).
Proof.
  intros H. unfold trimHyphens. rewrite (trimLeading_noDouble s H).
  apply trimTrailing_noDouble. now apply noDouble_dropFirstHyphen.
Qed.

(** The script's chain of replacements is the derivation the
    specification words. *)
Lemma stableIdFromSrc_deriveId (E : Env) (source : jsstring) :
  stableIdFromSrc E (VStr source) = deriveId E source.
Proof.
  unfold stableIdFromSrc, deriveId.
  rewrite replaceSeparators_eq, stripOutside_eq, collapseRuns_eq,
    edgeHyphens_eq.
  symmetry. apply trimHyphens_noDouble, noDouble_collapseRuns.
Qed.

Lemma stableIdFromSrc_shape (E : Env) (source : value) :
  exists x,
    stableIdFromSrc E source
    = dropLastHyphen (dropFirstHyphen (collapseRuns (stripOutside x))).
Proof.
  unfold stableIdFromSrc.
  rewrite replaceSeparators_eq, stripOutside_eq, collapseRuns_eq,
    edgeHyphens_eq.
  eexists. reflexivity.
Qed.

Lemma In_collapseRuns (c : N) (s : jsstring) :
  In c (collapseRuns s) -> In c s.
Proof.
  induction s as [|d s IH]; [trivial|]. cbn [collapseRuns].
  destruct (N.eqb d CHAR_HYPHEN).
  - destruct s as [|d2 s']; [trivial|].
    destruct (N.eqb d2 CHAR_HYPHEN).
    + intros H. right. now apply IH.
    + intros [H|H]; [now left|right; now apply IH].
  - intros [H|H]; [now left|right; now apply IH].
Qed.

Lemma In_dropFirstHyphen (c : N) (s : jsstring) :
  In c (dropFirstHyphen s) -> In c s.
Proof.
  destruct s as [|d s]; [trivial|]. cbn [dropFirstHyphen].
  destruct (N.eqb d CHAR_HYPHEN); [now right|trivial].
Qed.

Lemma In_dropLastHyphen (c : N) (s : jsstring) :
  In c (dropLastHyphen s) -> In c s.
Proof.
  destruct (snoc_cases s) as [-> | (s' & d & ->)]; [trivial|].
  rewrite dropLastHyphen_snoc. destruct (N.eqb d CHAR_HYPHEN); [|trivial].
  intros H. apply in_or_app. now left.
Qed.

Lemma noDouble_dropLastHyphen (s : jsstring) :
  noDouble s = true -> noDouble (dropLastHyphen s) = true.
Proof.
  destruct (snoc_cases s) as [-> | (s' & d & ->)]; [trivial|].
  rewrite dropLastHyphen_snoc. destruct (N.eqb d CHAR_HYPHEN); [|trivial].
  apply noDouble_init.
Qed.

Lemma noDouble_pair (a b : jsstring) :
  noDouble (a ++ CHAR_HYPHEN :: CHAR_HYPHEN :: b) = false.
Proof.
  induction a as [|x a IH]; [reflexivity|].
  simpl app. destruct (a ++ CHAR_HYPHEN :: CHAR_HYPHEN :: b) eqn:E.
  { destruct a; discriminate. }
  cbn [noDouble]. cbn [noDouble] in IH. rewrite IH. apply andb_false_r.
Qed.

Lemma dropFirstHyphen_head (s b : jsstring) :
  noDouble s = true -> dropFirstHyphen s <> CHAR_HYPHEN :: b.
Proof.
  destruct s as [|c s]; [discriminate|]. cbn [dropFirstHyphen].
  destruct (N.eqb c CHAR_HYPHEN) eqn:Hc.
  - intros H ->. cbn [noDouble] in H. rewrite Hc in H. discriminate.
  - intros _ H. injection H as -> _. discriminate.
Qed.

Lemma dropLastHyphen_head (s b : jsstring) :
  (forall b', s <> CHAR_HYPHEN :: b') ->
  dropLastHyphen s <> CHAR_HYPHEN :: b.
Proof.
  intros Hs. destruct s as [|c [|d s]].
  - discriminate.
  - cbn [dropLastHyphen]. destruct (N.eqb c CHAR_HYPHEN) eqn:Hc; [discriminate|].
    intros H. injection H as ->. discriminate.
  - change (dropLastHyphen (c :: d :: s)) with (c :: dropLastHyphen (d :: s)).
    intros H. injection H as -> _. now apply (Hs (d :: s)).
Qed.

Lemma dropLastHyphen_last (s a : jsstring) :
  noDouble s = true -> dropLastHyphen s <> a ++ [CHAR_HYPHEN].
Proof.
  intros Hs. destruct (snoc_cases s) as [-> | (s' & d & ->)].
  - destruct a; discriminate.
  - rewrite dropLastHyphen_snoc. destruct (N.eqb d CHAR_HYPHEN) eqn:Hd.
    + intros ->. rewrite <- app_assoc in Hs. cbn [app] in Hs.
      apply noDouble_snoc in Hs. rewrite Hd in Hs. discriminate.
    + intros H. apply app_inj_tail in H as [_ ->]. discriminate.
Qed.

End id_facts.

(* ================================================================== *)
(** ** The run: what the loop does to the history and to the manifest *)

Module run_facts.

Lemma bind_ok_inv {A B} (m : M A) (k : A -> M B) (h h' : history) (b : B) :
  bind m k h = (Ok b, h') ->
  exists a h1, m h = (Ok a, h1) /\ k a h1 = (Ok b, h').
Proof.
  unfold bind. destruct (m h) as [[a|e] h1]; intros H.
  - now exists a, h1.
  - discriminate.
Qed.

Lemma bind_err_inv {A B} (m : M A) (k : A -> M B) (h h' : history) (e : error) :
  bind m k h = (Err e, h') ->
  m h = (Err e, h') \/
  exists a h1, m h = (Ok a, h1) /\ k a h1 = (Err e, h').
Proof.
  unfold bind. destruct (m h) as [[a|e0] h1]; intros H.
  - right. now exists a, h1.
  - left. injection H as -> ->. reflexivity.
Qed.

(** An event of the work on thumbnails: a directory made, or a thumbnail
    written somewhere else than over the manifest.  Never a [WriteFile]. *)
Definition thumbEvent (E : Env) (ev : event) : Prop :=
  match ev with
  | Mkdir _ => True
  | ToFile _ dest _ _ => dest <> MANIFEST_JSON E
  | WriteFile _ _ => False
  end.

(** A computation that only adds thumbnail events to the history and does
    not fail as the manifest write does. *)
Definition quiet (E : Env) {A} (m : M A) : Prop :=
  forall h r h', m h = (r, h') ->
    (exists evs, h' = h ++ evs /\ Forall (thumbEvent E) evs)
    /\ r <> Err ManifestWriteFailure.

Lemma quiet_ret (E : Env) {A} (a : A) : quiet E (ret a).
Proof.
  intros h r h' H. injection H as <- <-. split; [|discriminate].
  exists []. now rewrite app_nil_r.
Qed.

Lemma quiet_throw (E : Env) {A} (e : error) :
  e <> ManifestWriteFailure -> quiet E (@throw A e).
Proof.
  intros He h r h' H. injection H as <- <-. split; [|congruence].
  exists []. now rewrite app_nil_r.
Qed.

Lemma quiet_ask (E : Env) {A} (f : history -> A) : quiet E (ask f).
Proof.
  intros h r h' H. injection H as <- <-. split; [|discriminate].
  exists []. now rewrite app_nil_r.
Qed.

Lemma quiet_effect (E : Env) (ev : event) (ok : history -> bool) (e : error) :
  thumbEvent E ev -> e <> ManifestWriteFailure -> quiet E (effect ev ok e).
Proof.
  intros Hev He h r h' H. unfold effect in H. injection H as <- <-. split.
  - exists [ev]. split; [reflexivity|]. now constructor.
  - destruct (ok h); congruence.
Qed.

Lemma quiet_bind (E : Env) {A B} (m : M A) (k : A -> M B) :
  quiet E m -> (forall a, quiet E (k a)) -> quiet E (bind m k).
Proof.
  intros Hm Hk h r h' H. unfold bind in H.
  destruct (m h) as [[a|e] h1] eqn:Em.
  - destruct (Hm _ _ _ Em) as [(evs1 & -> & F1) _].
    destruct (Hk a _ _ _ H) as [(evs2 & -> & F2) Hr]. split; [|exact Hr].
    exists (evs1 ++ evs2). rewrite app_assoc. split; [reflexivity|].
    apply Forall_app. now split.
  - injection H as <- <-. destruct (Hm _ _ _ Em) as [Hev Hr].
    split; [exact Hev|]. intros Heq. apply Hr. congruence.
Qed.

Lemma quiet_textField (E : Env) (idx : nat) (item : value) (k : string) :
  quiet E (textField E idx item k).
Proof.
  unfold textField. destruct (toJsString _ _).
  - apply quiet_ret.
  - apply quiet_throw. discriminate.
Qed.

Lemma quiet_processItem (E : Env) (idx : nat) (item : value) :
  quiet E (processItem E idx item).
Proof.
  unfold processItem.
  repeat (apply quiet_bind; [try apply quiet_textField|intros ?]).
  - destruct (negb _); [apply quiet_throw; discriminate|apply quiet_ret].
  - apply quiet_ask.
  - destruct a4 as [st|]; [destruct (isFile st)|];
      (apply quiet_ret || (apply quiet_throw; discriminate)).
  - apply quiet_effect; [exact I|discriminate].
  - apply quiet_ask.
  - apply quiet_ask.
  - intros h r h' H. destruct (metadata E h _); injection H as <- <-;
      (split; [exists []; now rewrite app_nil_r|discriminate]).
  - destruct (_ || _); [apply quiet_throw; discriminate|apply quiet_ret].
  - destruct (shouldGenerate _ _); [|apply quiet_ret].
    apply quiet_effect; [|discriminate].
    apply thumbPath_not_manifest.
  - apply quiet_ret.
Qed.

Lemma quiet_processAll (E : Env) (items : list value) :
  forall idx photos, quiet E (processAll E idx items photos).
Proof.
  induction items as [|item rest IH]; intros idx photos; cbn [processAll].
  - apply quiet_ret.
  - apply quiet_bind; [apply quiet_processItem|intros photo; apply IH].
Qed.

(** [String(item?.k ?? "").trim()] as a value, when the conversion does not
    throw. *)
Definition textOf (E : Env) (item : value) (k : string) : option jsstring :=
  option_map trim
    (toJsString E.(numberToString) (nullish (optProp item (lit k)) (VStr []))).

(** [photo] is the manifest entry of the descriptor [item]. *)
Definition resolves (E : Env) (item : value) (photo : GalleryPhoto) : Prop :=
  photo.(src) = normalizeUrlPath (nullish (optProp item (lit "src")) (VStr []))
  /\ photo.(id) = stableIdFromSrc E (VStr photo.(src))
  /\ photo.(thumbSrc) = toThumbUrl (VStr photo.(src))
  /\ textOf E item "title" = Some photo.(title)
  /\ textOf E item "shotUsing" = Some photo.(shotUsing)
  /\ textOf E item "location" = Some photo.(location)
  /\ textOf E item "description" = Some photo.(description)
  /\ photo.(width) <> 0 /\ photo.(height) <> 0
  /\ photo.(thumbWidth) = thumbWidthOf photo.(width)
  /\ photo.(thumbHeight) = thumbHeightOf photo.(width) photo.(height).

Lemma textField_ok (E : Env) (idx : nat) (item : value) (k : string)
      (h h' : history) (t : jsstring) :
  textField E idx item k h = (Ok t, h') -> textOf E item k = Some t.
Proof.
  unfold textField, textOf. destruct (toJsString _ _); intros H.
  - injection H as <- _. reflexivity.
  - discriminate.
Qed.

Lemma processItem_ok (E : Env) (idx : nat) (item : value) (h h' : history)
      (photo : GalleryPhoto) :
  processItem E idx item h = (Ok photo, h') -> resolves E item photo.
Proof.
  unfold processItem. intros H.
  apply bind_ok_inv in H as (t1 & h1 & H1 & H). apply textField_ok in H1.
  apply bind_ok_inv in H as (t2 & h2 & H2 & H). apply textField_ok in H2.
  apply bind_ok_inv in H as (t3 & h3 & H3 & H). apply textField_ok in H3.
  apply bind_ok_inv in H as (t4 & h4 & H4 & H). apply textField_ok in H4.
  apply bind_ok_inv in H as (? & ? & _ & H).
  apply bind_ok_inv in H as (? & ? & _ & H).
  apply bind_ok_inv in H as (? & ? & _ & H).
  apply bind_ok_inv in H as (? & ? & _ & H).
  apply bind_ok_inv in H as (? & ? & _ & H).
  apply bind_ok_inv in H as (? & ? & _ & H).
  apply bind_ok_inv in H as (meta & ? & _ & H).
  apply bind_ok_inv in H as (? & ? & Hdim & H).
  apply bind_ok_inv in H as (? & ? & _ & H).
  injection H as <- _. unfold resolves. cbn.
  repeat split; try assumption; try reflexivity.
  - intros Hw. rewrite Hw in Hdim. simpl in Hdim. discriminate.
  - intros Hh. rewrite Hh, orb_true_r in Hdim. discriminate.
Qed.

Lemma processAll_ok (E : Env) (items : list value) :
  forall idx photos h ps h',
    processAll E idx items photos h = (Ok ps, h') ->
    exists qs, ps = photos ++ qs /\ Forall2 (resolves E) items qs.
Proof.
  induction items as [|item rest IH]; intros idx photos h ps h' H;
    cbn [processAll] in H.
  - injection H as <- _. exists []. split; [now rewrite app_nil_r|constructor].
  - apply bind_ok_inv in H as (photo & h1 & H1 & H).
    apply processItem_ok in H1.
    apply IH in H as (qs & -> & F). exists (photo :: qs). split.
    + now rewrite <- app_assoc.
    + now constructor.
Qed.

(** A failure of the loop is the failure of one entry, met after all the
    entries before it were resolved; nothing is done after it. *)
Lemma processAll_first_failure (E : Env) (pre post : list value) (item : value) :
  forall idx photos h ps h1 e h2,
    processAll E idx pre photos h = (Ok ps, h1) ->
    processItem E (idx + List.length pre) item h1 = (Err e, h2) ->
    processAll E idx (pre ++ item :: post) photos h = (Err e, h2).
Proof.
  induction pre as [|x pre IH]; intros idx photos h ps h1 e h2 Hpre Hitem.
  - cbn [processAll] in Hpre. injection Hpre as <- <-.
    simpl in Hitem. rewrite Nat.add_0_r in Hitem.
    simpl app. cbn [processAll]. unfold bind. now rewrite Hitem.
  - simpl app. cbn [processAll] in *. unfold bind in *.
    destruct (processItem E idx x h) as [[photo|e0] hx]; [|discriminate].
    apply (IH (S idx) _ _ ps h1); [exact Hpre|].
    simpl List.length in Hitem. now rewrite Nat.add_succ_comm.
Qed.

(** The events of a whole run. *)
Lemma main_events (E : Env) (r : result unit) (h : history) :
  main E [] = (r, h) ->
  (r <> Err ManifestWriteFailure /\ Forall (thumbEvent E) h)
  \/ (exists parsed pre m,
        E.(readSource) = Some (VArr parsed)
        /\ h = pre ++ [WriteFile (MANIFEST_JSON E) m]
        /\ Forall (thumbEvent E) pre
        /\ Forall2 (resolves E) parsed m.(photos)
        /\ m.(thumb) = mkThumb THUMB_WIDTH THUMB_QUALITY (lit "jpeg")
        /\ r = if E.(writeFileOk) pre (MANIFEST_JSON E) m
               then Ok tt else Err ManifestWriteFailure).
Proof.
  unfold main. destruct (readSource E) as [[| | | | |parsed|]|] eqn:Hr;
    try (intros H; injection H as <- <-; left; split;
         [discriminate|constructor]).
  intros H. unfold bind at 1 in H. unfold effect at 1 in H.
  destruct (mkdirOk E [] (GENERATED_DIR E)).
  2:{ injection H as <- <-. left. split; [discriminate|].
      repeat constructor. }
  unfold bind at 1 in H. unfold effect at 1 in H.
  destruct (mkdirOk E _ (THUMBS_PUBLIC_DIR E)).
  2:{ injection H as <- <-. left. split; [discriminate|].
      repeat constructor. }
  unfold bind at 1 in H.
  destruct (processAll E 0 parsed [] _) as [[ps|e] h1] eqn:Hall.
  - destruct (quiet_processAll E parsed 0 [] _ _ _ Hall) as [(evs & -> & F) _].
    apply processAll_ok in Hall as (qs & -> & F2). simpl app in *.
    unfold bind, ask, effect in H. injection H as <- <-.
    right.
    exists parsed, (Mkdir (GENERATED_DIR E) :: Mkdir (THUMBS_PUBLIC_DIR E) :: evs).
    eexists.
    split; [reflexivity|]. split; [reflexivity|].
    split; [repeat constructor; exact F|].
    split; [exact F2|]. split; reflexivity.
  - destruct (quiet_processAll E parsed 0 [] _ _ _ Hall) as [(evs & -> & F) He].
    injection H as <- <-. left. split.
    + intros Heq. apply He. congruence.
    + repeat constructor. exact F.
Qed.

End run_facts.

(* ================================================================== *)
(** ** Numbers: comparisons of doubles *)

Module float_facts.

Lemma SFcompare_refl_not_Lt (x : spec_float) : SFltb x x = false.
Proof.
  unfold SFltb. destruct x as [s|s| |s m e]; try destruct s; simpl;
    try reflexivity; rewrite Z.compare_refl, Pos.compare_cont_refl;
    reflexivity.
Qed.

Lemma ltb_irrefl (x : float) : (x <? x)%float = false.
Proof. rewrite ltb_spec. apply SFcompare_refl_not_Lt. Qed.

(** A double that is at least zero is not below zero. *)
Lemma nonneg_not_below_zero (t : float) :
  (0 <=? t)%float = true -> (t <? 0)%float = false.
Proof.
  rewrite leb_spec, ltb_spec.
  change (Prim2SF 0) with (S754_zero false).
  unfold SFleb, SFltb.
  destruct (Prim2SF t) as [s|s| |s m e]; try destruct s; simpl;
    intros H; try discriminate; reflexivity.
Qed.

End float_facts.

(* ================================================================== *)
(** ** Numbers: the rounding of the division and of the product

    [Prim2SF] maps a double to its sign, mantissa and exponent, and the
    operations on doubles are specified on these by [SFdiv] and [SFmul],
    which divide or multiply the mantissas exactly and round the result to
    53 bits, to nearest, ties to even.  What follows is the error of those
    roundings for the operands the script has: integers below [2^32]. *)

Module binary64_facts.

(** *** The number of digits of a mantissa *)

Lemma digits2_pos_bounds (p : positive) :
  2 ^ (Z.pos (digits2_pos p) - 1) <= Z.pos p < 2 ^ Z.pos (digits2_pos p).
Proof.
  induction p as [p IH|p IH|]; cbn [digits2_pos].
  - rewrite Pos2Z.inj_succ. replace (Z.succ (Z.pos (digits2_pos p)) - 1)
      with (Z.succ (Z.pos (digits2_pos p) - 1)) by lia.
    rewrite !Z.pow_succ_r by lia. lia.
  - rewrite Pos2Z.inj_succ. replace (Z.succ (Z.pos (digits2_pos p)) - 1)
      with (Z.succ (Z.pos (digits2_pos p) - 1)) by lia.
    rewrite !Z.pow_succ_r by lia. lia.
  - simpl. lia.
Qed.

Lemma digits2_pos_unique (p : positive) (d : Z) :
  2 ^ (d - 1) <= Z.pos p < 2 ^ d -> Z.pos (digits2_pos p) = d.
Proof.
  intros [Hlo Hhi]. pose proof (digits2_pos_bounds p) as [Blo Bhi].
  set (d' := Z.pos (digits2_pos p)) in *.
  assert (Hd : 0 < d).
  { destruct (Z_lt_le_dec 0 d) as [H|H]; [exact H|exfalso].
    destruct (Z.eq_dec d 0) as [->|Hz]; [simpl in Hhi; lia|].
    rewrite Z.pow_neg_r in Hhi by lia. lia. }
  destruct (Z_lt_le_dec d d') as [H|H].
  - assert (2 ^ d <= 2 ^ (d' - 1)) by (apply Z.pow_le_mono_r; lia). lia.
  - destruct (Z_lt_le_dec d' d) as [H'|H']; [|lia].
    assert (2 ^ d' <= 2 ^ (d - 1)) by (apply Z.pow_le_mono_r; lia). lia.
Qed.

(** *** Shifting right with a round bit and a sticky bit

    [located mrs N D]: the mantissa [shr_m mrs], with its round and sticky
    bits, places the exact value [N / D]. *)
Definition located (mrs : shr_record) (N D : Z) : Prop :=
  0 < D /\ 0 <= shr_m mrs /\
  match shr_r mrs, shr_s mrs with
  | false, false => N = shr_m mrs * D
  | false, true => shr_m mrs * D < N /\ 2 * N < (2 * shr_m mrs + 1) * D
  | true, false => 2 * N = (2 * shr_m mrs + 1) * D
  | true, true => (2 * shr_m mrs + 1) * D < 2 * N /\ N < (shr_m mrs + 1) * D
  end.

Lemma located_bounds (mrs : shr_record) (N D : Z) :
  located mrs N D -> shr_m mrs * D <= N < (shr_m mrs + 1) * D.
Proof.
  intros (HD & Hm & H). destruct (shr_r mrs), (shr_s mrs); nia.
Qed.

Lemma shr_1_located (mrs : shr_record) (N D : Z) :
  located mrs N D -> located (shr_1 mrs) N (2 * D).
Proof.
  destruct mrs as [m r s]. unfold located. cbn [shr_m shr_r shr_s].
  intros (HD & Hm & H).
  destruct m as [|[p|p|]|p]; try lia;
    destruct r, s; cbn [shr_1 shr_m shr_r shr_s orb];
    repeat split; try lia; try nia.
Qed.

Lemma iter_shr_1_located (n : positive) :
  forall mrs N D, located mrs N D ->
                  located (iter_pos shr_1 n mrs) N (2 ^ Z.pos n * D).
Proof.
  induction n as [n IH|n IH|]; intros mrs N D H; cbn [iter_pos].
  - apply shr_1_located, IH, IH in H.
    replace (2 ^ Z.pos n~1 * D) with (2 ^ Z.pos n * (2 ^ Z.pos n * (2 * D)));
      [exact H|].
    replace (Z.pos n~1) with (Z.pos n + Z.pos n + 1) by lia.
    rewrite !Z.pow_add_r by lia. change (2 ^ 1) with 2. ring.
  - apply IH, IH in H.
    replace (2 ^ Z.pos n~0 * D) with (2 ^ Z.pos n * (2 ^ Z.pos n * D));
      [exact H|].
    replace (Z.pos n~0) with (Z.pos n + Z.pos n) by lia.
    rewrite Z.pow_add_r by lia. ring.
  - apply shr_1_located in H. exact H.
Qed.

(** *** Rounding a located value to 53 bits *)

Lemma fexp_normal (e : Z) : -1074 <= e - 53 -> fexp prec emax e = e - 53.
Proof. cbv [fexp SpecFloat.emin prec emax]. lia. Qed.

Lemma shr_m_of_loc (m : Z) (l : SpecFloat.location) : shr_m (shr_record_of_loc m l) = m.
Proof. destruct l as [|[]]; reflexivity. Qed.

Lemma Zdigits2_bounds (m : Z) :
  0 < m -> 2 ^ (Zdigits2 m - 1) <= m < 2 ^ Zdigits2 m.
Proof.
  destruct m as [|p|p]; try lia. intros _. apply digits2_pos_bounds.
Qed.

Lemma mul_lt_cancel (a b D : Z) : 0 < D -> a * D < b * D -> a < b.
Proof. intros HD H. nia. Qed.

Lemma shr_fexp_spec (m e : Z) (l : SpecFloat.location) (N D : Z) :
  0 < m -> 53 <= Zdigits2 m -> -1074 <= Zdigits2 m + e - 53 ->
  located (shr_record_of_loc m l) N D ->
  exists mrs,
    shr_fexp prec emax m e l = (mrs, e + (Zdigits2 m - 53))
    /\ located mrs N (2 ^ (Zdigits2 m - 53) * D)
    /\ 2 ^ 52 <= shr_m mrs < 2 ^ 53.
Proof.
  intros Hm Hd Hnorm Hloc. unfold shr_fexp.
  rewrite fexp_normal by lia.
  replace (Zdigits2 m + e - 53 - e) with (Zdigits2 m - 53) by lia.
  pose proof (Zdigits2_bounds m Hm) as [Blo Bhi].
  pose proof (located_bounds _ _ _ Hloc) as [Llo Lhi].
  rewrite shr_m_of_loc in Llo, Lhi.
  assert (HD : 0 < D) by (destruct Hloc as [H _]; exact H).
  unfold shr. destruct (Zdigits2 m - 53) as [|p|p] eqn:Hn; [| |lia].
  - exists (shr_record_of_loc m l). rewrite Z.add_0_r.
    split; [reflexivity|]. split.
    + change (2 ^ 0) with 1. now rewrite Z.mul_1_l.
    + rewrite shr_m_of_loc. replace (Zdigits2 m) with 53 in * by lia.
      exact (conj Blo Bhi).
  - exists (iter_pos shr_1 p (shr_record_of_loc m l)).
    split; [reflexivity|].
    pose proof (iter_shr_1_located p _ _ _ Hloc) as Hit.
    split; [exact Hit|].
    pose proof (located_bounds _ _ _ Hit) as [Ilo Ihi].
    set (m' := shr_m (iter_pos shr_1 p (shr_record_of_loc m l))) in *.
    replace (Zdigits2 m) with (53 + Z.pos p) in * by lia.
    replace (53 + Z.pos p - 1) with (52 + Z.pos p) in Blo by lia.
    rewrite Z.pow_add_r in Blo, Bhi by lia.
    set (P := 2 ^ Z.pos p) in *.
    assert (HP : 0 < P) by (apply Z.pow_pos_nonneg; lia).
    assert (H1 : m' * P < m + 1).
    { apply (mul_lt_cancel _ _ D HD). nia. }
    assert (H2 : m * 1 < (m' + 1) * P).
    { apply (mul_lt_cancel _ _ D HD). nia. }
    split; nia.
Qed.

Lemma round_nearest_even_spec (mrs : shr_record) (N D : Z) :
  located mrs N D ->
  let m1 := round_nearest_even (shr_m mrs) (loc_of_shr_record mrs) in
  (m1 = shr_m mrs \/ m1 = shr_m mrs + 1)
  /\ 2 * m1 * D - 2 * N <= D /\ 2 * N - 2 * m1 * D <= D.
Proof.
  destruct mrs as [m r s]. unfold located. cbn [shr_m shr_r shr_s].
  intros (HD & Hm & H).
  destruct r, s; cbn [loc_of_shr_record round_nearest_even].
  - split; [now right|]. nia.
  - destruct (Z.even m); (split; [tauto|nia]).
  - split; [now left|]. nia.
  - split; [now left|]. nia.
Qed.

Lemma Zdigits2_ge (m d : Z) : 0 < m -> 0 <= d -> 2 ^ d <= m -> d + 1 <= Zdigits2 m.
Proof.
  intros Hm Hd H. pose proof (Zdigits2_bounds m Hm) as [_ Bhi].
  destruct (Z_lt_le_dec (Zdigits2 m) (d + 1)) as [Hlt|]; [|assumption].
  assert (0 <= Zdigits2 m) by (destruct m; simpl; lia).
  assert (2 ^ Zdigits2 m <= 2 ^ d) by (apply Z.pow_le_mono_r; lia). lia.
Qed.

Lemma Zdigits2_le (m d : Z) : 0 < m -> 0 <= d -> m < 2 ^ d -> Zdigits2 m <= d.
Proof.
  intros Hm Hd H. pose proof (Zdigits2_bounds m Hm) as [Blo _].
  destruct (Z_lt_le_dec d (Zdigits2 m)) as [Hlt|]; [|assumption].
  assert (2 ^ d <= 2 ^ (Zdigits2 m - 1)) by (apply Z.pow_le_mono_r; lia). lia.
Qed.

(** [binary_round_aux] on a positive value in the normal range: the result
    is a normal double [m' * 2^e'] whose mantissa, scaled back by [k] bits
    when the rounding carried into a 54th bit, is within half a unit of
    the exact value at the scale [2^n]. *)
Lemma binary_round_aux_spec (m e : Z) (l : SpecFloat.location) (N D : Z) :
  0 < m -> 53 <= Zdigits2 m ->
  -1074 <= Zdigits2 m + e - 53 -> Zdigits2 m + e - 53 + 1 <= 971 ->
  located (shr_record_of_loc m l) N D ->
  exists (m' : positive) (k : Z),
    binary_round_aux prec emax false m e l
    = S754_finite false m' (e + (Zdigits2 m - 53) + k)
    /\ (k = 0 \/ k = 1)
    /\ 2 ^ 52 <= Z.pos m' < 2 ^ 53
    /\ 2 * (Z.pos m' * 2 ^ k) * (2 ^ (Zdigits2 m - 53) * D) - 2 * N
       <= 2 ^ (Zdigits2 m - 53) * D
    /\ 2 * N - 2 * (Z.pos m' * 2 ^ k) * (2 ^ (Zdigits2 m - 53) * D)
       <= 2 ^ (Zdigits2 m - 53) * D.
Proof.
  intros Hm Hd Hlo Hhi Hloc. unfold binary_round_aux.
  destruct (shr_fexp_spec m e l N D Hm Hd Hlo Hloc) as (mrs & -> & Hl1 & Hb1).
  set (n := Zdigits2 m - 53) in *.
  destruct (round_nearest_even_spec _ _ _ Hl1) as (Hm1 & Hr1 & Hr2).
  set (m1 := round_nearest_even (shr_m mrs) (loc_of_shr_record mrs)) in *.
  assert (Hm1b : 2 ^ 52 <= m1 <= 2 ^ 53) by lia.
  assert (Hm1p : 0 < m1) by (change (2 ^ 52) with 4503599627370496 in Hm1b; lia).
  assert (Hd1 : 53 <= Zdigits2 m1) by (apply (Zdigits2_ge m1 52); lia).
  assert (Hd1' : Zdigits2 m1 <= 54).
  { apply Zdigits2_le; [lia|lia|]. change (2 ^ 54) with (2 * 2 ^ 53). lia. }
  assert (Hexact : located (shr_record_of_loc m1 loc_Exact) m1 1).
  { unfold located. cbn. lia. }
  destruct (shr_fexp_spec m1 (e + n) loc_Exact m1 1 Hm1p Hd1 ltac:(lia) Hexact)
    as (mrs2 & -> & Hl2 & Hb2).
  pose proof (located_bounds _ _ _ Hl2) as [L2lo L2hi].
  pose proof (Zdigits2_bounds m1 Hm1p) as [B1lo B1hi].
  set (k := Zdigits2 m1 - 53) in *.
  assert (Hk : k = 0 \/ k = 1) by lia.
  assert (Hval : shr_m mrs2 * 2 ^ k = m1).
  { destruct Hk as [Hk|Hk]; rewrite Hk in *.
    - change (2 ^ 0) with 1 in *. lia.
    - replace (Zdigits2 m1) with 54 in * by lia.
      change (2 ^ (54 - 1)) with (2 ^ 53) in B1lo.
      change (2 ^ 1) with 2 in *. lia. }
  destruct (shr_m mrs2) as [|m'|m'] eqn:Hm2;
    [change (2 ^ 52) with 4503599627370496 in Hb2; lia| |lia].
  exists m', k.
  replace (e + n + k <=? emax - prec) with true
    by (symmetry; apply Z.leb_le; cbv [emax prec]; lia).
  split; [reflexivity|]. split; [exact Hk|]. split; [exact Hb2|].
  rewrite Hval. split; assumption.
Qed.

(** *** The double of an integer below [2^53] *)

Lemma iter_xO (p k : positive) : Z.pos (Pos.iter xO p k) = Z.pos p * 2 ^ Z.pos k.
Proof.
  change (Pos.iter xO p k) with (shift_pos k p).
  rewrite shift_pos_correct, Zpower_pos_nat, Zpower_nat_Z, positive_nat_Z.
  apply Z.mul_comm.
Qed.

Lemma pow2_pos (n : Z) : 0 <= n -> 0 < 2 ^ n.
Proof. intros H. apply Z.pow_pos_nonneg; lia. Qed.

Lemma binary_normalize_spec (z : Z) :
  0 < z < 2 ^ 53 ->
  exists (m : positive) (a : Z),
    binary_normalize prec emax z 0 false = S754_finite false m (- a)
    /\ a = 53 - Zdigits2 z /\ 0 <= a <= 52
    /\ Z.pos m = z * 2 ^ a /\ 2 ^ 52 <= Z.pos m < 2 ^ 53.
Proof.
  intros [Hz0 Hz]. destruct z as [|p|p]; try lia.
  pose proof (digits2_pos_bounds p) as [Blo Bhi].
  assert (Hd : Z.pos (digits2_pos p) <= 53)
    by (apply (Zdigits2_le (Z.pos p) 53); lia).
  cbn [binary_normalize Zdigits2]. unfold binary_round.
  rewrite fexp_normal by lia. unfold shl_align.
  set (d := Z.pos (digits2_pos p)) in *.
  assert (Hmz : exists mz a, (match d + 0 - 53 - 0 with
                              | Z.neg k => (Pos.iter xO p k, d + 0 - 53)
                              | _ => (p, 0)
                              end) = (mz, - a)
                             /\ a = 53 - d /\ Z.pos mz = Z.pos p * 2 ^ a).
  { destruct (d + 0 - 53 - 0) as [|k|k] eqn:Hk; try lia.
    - exists p, 0. split; [reflexivity|]. split; [lia|]. change (2 ^ 0) with 1. lia.
    - exists (Pos.iter xO p k), (Z.pos k). split; [f_equal; lia|].
      split; [lia|]. apply iter_xO. }
  destruct Hmz as (mz & a & -> & Ha & Hmz).
  assert (Hmzb : 2 ^ 52 <= Z.pos mz < 2 ^ 53).
  { rewrite Hmz.
    assert (E52 : 2 ^ 52 = 2 ^ (d - 1) * 2 ^ a)
      by (rewrite <- Z.pow_add_r by lia; f_equal; lia).
    assert (E53 : 2 ^ 53 = 2 ^ d * 2 ^ a)
      by (rewrite <- Z.pow_add_r by lia; f_equal; lia).
    rewrite E52, E53.
    pose proof (pow2_pos a ltac:(lia)). split; nia. }
  assert (Hdz : Zdigits2 (Z.pos mz) = 53).
  { cbn [Zdigits2]. apply digits2_pos_unique. exact Hmzb. }
  assert (Hexact : located (shr_record_of_loc (Z.pos mz) loc_Exact) (Z.pos mz) 1).
  { unfold located. cbn. lia. }
  destruct (binary_round_aux_spec (Z.pos mz) (- a) loc_Exact (Z.pos mz) 1)
    as (m' & k & Heq & Hk & Hb & H1 & H2); try lia; [exact Hexact|].
  rewrite Hdz in *. change (2 ^ (53 - 53)) with 1 in *.
  assert (Hk0 : k = 0).
  { destruct Hk as [Hk|Hk]; [exact Hk|]. rewrite Hk in *.
    change (2 ^ 1) with 2 in *. lia. }
  rewrite Hk0 in *. change (2 ^ 0) with 1 in *.
  exists m', a. rewrite Heq.
  replace (- a + (53 - 53) + 0) with (- a) by lia.
  assert (Z.pos m' = Z.pos mz) by lia.
  repeat split; try lia.
Qed.

(** *** Division and multiplication of two normal doubles *)

Lemma new_location_located (D N q r : Z) :
  0 < D -> N = q * D + r -> 0 <= r < D -> 0 <= q ->
  located (shr_record_of_loc q (new_location D r)) N D.
Proof.
  intros HD HN Hr Hq. unfold new_location, new_location_even, new_location_odd.
  destruct (Z.even D) eqn:Hev.
  - destruct (Z.eqb_spec r 0) as [->|Hr0].
    + unfold located. cbn [shr_record_of_loc shr_m shr_r shr_s]. lia.
    + destruct (Z.compare_spec (2 * r) D); unfold located;
        cbn [shr_record_of_loc shr_m shr_r shr_s]; repeat split; nia.
  - assert (Hodd : exists t, D = 2 * t + 1).
    { rewrite <- Z.negb_odd in Hev. apply negb_false_iff in Hev.
      apply Z.odd_spec in Hev. exact Hev. }
    destruct Hodd as [t Ht].
    destruct (Z.eqb_spec r 0) as [->|Hr0].
    + unfold located. cbn [shr_record_of_loc shr_m shr_r shr_s]. lia.
    + destruct (Z.compare_spec (2 * r + 1) D); unfold located;
        cbn [shr_record_of_loc shr_m shr_r shr_s]; repeat split; nia.
Qed.

Lemma SF64div_spec (mx my : positive) (ex ey : Z) :
  2 ^ 52 <= Z.pos mx < 2 ^ 53 -> 2 ^ 52 <= Z.pos my < 2 ^ 53 ->
  -52 <= ex <= 0 -> -52 <= ey <= 0 ->
  exists (m : positive) (j : Z),
    SF64div (S754_finite false mx ex) (S754_finite false my ey)
    = S754_finite false m (ex - ey - 53 + j)
    /\ 0 <= j <= 2 /\ 2 ^ 52 <= Z.pos m < 2 ^ 53
    /\ 2 * (Z.pos m * 2 ^ j) * Z.pos my - 2 * (Z.pos mx * 2 ^ 53)
       <= 2 ^ j * Z.pos my
    /\ 2 * (Z.pos mx * 2 ^ 53) - 2 * (Z.pos m * 2 ^ j) * Z.pos my
       <= 2 ^ j * Z.pos my.
Proof.
  intros Hx Hy Hex Hey. unfold SF64div, SFdiv, SFdiv_core_binary.
  cbn [xorb Zdigits2].
  rewrite (digits2_pos_unique mx 53 Hx), (digits2_pos_unique my 53 Hy).
  rewrite fexp_normal by lia.
  replace (Z.min (53 + ex - (53 + ey) - 53) (ex - ey)) with (ex - ey - 53) by lia.
  replace (ex - ey - (ex - ey - 53)) with 53 by lia.
  rewrite Z.shiftl_mul_pow2 by lia.
  set (N := Z.pos mx * 2 ^ 53).
  pose proof (Z_div_mod N (Z.pos my) ltac:(lia)) as Hdm.
  destruct (Z.div_eucl N (Z.pos my)) as [q r]. destruct Hdm as [HN Hr].
  change (2 ^ 52) with 4503599627370496 in *.
  change (2 ^ 53) with 9007199254740992 in *.
  assert (Hq : 4503599627370496 <= q < 4 * 4503599627370496) by (unfold N in *; nia).
  assert (Hloc : located (shr_record_of_loc q (new_location (Z.pos my) r)) N (Z.pos my)).
  { apply new_location_located; lia. }
  assert (Hd1 : 53 <= Zdigits2 q).
  { apply (Zdigits2_ge q 52); [lia|lia|].
    change (2 ^ 52) with 4503599627370496. lia. }
  assert (Hd2 : Zdigits2 q <= 54).
  { apply Zdigits2_le; [lia|lia|].
    change (2 ^ 54) with (4 * 4503599627370496). lia. }
  destruct (binary_round_aux_spec q (ex - ey - 53)
              (new_location (Z.pos my) r) N (Z.pos my))
    as (m' & k & Heq & Hk & Hb & H1 & H2); try lia; [exact Hloc|].
  change (2 ^ 52) with 4503599627370496 in *.
  change (2 ^ 53) with 9007199254740992 in *.
  set (n := Zdigits2 q - 53) in *.
  exists m', (n + k). rewrite Heq.
  split; [f_equal; lia|]. split; [lia|]. split; [exact Hb|].
  assert (Hn : 0 <= n <= 1) by lia.
  assert (Hk' : 0 <= k <= 1) by lia.
  rewrite Z.pow_add_r by lia.
  pose proof (pow2_pos n ltac:(lia)) as Pn. pose proof (pow2_pos k ltac:(lia)) as Pk.
  assert (Pk1 : 1 <= 2 ^ k) by lia.
  split; nia.
Qed.

Lemma SF64mul_spec (mx my : positive) (ex ey : Z) :
  2 ^ 52 <= Z.pos mx < 2 ^ 53 -> 2 ^ 52 <= Z.pos my < 2 ^ 53 ->
  -200 <= ex <= 0 -> -200 <= ey <= 0 ->
  exists (m : positive) (j : Z),
    SF64mul (S754_finite false mx ex) (S754_finite false my ey)
    = S754_finite false m (ex + ey + j)
    /\ 52 <= j <= 54 /\ 2 ^ 52 <= Z.pos m < 2 ^ 53
    /\ 2 * (Z.pos m * 2 ^ j) - 2 * (Z.pos mx * Z.pos my) <= 2 ^ j
    /\ 2 * (Z.pos mx * Z.pos my) - 2 * (Z.pos m * 2 ^ j) <= 2 ^ j.
Proof.
  intros Hx Hy Hex Hey. unfold SF64mul, SFmul. cbn [xorb].
  set (N := Z.pos (mx * my)).
  assert (HN : N = Z.pos mx * Z.pos my) by reflexivity.
  change (2 ^ 52) with 4503599627370496 in *.
  change (2 ^ 53) with 9007199254740992 in *.
  assert (HNb : 2 ^ 104 <= N < 2 ^ 106).
  { change (2 ^ 104) with (4503599627370496 * 4503599627370496).
    change (2 ^ 106) with (9007199254740992 * 9007199254740992). nia. }
  assert (Hd1 : 105 <= Zdigits2 N) by (apply (Zdigits2_ge N 104); lia).
  assert (Hd2 : Zdigits2 N <= 106) by (apply Zdigits2_le; lia).
  assert (Hloc : located (shr_record_of_loc N loc_Exact) N 1).
  { unfold located. cbn. lia. }
  destruct (binary_round_aux_spec N (ex + ey) loc_Exact N 1)
    as (m' & k & Heq & Hk & Hb & H1 & H2); try lia; [exact Hloc|].
  set (n := Zdigits2 N - 53) in *.
  exists m', (n + k). rewrite Heq.
  split; [f_equal; lia|]. split; [lia|].
  change (2 ^ 52) with 4503599627370496 in *.
  change (2 ^ 53) with 9007199254740992 in *.
  split; [exact Hb|].
  rewrite Z.pow_add_r by lia.
  pose proof (pow2_pos n ltac:(lia)) as Pn. pose proof (pow2_pos k ltac:(lia)) as Pk.
  assert (Pk1 : 1 <= 2 ^ k) by lia.
  rewrite <- HN. split; nia.
Qed.

(** *** The script's product [(h / w) * t] *)

Lemma Prim2SF_Number_of_Z (z : Z) :
  0 < z < 2 ^ 53 ->
  exists (m : positive) (a : Z),
    Prim2SF (Number_of_Z z) = S754_finite false m (- a)
    /\ a = 53 - Zdigits2 z /\ 0 <= a <= 52
    /\ Z.pos m = z * 2 ^ a /\ 2 ^ 52 <= Z.pos m < 2 ^ 53.
Proof.
  intros Hz. destruct (binary_normalize_spec z Hz) as (m & a & Heq & Ha & Hab & Hm & Hmb).
  exists m, a. unfold Number_of_Z. rewrite Heq.
  rewrite Prim2SF_SF2Prim;
    [exact (conj eq_refl (conj Ha (conj Hab (conj Hm Hmb))))|].
  cbn [valid_binary]. unfold bounded, canonical_mantissa.
  rewrite (digits2_pos_unique m 53 Hmb), fexp_normal by lia.
  apply andb_true_iff. split; [apply Z.eqb_eq; lia|].
  apply Z.leb_le. cbv [emax prec]. lia.
Qed.

Lemma pow2_le (a b : Z) : 0 <= a <= b -> 2 ^ a <= 2 ^ b.
Proof. intros H. apply Z.pow_le_mono_r; lia. Qed.

Lemma scale_le (a b c : Z) : 0 <= c -> a <= b -> a * c <= b * c.
Proof. intros Hc H. now apply Z.mul_le_mono_nonneg_r. Qed.

(** The two roundings, put together at a common scale. *)
Lemma error_chain (h w t m1 m2 mh mw mt P1 P2 Ea Eb Ec S : Z) :
  0 < h -> 0 < w -> 0 < t -> 0 < m1 -> 0 < m2 ->
  mh = h * Ea -> mw = w * Eb -> mt = t * Ec ->
  2 * (m1 * P1) * mw - 2 * (mh * 2 ^ 53) <= P1 * mw ->
  2 * (mh * 2 ^ 53) - 2 * (m1 * P1) * mw <= P1 * mw ->
  2 * (m2 * P2) - 2 * (m1 * mt) <= P2 ->
  2 * (m1 * mt) - 2 * (m2 * P2) <= P2 ->
  S * (P1 * P2 * Eb) = 2 ^ 53 * (Ea * Ec) ->
  1 <= P1 <= 4 -> 0 < P2 <= 2 ^ 54 -> 0 < Eb ->
  0 < mw < 2 ^ 53 -> 0 < mt < 2 ^ 53 ->
  2 ^ 21 <= Ea -> 2 ^ 43 <= Ec ->
  2 * m2 * w - 2 * (h * t) * S < S /\ 2 * (h * t) * S - 2 * m2 * w < S.
Proof.
  intros Hh Hw Ht Hm1 Hm2 Emh Emw Emt D1 D2 M1 M2 Hid HP1 HP2 HEb Hmw Hmt HEa HEc.
  set (G := P1 * P2 * Eb) in *.
  assert (HG : 0 < G).
  { unfold G. apply Z.mul_pos_pos; [apply Z.mul_pos_pos|]; lia. }
  assert (E1 : 2 * m2 * w * G = 2 * (m2 * P2) * (P1 * mw))
    by (unfold G; rewrite Emw; ring).
  assert (E2 : 2 * (h * t) * S * G = 2 * (mh * 2 ^ 53) * mt).
  { replace (2 * (h * t) * S * G) with (2 * (h * t) * (S * G)) by ring.
    rewrite Hid, Emh, Emt. ring. }
  assert (HX : 0 <= P1 * mw) by (apply Z.mul_nonneg_nonneg; lia).
  pose proof (scale_le _ _ (P1 * mw) HX M1) as A1.
  pose proof (scale_le _ _ (P1 * mw) HX M2) as A2.
  pose proof (scale_le _ _ mt ltac:(lia) D1) as B1.
  pose proof (scale_le _ _ mt ltac:(lia) D2) as B2.
  assert (Hbound : P2 * (P1 * mw) + P1 * mw * mt < S * G).
  { rewrite Hid.
    assert (F1 : P1 * mw <= 4 * 2 ^ 53).
    { apply Z.mul_le_mono_nonneg; lia. }
    assert (F2 : P2 + mt <= 2 ^ 54 + 2 ^ 53) by lia.
    assert (F3 : (P1 * mw) * (P2 + mt) <= (4 * 2 ^ 53) * (2 ^ 54 + 2 ^ 53)).
    { apply Z.mul_le_mono_nonneg; lia. }
    assert (F4 : 2 ^ 21 * 2 ^ 43 <= Ea * Ec).
    { apply Z.mul_le_mono_nonneg; lia. }
    assert (F5 : 2 ^ 53 * (2 ^ 21 * 2 ^ 43) <= 2 ^ 53 * (Ea * Ec)).
    { apply Z.mul_le_mono_nonneg_l; lia. }
    assert (F6 : (4 * 2 ^ 53) * (2 ^ 54 + 2 ^ 53) < 2 ^ 53 * (2 ^ 21 * 2 ^ 43))
      by reflexivity.
    replace (P2 * (P1 * mw) + P1 * mw * mt) with ((P1 * mw) * (P2 + mt)) by ring.
    lia. }
  clear Hid HEa HEc.
  split.
  - apply (mul_lt_cancel _ _ G HG).
    replace ((2 * m2 * w - 2 * (h * t) * S) * G)
      with (2 * m2 * w * G - 2 * (h * t) * S * G) by ring.
    rewrite E1, E2.
    replace (2 * (m2 * P2) * (P1 * mw) - 2 * (mh * 2 ^ 53) * mt)
      with ((2 * (m2 * P2) - 2 * (m1 * mt)) * (P1 * mw)
            + (2 * (m1 * P1) * mw - 2 * (mh * 2 ^ 53)) * mt) by ring.
    lia.
  - apply (mul_lt_cancel _ _ G HG).
    replace ((2 * (h * t) * S - 2 * m2 * w) * G)
      with (2 * (h * t) * S * G - 2 * m2 * w * G) by ring.
    rewrite E1, E2.
    replace (2 * (mh * 2 ^ 53) * mt - 2 * (m2 * P2) * (P1 * mw))
      with ((2 * (m1 * mt) - 2 * (m2 * P2)) * (P1 * mw)
            + (2 * (mh * 2 ^ 53) - 2 * (m1 * P1) * mw) * mt) by ring.
    lia.
Qed.

Lemma product_spec (h w t : Z) :
  0 < h < 2 ^ 32 -> 0 < w < 2 ^ 32 -> 0 < t < 2 ^ 10 ->
  exists (m : positive) (sigma : Z),
    Prim2SF (Number_of_Z h / Number_of_Z w * Number_of_Z t)%float
    = S754_finite false m (- sigma)
    /\ 0 < sigma
    /\ 2 * Z.pos m * w - 2 * (h * t) * 2 ^ sigma < 2 ^ sigma
    /\ 2 * (h * t) * 2 ^ sigma - 2 * Z.pos m * w < 2 ^ sigma.
Proof.
  intros Hh Hw Ht.
  destruct (Prim2SF_Number_of_Z h) as (mh & a & Eh & Ha & Hab & Hmh & Hmhb);
    [change (2 ^ 32) with 4294967296 in *; change (2 ^ 53) with 9007199254740992; lia|].
  destruct (Prim2SF_Number_of_Z w) as (mw & b & Ew & Hb & Hbb & Hmw & Hmwb);
    [change (2 ^ 32) with 4294967296 in *; change (2 ^ 53) with 9007199254740992; lia|].
  destruct (Prim2SF_Number_of_Z t) as (mt & c & Et & Hc & Hcb & Hmt & Hmtb);
    [change (2 ^ 10) with 1024 in *; change (2 ^ 53) with 9007199254740992; lia|].
  assert (Ha' : 21 <= a) by (pose proof (Zdigits2_le h 32); lia).
  assert (Hc' : 43 <= c) by (pose proof (Zdigits2_le t 10); lia).
  rewrite mul_spec, div_spec, Eh, Ew, Et.
  destruct (SF64div_spec mh mw (- a) (- b)) as (m1 & j1 & E1 & Hj1 & Hm1 & D1 & D2);
    try lia.
  rewrite E1.
  destruct (SF64mul_spec m1 mt (- a - - b - 53 + j1) (- c))
    as (m2 & j2 & E2 & Hj2 & Hm2 & M1 & M2); try lia.
  rewrite E2.
  set (sigma := a - b + 53 - j1 + c - j2).
  exists m2, sigma.
  split; [f_equal; unfold sigma; lia|].
  assert (Hs : 0 < sigma) by (unfold sigma; lia).
  split; [exact Hs|].
  apply (error_chain h w t (Z.pos m1) (Z.pos m2) (Z.pos mh) (Z.pos mw) (Z.pos mt)
           (2 ^ j1) (2 ^ j2) (2 ^ a) (2 ^ b) (2 ^ c) (2 ^ sigma));
    try lia; try assumption.
  - rewrite <- !Z.pow_add_r by lia. f_equal. unfold sigma. lia.
  - split; [apply (pow2_le 0 j1); lia|apply (pow2_le j1 2); lia].
  - split; [apply pow2_pos; lia|apply pow2_le; lia].
  - apply pow2_le; lia.
  - apply pow2_le; lia.
Qed.

Lemma Math_round_fraction (x : float) (m : positive) (sigma : Z) :
  Prim2SF x = S754_finite false m (- sigma) -> 0 < sigma ->
  Math_round x = (2 * Z.pos m + 2 ^ sigma) / (2 * 2 ^ sigma).
Proof.
  intros Hx Hs. unfold Math_round. rewrite Hx.
  replace (0 <=? - sigma) with false by (symmetry; apply Z.leb_gt; lia).
  replace (- - sigma) with sigma by lia.
  replace (1 - - sigma) with (1 + sigma) by lia.
  rewrite Z.pow_add_r by lia. reflexivity.
Qed.

(** A value within half a unit of [X / w], the unit being [1 / w], rounds
    as [X / w] does, or one below on a tie. *)
Lemma round_close (m w X S : Z) :
  0 < S -> 0 < w ->
  2 * m * w - 2 * X * S < S -> 2 * X * S - 2 * m * w < S ->
  ((2 * m + S) / (2 * S) = roundDiv X w
   \/ (2 * m + S) / (2 * S) = roundDiv X w - 1)
  /\ ((2 * X + w) mod (2 * w) <> 0 ->
      (2 * m + S) / (2 * S) = roundDiv X w).
Proof.
  intros HS Hw H1 H2. unfold roundDiv.
  set (R := (2 * m + S) / (2 * S)). set (K := (2 * X + w) / (2 * w)).
  pose proof (Z.mul_div_le (2 * m + S) (2 * S) ltac:(lia)) as HR.
  pose proof (Z.mul_div_le (2 * X + w) (2 * w) ltac:(lia)) as HK.
  pose proof (Z.div_mod (2 * X + w) (2 * w) ltac:(lia)) as HKm.
  pose proof (Z.mod_pos_bound (2 * X + w) (2 * w) ltac:(lia)) as HKb.
  fold R in HR. fold K in HK, HKm.
  assert (HRK : R <= K).
  { apply Z.div_le_lower_bound; [lia|].
    assert (S * (2 * w * R) < S * (2 * X + w + 1)) by nia.
    assert (2 * w * R < 2 * X + w + 1) by (apply (Z.mul_lt_mono_pos_l S); lia).
    lia. }
  assert (HKR : K - 1 <= R).
  { apply Z.div_le_lower_bound; [lia|].
    assert (w * (2 * S * (K - 1)) < w * (2 * m + S)) by nia.
    assert (2 * S * (K - 1) < 2 * m + S) by (apply (Z.mul_lt_mono_pos_l w); lia).
    lia. }
  split; [lia|]. intros Hne.
  assert (HKR' : K <= R).
  { apply Z.div_le_lower_bound; [lia|].
    assert (w * (2 * S * K) < w * (2 * m + S)) by nia.
    assert (2 * S * K < 2 * m + S) by (apply (Z.mul_lt_mono_pos_l w); lia).
    lia. }
  lia.
Qed.

(** The height the script computes is the exact rounding of
    [h * thumbWidth / w], except on a tie, where it may be one less. *)
Lemma thumbHeightOf_exact (w h : Z) :
  0 < w < 2 ^ 32 -> 0 < h < 2 ^ 32 ->
  (thumbHeightOf w h = Z.max 1 (roundDiv (h * thumbWidthOf w) w)
   \/ thumbHeightOf w h = Z.max 1 (roundDiv (h * thumbWidthOf w) w - 1))
  /\ ((2 * (h * thumbWidthOf w) + w) mod (2 * w) <> 0 ->
      thumbHeightOf w h = Z.max 1 (roundDiv (h * thumbWidthOf w) w)).
Proof.
  intros Hw Hh. unfold thumbHeightOf.
  set (t := thumbWidthOf w).
  assert (Ht : 0 < t < 2 ^ 10).
  { unfold t, thumbWidthOf, THUMB_WIDTH. change (2 ^ 10) with 1024. lia. }
  destruct (product_spec h w t Hh Hw Ht) as (m & sigma & Hx & Hs & E1 & E2).
  rewrite (Math_round_fraction _ m sigma Hx Hs).
  destruct (round_close (Z.pos m) w (h * t) (2 ^ sigma)) as [Hor Hne];
    [apply pow2_pos; lia|lia|exact E1|exact E2|].
  split.
  - destruct Hor as [-> | ->]; [now left|now right].
  - intros H. now rewrite (Hne H).
Qed.

End binary64_facts.

(* ================================================================== *)
(** ** Validation of [src] *)

Module validation_facts.
Import run_facts.

Lemma trimStart_keeps (a b : jsstring) (c : N) :
  isWhiteSpace c = false -> trimStart (a ++ c :: b) <> [].
Proof.
  intros Hc. induction a as [|x a IH]; simpl.
  - rewrite Hc. discriminate.
  - destruct (isWhiteSpace x); [exact IH|discriminate].
Qed.

Lemma trim_slash (rest : jsstring) : trim (CHAR_FORWARD_SLASH :: rest) <> [].
Proof.
  unfold trim, trimEnd. cbn [trimStart].
  change (isWhiteSpace CHAR_FORWARD_SLASH) with false. cbv iota.
  intros H. apply (f_equal (@rev N)) in H. rewrite rev_involutive in H.
  simpl rev in H. revert H. now apply trimStart_keeps.
Qed.

(** Whatever string [src] holds, the normalized value passes the test
    [isNonEmptyString]: it starts with the slash that
    [ensureLeadingSlash] puts there. *)
Lemma normalized_string_nonEmpty (s : jsstring) :
  isNonEmptyString (VStr (normalizeUrlPath (VStr s))) = true.
Proof.
  destruct (normalizeUrlPath_string s) as (rest & -> & _).
  unfold isNonEmptyString. apply Z.ltb_lt.
  pose proof (trim_slash rest) as H.
  destruct (trim (CHAR_FORWARD_SLASH :: rest)) as [|c t]; [congruence|].
  rewrite len_cons. pose proof (len_nonneg t). lia.
Qed.

(** The check of line 87 throws on a [src] that is not a string. *)
Lemma processItem_not_string (E : Env) (idx : nat) (item : value) (h : history)
      (t1 t2 t3 t4 : jsstring) :
  isString (nullish (optProp item (lit "src")) (VStr [])) = false ->
  textOf E item "title" = Some t1 -> textOf E item "shotUsing" = Some t2 ->
  textOf E item "location" = Some t3 -> textOf E item "description" = Some t4 ->
  processItem E idx item h = (Err (InvalidDescriptor idx), h).
Proof.
  intros Hs H1 H2 H3 H4. unfold processItem.
  rewrite (normalizeUrlPath_not_string _ Hs).
  unfold textOf in *. unfold bind at 1. unfold textField at 1.
  destruct (toJsString _ _); [|discriminate].
  unfold ret at 1. unfold bind at 1. unfold textField at 1.
  destruct (toJsString _ _); [|discriminate].
  unfold ret at 1. unfold bind at 1. unfold textField at 1.
  destruct (toJsString _ _); [|discriminate].
  unfold ret at 1. unfold bind at 1. unfold textField at 1.
  destruct (toJsString _ _); [|discriminate].
  reflexivity.
Qed.

(** A computation that does not fail as the check of line 87 does. *)
Definition neverInvalid {A} (m : M A) : Prop :=
  forall h i, fst (m h) <> Err (InvalidDescriptor i).

Lemma neverInvalid_bind {A B} (m : M A) (k : A -> M B) :
  neverInvalid m -> (forall a, neverInvalid (k a)) -> neverInvalid (bind m k).
Proof.
  intros Hm Hk h i. unfold bind. specialize (Hm h i).
  destruct (m h) as [[a|e] h1]; simpl in *.
  - apply Hk.
  - intros H. apply Hm. congruence.
Qed.

Lemma neverInvalid_ret {A} (a : A) : neverInvalid (ret a).
Proof. intros h i. discriminate. Qed.

Lemma neverInvalid_throw {A} (e : error) :
  (forall i, e <> InvalidDescriptor i) -> neverInvalid (@throw A e).
Proof. intros He h i. simpl. intros H. apply (He i). congruence. Qed.

Lemma neverInvalid_ask {A} (f : history -> A) : neverInvalid (ask f).
Proof. intros h i. discriminate. Qed.

Lemma neverInvalid_effect (ev : event) (ok : history -> bool) (e : error) :
  (forall i, e <> InvalidDescriptor i) -> neverInvalid (effect ev ok e).
Proof.
  intros He h i. unfold effect. destruct (ok h); simpl; [discriminate|].
  intros H. apply (He i). congruence.
Qed.

(** On a [src] that is a string, or missing, it never does. *)
Lemma processItem_string (E : Env) (idx i : nat) (item : value) (h : history)
      (s : jsstring) :
  nullish (optProp item (lit "src")) (VStr []) = VStr s ->
  fst (processItem E idx item h) <> Err (InvalidDescriptor i).
Proof.
  intros Hs. revert h i. change (neverInvalid (processItem E idx item)).
  unfold processItem. rewrite Hs.
  rewrite (normalized_string_nonEmpty s). cbn [negb].
  repeat (apply neverInvalid_bind; [|intros ?]);
    try apply neverInvalid_ret; try apply neverInvalid_ask;
    try (apply neverInvalid_effect; discriminate).
  - unfold textField. destruct (toJsString _ _);
      [apply neverInvalid_ret|apply neverInvalid_throw; discriminate].
  - unfold textField. destruct (toJsString _ _);
      [apply neverInvalid_ret|apply neverInvalid_throw; discriminate].
  - unfold textField. destruct (toJsString _ _);
      [apply neverInvalid_ret|apply neverInvalid_throw; discriminate].
  - unfold textField. destruct (toJsString _ _);
      [apply neverInvalid_ret|apply neverInvalid_throw; discriminate].
  - destruct a4 as [st|]; [destruct (isFile st)|];
      (apply neverInvalid_ret || (apply neverInvalid_throw; discriminate)).
  - intros h i. destruct (metadata E h _); discriminate.
  - destruct (_ || _); [apply neverInvalid_throw; discriminate
                       |apply neverInvalid_ret].
  - destruct (shouldGenerate _ _); [|apply neverInvalid_ret].
    apply neverInvalid_effect; discriminate.
Qed.

End validation_facts.

(* ================================================================== *)
(** ** The properties of the specification *)

Import posix_facts id_facts run_facts float_facts binary64_facts validation_facts.

(** C3.  The check of line 87 rejects an entry with an [InvalidDescriptor]
    error that carries its index when [src] is there and is not a string.
    It does not when [src] is missing, empty or blank, which is where the
    claim fails: [normalizeUrlPath] has turned the value into ["/"] or
    ["/   "] before [isNonEmptyString] sees it, so no entry whose [src] is
    a string or missing is ever rejected by that check. *)
Theorem empty_src_not_invalid (E : Env) (idx : nat) (item : value)
        (h : history) :
  let source := nullish (optProp item (lit "src")) (VStr []) in
  (forall s, source = VStr s ->
     isNonEmptyString (VStr (normalizeUrlPath source)) = true
     /\ forall i, fst (processItem E idx item h) <> Err (InvalidDescriptor i))
  /\ (isString source = false ->
      forall t1 t2 t3 t4,
        textOf E item "title" = Some t1 ->
        textOf E item "shotUsing" = Some t2 ->
        textOf E item "location" = Some t3 ->
        textOf E item "description" = Some t4 ->
        processItem E idx item h = (Err (InvalidDescriptor idx), h)
        /\ message E (InvalidDescriptor idx)
           = Some (lit "gallery.json[" ++ decimal idx
                   ++ lit "].src must be a non-empty string"))
  /\ Forall (fun missing =>
               forall i,
                 fst (processItem E idx missing h) <> Err (InvalidDescriptor i))
            [VObj []; VNull;
             VObj [(lit "src", VNull)];
             VObj [(lit "src", VStr [])];
             VObj [(lit "src", VStr (lit "   "))]]
  /\ fst (processItem (demo.world []) idx demo.noSrc h)
     = Err (MissingSourceFile idx (lit "/srv/site/public")).
Proof.
  cbv zeta. split; [|split; [|split]].
  - intros s Hs. rewrite Hs. split; [apply normalized_string_nonEmpty|].
    intros i. now apply (processItem_string E idx i item h s).
  - intros Hs t1 t2 t3 t4 H1 H2 H3 H4. split; [|reflexivity].
    now apply (processItem_not_string E idx item h t1 t2 t3 t4).
  - repeat constructor; intros i; eapply processItem_string; reflexivity.
  - vm_compute. reflexivity.
Qed.

(** C4 as stated fails on a directory that is [".."]. *)
Lemma toThumbUrl_parent_directory :
  toThumbUrl (VStr (lit "/" ++ lit ".." ++ lit "/" ++ lit "a" ++ lit "."
                    ++ lit "png"))
  <> lit "/gallery/thumbs/" ++ lit ".." ++ lit "/" ++ lit "a" ++ lit ".jpg".
Proof. vm_compute. discriminate. Qed.

(** C4, amended.  For a source URL [/<dir>/<name>.<ext>] whose directory is
    made of segments that are not empty, ["."] or [".."], whose name is not
    empty and whose extension is not empty and has no dot, the thumbnail
    URL is [/gallery/thumbs/<dir>/<name>.jpg]. *)
Theorem toThumbUrl_mirrors (seg : jsstring) (segs : list jsstring)
        (name ext : jsstring) :
  forallb urlSegment (seg :: segs) = true ->
  fileName name = true -> fileExt ext = true ->
  toThumbUrl (VStr (lit "/" ++ joinSlash (seg :: segs) ++ lit "/"
                    ++ name ++ lit "." ++ ext))
  = lit "/gallery/thumbs/" ++ joinSlash (seg :: segs) ++ lit "/"
    ++ name ++ lit ".jpg".
Proof. apply toThumbUrl_segments. Qed.

Lemma toThumbUrl_mirrors_witness :
  toThumbUrl (VStr (lit "/photos/2024/Rome-01.PNG"))
  = lit "/gallery/thumbs/photos/2024/Rome-01.jpg".
Proof.
  exact (toThumbUrl_mirrors (lit "photos") [lit "2024"] (lit "Rome-01")
           (lit "PNG") eq_refl eq_refl eq_refl).
Defined.

(** C5. The identifier the script derives is the one the specification
    words, and it depends on nothing of the world but the engine's
    [toLowerCase]. *)
Theorem stableIdFromSrc_refines (E : Env) (source : jsstring) :
  stableIdFromSrc E (VStr source) = IdSpec.deriveId E source
  /\ forall cwd' num' input' stat' mkdir' meta' toFile' write' now',
      stableIdFromSrc
        (mkEnv cwd' E.(toLowerCase) num' input' stat' mkdir' meta' toFile'
               write' now') (VStr source)
      = stableIdFromSrc E (VStr source).
Proof.
  split; [apply stableIdFromSrc_deriveId|reflexivity].
Qed.

(** C10. An identifier has only characters of [[a-z0-9_-]], no two hyphens
    in a row, and no hyphen at either end. *)
Theorem stableIdFromSrc_shape_ok (E : Env) (source : value) :
  (forall c, In c (stableIdFromSrc E source) -> idChar c = true)
  /\ (forall a b, stableIdFromSrc E source <> a ++ lit "--" ++ b)
  /\ (forall b, stableIdFromSrc E source <> lit "-" ++ b)
  /\ (forall a, stableIdFromSrc E source <> a ++ lit "-").
Proof.
  destruct (stableIdFromSrc_shape E source) as [x ->].
  pose proof (noDouble_collapseRuns (IdSpec.stripOutside x)) as Hc.
  pose proof (noDouble_dropFirstHyphen _ Hc) as Hf.
  repeat split.
  - intros c H. apply In_dropLastHyphen, In_dropFirstHyphen, In_collapseRuns in H.
    unfold IdSpec.stripOutside in H. now apply filter_In in H.
  - intros a b H. pose proof (noDouble_dropLastHyphen _ Hf) as Hl.
    rewrite H in Hl. change (lit "--" ++ b) with (CHAR_HYPHEN :: CHAR_HYPHEN :: b) in Hl.
    rewrite noDouble_pair in Hl. discriminate.
  - intros b. apply dropLastHyphen_head. intros b'. now apply dropFirstHyphen_head.
  - intros a. now apply dropLastHyphen_last.
Qed.

(** C9.  [normalizeUrlPath] answers a string with that string behind one
    leading slash and with its backslashes turned into slashes, and a value
    that is not a string with the empty string, which the caller's test
    rejects.  The claim fails at the empty string: it is normalized to
    ["/"], which the caller's test takes for a non-empty string. *)
Theorem normalizeUrlPath_empty_string :
  normalizeUrlPath (VStr []) = lit "/"
  /\ isNonEmptyString (VStr (normalizeUrlPath (VStr []))) = true
  /\ (forall v, isString v = false ->
        normalizeUrlPath v = []
        /\ isNonEmptyString (VStr (normalizeUrlPath v)) = false)
  /\ (forall s, exists rest,
        normalizeUrlPath (VStr s) = CHAR_FORWARD_SLASH :: rest
        /\ noBackslash (normalizeUrlPath (VStr s)) = true
        /\ (normalizeUrlPath (VStr s)
            = replaceAllChar CHAR_BACKWARD_SLASH (lit "/") s
            \/ normalizeUrlPath (VStr s)
               = CHAR_FORWARD_SLASH
                 :: replaceAllChar CHAR_BACKWARD_SLASH (lit "/") s)).
Proof.
  split; [reflexivity|]. split; [reflexivity|]. split.
  - intros v Hv. rewrite (normalizeUrlPath_not_string v Hv).
    split; reflexivity.
  - exact normalizeUrlPath_string.
Qed.

(** C6. When an entry fails after the entries before it were resolved, the
    run stops there: [main] rejects with that failure, the exit code is 1,
    and the history ends where the entry failed, with no write of the
    manifest in it (no [WriteFile], and no thumbnail written over it).  In
    any run, a manifest is only written to [MANIFEST_JSON], with one
    resolved entry for every descriptor. *)
Theorem fail_fast (E : Env) (pre post : list value) (item : value)
        (resolved : list GalleryPhoto) (h1 h2 : history) (e : error) :
  E.(readSource) = Some (VArr (pre ++ item :: post)) ->
  E.(mkdirOk) [] (GENERATED_DIR E) = true ->
  E.(mkdirOk) [Mkdir (GENERATED_DIR E)] (THUMBS_PUBLIC_DIR E) = true ->
  processAll E 0 pre []
             [Mkdir (GENERATED_DIR E); Mkdir (THUMBS_PUBLIC_DIR E)]
  = (Ok resolved, h1) ->
  processItem E (List.length pre) item h1 = (Err e, h2) ->
  main E [] = (Err e, h2)
  /\ run E = (1, h2)
  /\ (forall ev, In ev h2 ->
        match ev with
        | WriteFile _ _ => False
        | ToFile _ dest _ _ => dest <> MANIFEST_JSON E
        | Mkdir _ => True
        end)
  /\ (forall (E' : Env) path m,
        In (WriteFile path m) (snd (main E' [])) ->
        path = MANIFEST_JSON E'
        /\ exists parsed, E'.(readSource) = Some (VArr parsed)
                          /\ Forall2 (resolves E') parsed m.(photos)).
Proof.
  intros Hread Hmk1 Hmk2 Hpre Hitem.
  assert (Hmain : main E [] = (Err e, h2)).
  { unfold main. rewrite Hread.
    unfold bind at 1. unfold effect at 1. rewrite Hmk1.
    unfold bind at 1. unfold effect at 1. cbn [app]. rewrite Hmk2.
    unfold bind at 1.
    now rewrite (processAll_first_failure E pre post item 0 [] _ resolved h1
                   e h2 Hpre Hitem). }
  split; [exact Hmain|]. split; [unfold run; now rewrite Hmain|]. split.
  - destruct (main_events E _ _ Hmain) as [[_ F]|(parsed & p & m & _ & -> & _ & _ & _ & Hr)].
    + intros ev Hin. rewrite Forall_forall in F. specialize (F ev Hin).
      destruct ev; exact F.
    + exfalso. destruct (quiet_processItem E _ _ _ _ _ Hitem) as [_ Hne].
      destruct (writeFileOk E p _ m); [discriminate|].
      apply Hne. congruence.
  - intros E' path m Hin.
    destruct (main E' []) as [r h] eqn:Hm'. cbn [snd] in Hin.
    destruct (main_events E' _ _ Hm') as [[_ F]|(parsed & p & m' & Hr & -> & F & F2 & _)].
    + rewrite Forall_forall in F. destruct (F _ Hin).
    + apply in_app_or in Hin as [Hin|[Hin|[]]].
      * rewrite Forall_forall in F. destruct (F _ Hin).
      * injection Hin as <- <-. split; [reflexivity|]. now exists parsed.
Qed.

Lemma fail_fast_witness :
  fst (run (demo.world [demo.rome; demo.noSrc; demo.rome])) = 1.
Proof.
  pose (E := demo.world [demo.rome; demo.noSrc; demo.rome]).
  pose (h0 := [Mkdir (GENERATED_DIR E); Mkdir (THUMBS_PUBLIC_DIR E)]).
  pose (r1 := processAll E 0 [demo.rome] [] h0).
  pose (r2 := processItem E (List.length [demo.rome]) demo.noSrc (snd r1)).
  pose (resolved := match fst r1 with Ok ps => ps | Err _ => [] end).
  assert (Hr : E.(readSource)
               = Some (VArr ([demo.rome] ++ demo.noSrc :: [demo.rome])))
    by reflexivity.
  assert (Hm1 : E.(mkdirOk) [] (GENERATED_DIR E) = true) by reflexivity.
  assert (Hm2 : E.(mkdirOk) [Mkdir (GENERATED_DIR E)] (THUMBS_PUBLIC_DIR E)
                = true) by reflexivity.
  assert (H1 : processAll E 0 [demo.rome] [] h0 = (Ok resolved, snd r1))
    by (vm_compute; reflexivity).
  assert (H2 : processItem E (List.length [demo.rome]) demo.noSrc (snd r1)
               = (Err (MissingSourceFile 1 (PUBLIC_DIR E)), snd r2))
    by (vm_compute; reflexivity).
  destruct (fail_fast E [demo.rome] [demo.rome] demo.noSrc resolved (snd r1)
              (snd r2) (MissingSourceFile 1 (PUBLIC_DIR E))
              Hr Hm1 Hm2 H1 H2) as (_ & Hrun & _).
  change (fst (run E) = 1). rewrite Hrun. reflexivity.
Defined.

(** C7. After a run that succeeds, the last effect is the write of the
    manifest, and its [photos] are, position by position, the resolved
    entries of the descriptors: as many, in the same order, every
    descriptor kept. *)
Theorem manifest_order (E : Env) (h : history) :
  main E [] = (Ok tt, h) ->
  exists parsed before m,
    E.(readSource) = Some (VArr parsed)
    /\ h = before ++ [WriteFile (MANIFEST_JSON E) m]
    /\ List.length m.(photos) = List.length parsed
    /\ Forall2 (resolves E) parsed m.(photos)
    /\ List.map src m.(photos)
       = List.map (fun item =>
                     normalizeUrlPath
                       (nullish (optProp item (lit "src")) (VStr [])))
                  parsed.
Proof.
  intros Hmain.
  destruct (main_events E _ _ Hmain) as [[_ F]|(parsed & p & m & Hr & -> & F & F2 & _)].
  - exfalso. unfold main in Hmain.
    destruct (readSource E) as [[| | | | |parsed|]|]; try discriminate.
    unfold bind at 1 in Hmain. unfold effect at 1 in Hmain.
    destruct (mkdirOk E [] _); [|discriminate].
    unfold bind at 1 in Hmain. unfold effect at 1 in Hmain.
    destruct (mkdirOk E _ _); [|discriminate].
    unfold bind at 1 in Hmain.
    destruct (processAll E 0 parsed [] _) as [[ps|e0] hx]; [|discriminate].
    unfold bind, ask, effect in Hmain. injection Hmain as _ <-.
    rewrite Forall_forall in F.
    apply (F (WriteFile (MANIFEST_JSON E)
                (mkManifest (now E hx)
                   (mkThumb THUMB_WIDTH THUMB_QUALITY (lit "jpeg")) ps))).
    apply in_or_app. right. now left.
  - exists parsed, p, m. repeat split; try assumption.
    + symmetry. exact (Forall2_length F2).
    + clear - F2. induction F2 as [|item photo items ps Hres _ IH];
        [reflexivity|].
      simpl. rewrite IH. f_equal. exact (proj1 Hres).
Qed.

Lemma manifest_order_witness :
  exists before m,
    snd (main (demo.world [demo.rome; demo.rome]) [])
    = before ++ [WriteFile (MANIFEST_JSON (demo.world [demo.rome; demo.rome])) m]
    /\ List.map src m.(photos)
       = [lit "/photos/Rome-01.PNG"; lit "/photos/Rome-01.PNG"].
Proof.
  pose (E := demo.world [demo.rome; demo.rome]).
  assert (Hmain : main E [] = (Ok tt, snd (main E [])))
    by (vm_compute; reflexivity).
  destruct (manifest_order E (snd (main E [])) Hmain)
    as (parsed & before & m & Hr & Hh & _ & _ & Hsrc).
  exists before, m. split; [exact Hh|].
  rewrite Hsrc. injection Hr as <-. reflexivity.
Defined.

(** C2 as stated fails on a 912 x 494 source: the exact quotient
    [494 * 900 / 912] is [487.5], which rounds to 488, and the script
    computes 487, because [494 / 912] is rounded to a double before it is
    multiplied by 900. *)
Lemma thumbHeightOf_912_494 :
  thumbHeightOf 912 494 = 487
  /\ Z.max 1 (roundDiv (494 * thumbWidthOf 912) 912) = 488
  /\ Z.max 1 (Math_round (Number_of_Z 494 * Number_of_Z (thumbWidthOf 912)
                          / Number_of_Z 912)%float) = 488.
Proof. vm_compute. repeat split. Qed.

(** C8 as stated fails in a run on a 1080 x 69 source: the manifest holds a
    thumbnail height of 57, and [900 * 69 / 1080 = 57.5] rounds to 58. *)
Lemma manifest_1080_69 :
  List.map (fun p => (p.(width), p.(height), p.(thumbWidth), p.(thumbHeight),
                      roundDiv (p.(thumbWidth) * p.(height)) p.(width)))
           (demo.written (demo.sized 1080 69 (demo.world [demo.rome])))
  = [(1080, 69, 900, 57, 58)].
Proof. vm_compute. reflexivity. Qed.

(** C2, amended.  For a source of [w] x [h] pixels, both below [2^32]:
    the thumbnail is [min(900, w)] wide; its height is
    [max(1, round(h * thumbWidth / w))] whenever [h * thumbWidth / w] is not
    exactly halfway between two integers, and that or one less when it is.
    A 2000 x 1000 source gives 900 x 450. *)
Theorem thumbnail_box (w h : Z) :
  0 < w < 2 ^ 32 -> 0 < h < 2 ^ 32 ->
  thumbWidthOf w = Z.min 900 w
  /\ (thumbHeightOf w h = Z.max 1 (roundDiv (h * thumbWidthOf w) w)
      \/ thumbHeightOf w h = Z.max 1 (roundDiv (h * thumbWidthOf w) w - 1))
  /\ ((2 * (h * thumbWidthOf w) + w) mod (2 * w) <> 0 ->
      thumbHeightOf w h = Z.max 1 (roundDiv (h * thumbWidthOf w) w))
  /\ (thumbWidthOf 2000, thumbHeightOf 2000 1000) = (900, 450).
Proof.
  intros Hw Hh. split; [reflexivity|].
  destruct (thumbHeightOf_exact w h Hw Hh) as [Hor Hne].
  split; [exact Hor|]. split; [exact Hne|]. vm_compute. reflexivity.
Qed.

Lemma thumbnail_box_witness :
  thumbHeightOf 400 300 = 300 /\ thumbHeightOf 912 494 = 488 - 1.
Proof.
  assert (R4 : 0 < 400 < 2 ^ 32) by (split; reflexivity).
  assert (R3 : 0 < 300 < 2 ^ 32) by (split; reflexivity).
  assert (R9 : 0 < 912 < 2 ^ 32) by (split; reflexivity).
  assert (R5 : 0 < 494 < 2 ^ 32) by (split; reflexivity).
  split.
  - apply (proj1 (proj2 (proj2 (thumbnail_box 400 300 R4 R3)))).
    vm_compute. discriminate.
  - destruct (proj1 (proj2 (thumbnail_box 912 494 R9 R5))) as [H|H].
    + exfalso. revert H. vm_compute. discriminate.
    + rewrite H. reflexivity.
Defined.

(** C8, amended.  Every photo of a manifest has a thumbnail no wider than
    the source, [min(900, width)], and a thumbnail height of 1 at least;
    for a source below [2^32] pixels each way that height is
    [max(1, round(thumbWidth * height / width))] whenever the quotient is
    not exactly halfway between two integers, and that or one less when it
    is. *)
Theorem manifest_never_upscales (E : Env) (path : jsstring)
        (m : GalleryManifest) (photo : GalleryPhoto) :
  In (WriteFile path m) (snd (main E [])) -> In photo m.(photos) ->
  let exact :=
    Z.max 1 (roundDiv (photo.(thumbWidth) * photo.(height)) photo.(width)) in
  let below :=
    Z.max 1 (roundDiv (photo.(thumbWidth) * photo.(height)) photo.(width) - 1)
  in
  photo.(thumbWidth) <= photo.(width)
  /\ photo.(thumbWidth) = Z.min 900 photo.(width)
  /\ 1 <= photo.(thumbHeight)
  /\ (0 < photo.(width) < 2 ^ 32 -> 0 < photo.(height) < 2 ^ 32 ->
      (photo.(thumbHeight) = exact \/ photo.(thumbHeight) = below)
      /\ ((2 * (photo.(thumbWidth) * photo.(height)) + photo.(width))
            mod (2 * photo.(width)) <> 0 ->
          photo.(thumbHeight) = exact)).
Proof.
  intros Hin Hphoto.
  destruct (main E []) as [r h] eqn:Hmain. cbn [snd] in Hin.
  assert (Hres : exists item, resolves E item photo).
  { destruct (main_events E _ _ Hmain)
      as [[_ F]|(parsed & p & m' & _ & -> & F & F2 & _)].
    - rewrite Forall_forall in F. destruct (F _ Hin).
    - apply in_app_or in Hin as [Hin|[Hin|[]]].
      + rewrite Forall_forall in F. destruct (F _ Hin).
      + injection Hin as _ <-. clear - F2 Hphoto.
        induction F2 as [|item q items qs Hq _ IH]; [destruct Hphoto|].
        destruct Hphoto as [<-|Hp]; [now exists item|now apply IH]. }
  destruct Hres as (item & _ & _ & _ & _ & _ & _ & _ & _ & _ & Hw & Hh).
  cbv zeta. rewrite Hw, Hh.
  split; [unfold thumbWidthOf, THUMB_WIDTH; lia|].
  split; [reflexivity|].
  split; [unfold thumbHeightOf; lia|].
  intros Rw Rh.
  rewrite (Z.mul_comm (thumbWidthOf (width photo)) (height photo)).
  exact (thumbHeightOf_exact (width photo) (height photo) Rw Rh).
Qed.

Lemma manifest_never_upscales_witness :
  List.map (fun p => (p.(width), p.(height), p.(thumbWidth), p.(thumbHeight)))
           (demo.written (demo.sized 400 300 (demo.world [demo.rome])))
  = [(400, 300, 400, 300)]
  /\ forall photo,
      In photo (demo.written (demo.sized 400 300 (demo.world [demo.rome])))
      -> photo.(thumbWidth) <= photo.(width).
Proof.
  split; [vm_compute; reflexivity|].
  pose (E := demo.sized 400 300 (demo.world [demo.rome])).
  assert (Hin : In (WriteFile (MANIFEST_JSON E) (demo.writtenManifest E))
                   (snd (main E []))).
  { vm_compute. repeat (try (left; reflexivity); right). }
  intros photo Hphoto.
  exact (proj1 (manifest_never_upscales E (MANIFEST_JSON E)
                  (demo.writtenManifest E) photo Hin Hphoto)).
Defined.

(* ================================================================== *)
(** ** Further properties of the script: URL helpers *)

Module url_facts.

Lemma normalizeUrlPath_idem (s : jsstring) :
  normalizeUrlPath (VStr (normalizeUrlPath (VStr s)))
  = normalizeUrlPath (VStr s).
Proof.
  destruct (normalizeUrlPath_string s) as (rest & Hr & Hnb & _).
  rewrite Hr in *. apply normalizeUrlPath_fixed.
  unfold noBackslash in *. simpl in Hnb. exact Hnb.
Qed.

Lemma ensureLeadingSlash_slash (s : jsstring) :
  exists rest, ensureLeadingSlash (VStr s) = CHAR_FORWARD_SLASH :: rest
               /\ rest = stripLeadingSlash s.
Proof.
  rewrite ensureLeadingSlash_string. destruct s as [|c s].
  - now exists [].
  - unfold stripLeadingSlash.
    cbn [startsWith lit list_ascii_of_string List.map].
    rewrite andb_true_r. change (N_of_ascii "/") with CHAR_FORWARD_SLASH.
    rewrite (N.eqb_sym CHAR_FORWARD_SLASH c).
    destruct (N.eqb c CHAR_FORWARD_SLASH) eqn:Hc.
    + apply N.eqb_eq in Hc. subst c. now exists s.
    + now exists (c :: s).
Qed.

(** The URL of a thumbnail starts with a slash and holds no backslash. *)
Lemma toThumbUrl_slash (srcUrl : value) :
  exists rest, toThumbUrl srcUrl = CHAR_FORWARD_SLASH :: rest
               /\ noBackslash rest = true.
Proof.
  unfold toThumbUrl.
  set (rel := posix.join _).
  exists (replaceAllChar CHAR_BACKWARD_SLASH (lit "/") rel).
  split; [reflexivity|]. now apply replaceAllChar_removes.
Qed.

End url_facts.

Import url_facts.

(** X1. Normalising a URL path twice is normalising it once, so the
    thumbnail URL, the file path and the identifier derived from the
    [src] of a manifest entry are those of the [src] string that was
    authored.  A value that is not a string is different: it is normalised
    to the empty string, and that to ["/"]. *)
Theorem normalizeUrlPath_idempotent (E : Env) (s : jsstring) :
  normalizeUrlPath (VStr (normalizeUrlPath (VStr s)))
  = normalizeUrlPath (VStr s)
  /\ toThumbUrl (VStr (normalizeUrlPath (VStr s))) = toThumbUrl (VStr s)
  /\ toFsPathFromPublicUrl E (VStr (normalizeUrlPath (VStr s)))
     = toFsPathFromPublicUrl E (VStr s)
  /\ stableIdFromSrc E (VStr (normalizeUrlPath (VStr s)))
     = stableIdFromSrc E (VStr s)
  /\ (forall v, isString v = false ->
        normalizeUrlPath v = []
        /\ normalizeUrlPath (VStr (normalizeUrlPath v)) = lit "/").
Proof.
  unfold toThumbUrl, toFsPathFromPublicUrl, stableIdFromSrc.
  rewrite !normalizeUrlPath_idem. repeat split.
  - now apply normalizeUrlPath_not_string.
  - now rewrite (normalizeUrlPath_not_string v).
Qed.

(** X2. [ensureLeadingSlash] puts exactly one slash in front of a string
    that has none and leaves the others alone; [stripLeadingSlash] takes
    one slash away and no more.  So stripping after ensuring is stripping,
    ensuring twice is ensuring once, and a string with two leading slashes
    keeps one through [stripLeadingSlash]. *)
Theorem leading_slash_round_trip (s : jsstring) :
  stripLeadingSlash (ensureLeadingSlash (VStr s)) = stripLeadingSlash s
  /\ ensureLeadingSlash (VStr s)
     = CHAR_FORWARD_SLASH :: stripLeadingSlash s
  /\ ensureLeadingSlash (VStr (ensureLeadingSlash (VStr s)))
     = ensureLeadingSlash (VStr s)
  /\ stripLeadingSlash (CHAR_FORWARD_SLASH :: CHAR_FORWARD_SLASH :: s)
     = CHAR_FORWARD_SLASH :: s
  /\ (startsWith s (lit "/") = false ->
      stripLeadingSlash (ensureLeadingSlash (VStr s)) = s).
Proof.
  destruct (ensureLeadingSlash_slash s) as (rest & He & ->).
  rewrite He. repeat split.
  - intros H. rewrite stripLeadingSlash_slash.
    unfold stripLeadingSlash. now rewrite H.
Qed.

(** X3. Whatever it is given, [toThumbUrl] answers a URL path that starts
    with a slash, ends in [".jpg"], holds no backslash and is its own
    normal form; for a value that is not a string it is
    ["/gallery/thumbs/.jpg"]. *)
Theorem toThumbUrl_normal_form (srcUrl : value) :
  (exists rest, toThumbUrl srcUrl = CHAR_FORWARD_SLASH :: rest)
  /\ (exists r, toThumbUrl srcUrl = r ++ lit ".jpg")
  /\ noBackslash (toThumbUrl srcUrl) = true
  /\ normalizeUrlPath (VStr (toThumbUrl srcUrl)) = toThumbUrl srcUrl
  /\ (isString srcUrl = false ->
      toThumbUrl srcUrl = lit "/gallery/thumbs/.jpg").
Proof.
  destruct (toThumbUrl_slash srcUrl) as (rest & Hr & Hnb).
  split; [now exists rest|]. split; [apply toThumbUrl_jpg|].
  split; [rewrite Hr; exact Hnb|].
  split; [rewrite Hr; now apply normalizeUrlPath_fixed|].
  intros Hs. unfold toThumbUrl.
  rewrite (normalizeUrlPath_not_string srcUrl Hs). reflexivity.
Qed.

(** X4. Two sources in the same directory whose names differ only in the
    extension get the same thumbnail URL: the extension is dropped before
    [".jpg"] is put in its place. *)
Theorem toThumbUrl_extension_collision (seg : jsstring)
        (segs : list jsstring) (name ext1 ext2 : jsstring) :
  forallb urlSegment (seg :: segs) = true ->
  fileName name = true -> fileExt ext1 = true -> fileExt ext2 = true ->
  toThumbUrl (VStr (lit "/" ++ joinSlash (seg :: segs) ++ lit "/"
                    ++ name ++ lit "." ++ ext1))
  = toThumbUrl (VStr (lit "/" ++ joinSlash (seg :: segs) ++ lit "/"
                      ++ name ++ lit "." ++ ext2)).
Proof.
  intros Hd Hn H1 H2.
  rewrite (toThumbUrl_segments seg segs name ext1 Hd Hn H1).
  now rewrite (toThumbUrl_segments seg segs name ext2 Hd Hn H2).
Qed.

Lemma toThumbUrl_extension_collision_witness :
  toThumbUrl (VStr (lit "/photos/rome.png"))
  = toThumbUrl (VStr (lit "/photos/rome.webp")).
Proof.
  exact (toThumbUrl_extension_collision (lit "photos") [] (lit "rome")
           (lit "png") (lit "webp") eq_refl eq_refl eq_refl eq_refl).
Defined.

(* ================================================================== *)
(** ** Further properties of the script: files under [public/] *)

Module fs_facts.

(** An absolute path made of plain segments is its own normal form. *)
Lemma normalize_absolute (segs : list jsstring) :
  segs <> [] -> forallb plainSegment segs = true ->
  posix.normalize (CHAR_FORWARD_SLASH :: joinSlash segs)
  = CHAR_FORWARD_SLASH :: joinSlash segs.
Proof.
  intros Hne Hall. unfold posix.normalize.
  rewrite N.eqb_refl. cbn [negb].
  assert (Hns : posix.normalizeString (CHAR_FORWARD_SLASH :: joinSlash segs)
                  false = joinSlash segs).
  { unfold posix.normalizeString. cbn [posix.normalizeLoop].
    change (posix.isPosixPathSeparator CHAR_FORWARD_SLASH) with true.
    cbv iota.
    change (posix.onSeparator false (posix.mkNstate [] 0 [] 0 0%N))
      with (posix.mkNstate [] 0 [] 0 CHAR_FORWARD_SLASH).
    rewrite normalizeLoop_fold.
    rewrite finish_plain_segments; [reflexivity|assumption|assumption
                                   |reflexivity|reflexivity]. }
  rewrite Hns.
  assert (Hlast : N.eqb (last (CHAR_FORWARD_SLASH :: joinSlash segs) 0%N)
                        CHAR_FORWARD_SLASH = false).
  { pose proof (joinSlash_last segs Hne Hall) as Hl.
    destruct (joinSlash segs) as [|c j] eqn:Hj; [|exact Hl].
    exfalso. destruct segs as [|s rest]; [congruence|].
    simpl in Hall. apply andb_true_iff in Hall as [Hs _].
    destruct (plainSegment_nonempty s Hs) as (c & s' & -> & _).
    destruct rest; discriminate. }
  rewrite Hlast.
  destruct (joinSlash segs) as [|c j] eqn:Hj; [|reflexivity].
  exfalso. destruct segs as [|s rest]; [congruence|].
  simpl in Hall. apply andb_true_iff in Hall as [Hs _].
  destruct (plainSegment_nonempty s Hs) as (c & s' & -> & _).
  destruct rest; discriminate.
Qed.

Lemma joinSlash_nonempty (segs : list jsstring) :
  segs <> [] -> forallb plainSegment segs = true -> joinSlash segs <> [].
Proof.
  intros Hne Hall. destruct segs as [|s rest]; [congruence|].
  simpl in Hall. apply andb_true_iff in Hall as [Hs _].
  destruct (plainSegment_nonempty s Hs) as (c & s' & -> & _).
  destruct rest; discriminate.
Qed.

(** Joining an absolute directory of plain segments and a relative path of
    plain segments. *)
Lemma join_absolute (roots segs : list jsstring) :
  roots <> [] -> forallb plainSegment roots = true ->
  segs <> [] -> forallb plainSegment segs = true ->
  posix.join [CHAR_FORWARD_SLASH :: joinSlash roots; joinSlash segs]
  = CHAR_FORWARD_SLASH :: joinSlash roots
    ++ CHAR_FORWARD_SLASH :: joinSlash segs.
Proof.
  intros Hr Hrp Hs Hsp. unfold posix.join. cbn [posix.joinArgs].
  pose proof (joinSlash_nonempty segs Hs Hsp) as Hj.
  destruct (joinSlash segs) as [|c j] eqn:Ej; [congruence|].
  rewrite <- Ej. cbn [app].
  rewrite <- joinSlash_app by assumption.
  apply normalize_absolute.
  - destruct roots; [congruence|discriminate].
  - rewrite forallb_app, Hrp. exact Hsp.
Qed.

(** The number of slashes of a string. *)
Definition slashes (s : jsstring) : nat :=
  List.length (List.filter (N.eqb CHAR_FORWARD_SLASH) s).

Lemma slashes_app (a b : jsstring) : slashes (a ++ b) = (slashes a + slashes b)%nat.
Proof. unfold slashes. now rewrite filter_app, length_app. Qed.

Lemma slashes_noSlash (s : jsstring) : noSlash s = true -> slashes s = O.
Proof.
  unfold slashes, noSlash. induction s as [|c s IH]; [reflexivity|].
  cbn [filter forallb]. intros H. apply andb_true_iff in H as [Hc H].
  apply negb_true_iff in Hc. rewrite (N.eqb_sym CHAR_FORWARD_SLASH c), Hc.
  now apply IH.
Qed.

Lemma plainSegment_noSlash (s : jsstring) :
  plainSegment s = true -> noSlash s = true.
Proof. intros H. now destruct (plainSegment_dots s H). Qed.

Lemma slashes_joinSlash (segs : list jsstring) :
  forallb plainSegment segs = true ->
  slashes (joinSlash segs) = pred (List.length segs).
Proof.
  induction segs as [|s segs IH]; [reflexivity|].
  simpl forallb. intros H. apply andb_true_iff in H as [Hs H].
  destruct segs as [|s2 rest].
  - simpl. now apply slashes_noSlash, plainSegment_noSlash.
  - rewrite joinSlash_cons by discriminate.
    rewrite slashes_app, (slashes_noSlash s (plainSegment_noSlash s Hs)).
    change (CHAR_FORWARD_SLASH :: joinSlash (s2 :: rest))
      with ([CHAR_FORWARD_SLASH] ++ joinSlash (s2 :: rest)).
    rewrite slashes_app, IH by exact H. reflexivity.
Qed.

(** A file name with an extension is a plain segment. *)
Lemma plainSegment_file (name ext : jsstring) :
  noSlash name = true -> name <> [] -> noSlashDot ext = true -> ext <> [] ->
  plainSegment (name ++ CHAR_DOT :: ext) = true.
Proof.
  intros Hn Hne He Hee. unfold plainSegment.
  assert (Hlen : 3 <= len (name ++ CHAR_DOT :: ext)).
  { rewrite len_app, len_cons. destruct name; [congruence|].
    destruct ext; [congruence|]. rewrite !len_cons.
    pose proof (len_nonneg name). pose proof (len_nonneg ext). lia. }
  rewrite !eqb_len.
  - unfold noSlash in *. rewrite forallb_app, Hn. cbn [forallb].
    apply noSlashDot_noSlash in He. unfold noSlash in He. now rewrite He.
  - change (len (lit "..")) with 2. lia.
  - change (len (lit ".")) with 1. lia.
  - change (len []) with 0. lia.
Qed.

End fs_facts.

Import fs_facts.

(** The file of a public URL made of plain segments. *)
Lemma toFsPath_segments (E : Env) (roots segs : list jsstring) :
  E.(cwd) = CHAR_FORWARD_SLASH :: joinSlash roots ->
  roots <> [] -> forallb plainSegment roots = true ->
  segs <> [] -> forallb urlSegment segs = true ->
  PUBLIC_DIR E = E.(cwd) ++ lit "/public"
  /\ toFsPathFromPublicUrl E (VStr (CHAR_FORWARD_SLASH :: joinSlash segs))
     = E.(cwd) ++ lit "/public/" ++ joinSlash segs
  /\ toFsPathFromPublicUrl E (VStr (joinSlash segs))
     = E.(cwd) ++ lit "/public/" ++ joinSlash segs.
Proof.
  intros Hcwd Hr Hrp Hs Hsu.
  unfold urlSegment in Hsu. rewrite forallb_and in Hsu.
  apply andb_true_iff in Hsu as [Hsp Hnb].
  assert (Hpub : PUBLIC_DIR E
                 = CHAR_FORWARD_SLASH :: joinSlash (roots ++ [lit "public"])).
  { unfold PUBLIC_DIR, PROJECT_ROOT. rewrite Hcwd.
    change (lit "public") with (joinSlash [lit "public"]).
    rewrite join_absolute; [|assumption|assumption|discriminate|reflexivity].
    now rewrite <- joinSlash_app by (assumption || discriminate). }
  assert (Hfs : posix.join [PUBLIC_DIR E; joinSlash segs]
                = cwd E ++ lit "/public/" ++ joinSlash segs).
  { rewrite Hpub, join_absolute; try assumption.
    - rewrite joinSlash_app by (assumption || discriminate).
      rewrite Hcwd. cbn [app joinSlash]. rewrite <- !app_assoc. reflexivity.
    - destruct roots; discriminate.
    - rewrite forallb_app, Hrp. reflexivity. }
  split; [|split].
  - rewrite Hpub, Hcwd, joinSlash_app by (assumption || discriminate).
    reflexivity.
  - unfold toFsPathFromPublicUrl.
    rewrite normalizeUrlPath_fixed by now apply noBackslash_joinSlash.
    rewrite stripLeadingSlash_slash. exact Hfs.
  - unfold toFsPathFromPublicUrl.
    assert (Hn : normalizeUrlPath (VStr (joinSlash segs))
                 = CHAR_FORWARD_SLASH :: joinSlash segs).
    { unfold normalizeUrlPath. rewrite ensureLeadingSlash_string.
      pose proof (joinSlash_hd segs Hs Hsp) as Hhd.
      pose proof (joinSlash_nonempty segs Hs Hsp) as Hne.
      pose proof (noBackslash_joinSlash segs Hnb) as Hb.
      destruct (joinSlash segs) as [|c j]; [congruence|].
      simpl hd in Hhd. rewrite Hhd.
      now apply (replaceAllChar_absent _ _ (CHAR_FORWARD_SLASH :: c :: j)). }
    rewrite Hn, stripLeadingSlash_slash. exact Hfs.
Qed.

(** X5. When the script runs in an absolute directory [/r1/.../rk], the
    file of a public URL [/s1/.../sn], whose segments are not empty, ["."]
    or [".."] and hold no slash or backslash, is
    [/r1/.../rk/public/s1/.../sn]; the leading slash of the URL is
    optional. *)
Theorem toFsPathFromPublicUrl_plain (E : Env) (roots segs : list jsstring) :
  E.(cwd) = CHAR_FORWARD_SLASH :: joinSlash roots ->
  roots <> [] -> forallb plainSegment roots = true ->
  segs <> [] -> forallb urlSegment segs = true ->
  PUBLIC_DIR E = E.(cwd) ++ lit "/public"
  /\ toFsPathFromPublicUrl E (VStr (CHAR_FORWARD_SLASH :: joinSlash segs))
     = E.(cwd) ++ lit "/public/" ++ joinSlash segs
  /\ toFsPathFromPublicUrl E (VStr (joinSlash segs))
     = E.(cwd) ++ lit "/public/" ++ joinSlash segs.
Proof. apply toFsPath_segments. Qed.

Lemma toFsPathFromPublicUrl_plain_witness :
  toFsPathFromPublicUrl (demo.world []) (VStr (lit "/photos/Rome-01.PNG"))
  = lit "/srv/site/public/photos/Rome-01.PNG".
Proof.
  exact (proj1 (proj2 (toFsPathFromPublicUrl_plain (demo.world [])
                         [lit "srv"; lit "site"]
                         [lit "photos"; lit "Rome-01.PNG"]
                         eq_refl ltac:(discriminate) eq_refl
                         ltac:(discriminate) eq_refl))).
Defined.

(** X6. Under the same conditions, for a source [/<dir>/<name>.<ext>]: the
    thumbnail URL is not the source URL and the thumbnail file is not the
    source file, so writing a thumbnail never overwrites the picture it is
    made from, also when the picture lies under [gallery/thumbs] itself. *)
Theorem thumbnail_not_over_source (E : Env) (roots : list jsstring)
        (seg : jsstring) (segs : list jsstring) (name ext : jsstring) :
  E.(cwd) = CHAR_FORWARD_SLASH :: joinSlash roots ->
  roots <> [] -> forallb plainSegment roots = true ->
  forallb urlSegment (seg :: segs) = true ->
  fileName name = true -> fileExt ext = true ->
  let source := lit "/" ++ joinSlash (seg :: segs) ++ lit "/"
                ++ name ++ lit "." ++ ext in
  toThumbUrl (VStr source) <> source
  /\ toFsPathFromPublicUrl E (VStr (toThumbUrl (VStr source)))
     <> toFsPathFromPublicUrl E (VStr source).
Proof.
  intros Hcwd Hr Hrp Hd Hname Hext source. subst source.
  rewrite (toThumbUrl_segments seg segs name ext Hd Hname Hext).
  unfold fileName in Hname. apply andb_true_iff in Hname as [Hname Hn3].
  apply andb_true_iff in Hname as [Hn1 Hn2].
  unfold fileExt in Hext. apply andb_true_iff in Hext as [Hext He3].
  apply andb_true_iff in Hext as [He1 He2].
  assert (Hnne : name <> []) by (intros ->; discriminate).
  assert (Hene : ext <> []) by (intros ->; discriminate).
  assert (Hfile : urlSegment (name ++ CHAR_DOT :: ext) = true).
  { unfold urlSegment. rewrite plainSegment_file by assumption.
    rewrite noBackslash_app, Hn2. exact He2. }
  assert (Hjpg : urlSegment (name ++ lit ".jpg") = true).
  { unfold urlSegment. rewrite plainSegment_jpg by assumption.
    rewrite noBackslash_app, Hn2. reflexivity. }
  assert (Hsrc : lit "/" ++ joinSlash (seg :: segs) ++ lit "/"
                 ++ name ++ lit "." ++ ext
                 = CHAR_FORWARD_SLASH
                   :: joinSlash ((seg :: segs) ++ [name ++ CHAR_DOT :: ext])).
  { rewrite joinSlash_app by discriminate. reflexivity. }
  assert (Hth : lit "/gallery/thumbs/" ++ joinSlash (seg :: segs) ++ lit "/"
                ++ name ++ lit ".jpg"
                = CHAR_FORWARD_SLASH
                  :: joinSlash ([lit "gallery"; lit "thumbs"]
                                ++ (seg :: segs) ++ [name ++ lit ".jpg"])).
  { rewrite joinSlash_app by discriminate.
    rewrite (joinSlash_app (seg :: segs)) by discriminate. reflexivity. }
  assert (Hsegs1 : forallb urlSegment ((seg :: segs) ++ [name ++ CHAR_DOT :: ext])
                   = true).
  { rewrite forallb_app, Hd. cbn [forallb]. now rewrite Hfile. }
  assert (Hsegs2 : forallb urlSegment
                     ([lit "gallery"; lit "thumbs"] ++ (seg :: segs)
                      ++ [name ++ lit ".jpg"]) = true).
  { rewrite !forallb_app, Hd. cbn [forallb]. now rewrite Hjpg. }
  assert (Hdiff : joinSlash ([lit "gallery"; lit "thumbs"] ++ (seg :: segs)
                             ++ [name ++ lit ".jpg"])
                  <> joinSlash ((seg :: segs) ++ [name ++ CHAR_DOT :: ext])).
  { intros Heq. apply (f_equal slashes) in Heq.
    unfold urlSegment in Hsegs1, Hsegs2. rewrite forallb_and in Hsegs1, Hsegs2.
    apply andb_true_iff in Hsegs1 as [P1 _].
    apply andb_true_iff in Hsegs2 as [P2 _].
    rewrite (slashes_joinSlash _ P1), (slashes_joinSlash _ P2) in Heq.
    rewrite !length_app in Heq. simpl in Heq. lia. }
  rewrite Hsrc, Hth. split.
  - intros Heq. apply Hdiff. now injection Heq.
  - assert (N1 : (seg :: segs) ++ [name ++ CHAR_DOT :: ext] <> [])
      by discriminate.
    assert (N2 : [lit "gallery"; lit "thumbs"] ++ (seg :: segs)
                 ++ [name ++ lit ".jpg"] <> []) by discriminate.
    destruct (toFsPath_segments E roots _ Hcwd Hr Hrp N1 Hsegs1)
      as (_ & -> & _).
    destruct (toFsPath_segments E roots _ Hcwd Hr Hrp N2 Hsegs2)
      as (_ & -> & _).
    intros Heq. apply app_inv_head in Heq. apply app_inv_head in Heq.
    now apply Hdiff.
Qed.

Lemma thumbnail_not_over_source_witness :
  toFsPathFromPublicUrl (demo.world [])
    (VStr (toThumbUrl (VStr (lit "/gallery/thumbs/rome.jpg"))))
  <> toFsPathFromPublicUrl (demo.world [])
       (VStr (lit "/gallery/thumbs/rome.jpg")).
Proof.
  exact (proj2 (thumbnail_not_over_source (demo.world [])
                  [lit "srv"; lit "site"] (lit "gallery") [lit "thumbs"]
                  (lit "rome") (lit "jpg")
                  eq_refl ltac:(discriminate) eq_refl eq_refl eq_refl
                  eq_refl)).
Defined.

(* ================================================================== *)
(** ** Further properties of the script: thumbnails of files with no
       directory or no extension *)

Module posix_more.

Lemma dirnameLoop_noSlash (l : jsstring) (b : bool) :
  noSlash l = true -> posix.dirnameLoop l b = -1.
Proof.
  revert b. induction l as [|c l IH]; intros b H; [reflexivity|].
  simpl in H. apply andb_true_iff in H as [Hc H]. apply negb_true_iff in Hc.
  cbn [posix.dirnameLoop]. rewrite Hc. now apply IH.
Qed.

(** The directory of a path that holds no slash is ["."]. *)
Lemma dirname_bare (f : jsstring) :
  noSlash f = true -> posix.dirname f = lit ".".
Proof.
  intros H. destruct f as [|c f]; [reflexivity|].
  simpl in H. apply andb_true_iff in H as [Hc H]. apply negb_true_iff in Hc.
  unfold posix.dirname. rewrite Hc.
  rewrite dirnameLoop_noSlash; [reflexivity|].
  unfold noSlash. now rewrite forallb_rev_eq.
Qed.

(** The extension of a file name that stands alone. *)
Lemma extname_bare (name ext : jsstring) :
  noSlash name = true -> name <> [] ->
  noSlashDot ext = true -> ext <> [] ->
  posix.extname (name ++ CHAR_DOT :: ext) = CHAR_DOT :: ext.
Proof.
  intros Hname Hne Hext Hxe. unfold posix.extname.
  assert (Hrev : rev (name ++ CHAR_DOT :: ext)
                 = rev ext ++ CHAR_DOT :: rev name ++ []).
  { rewrite rev_app_distr. simpl rev. rewrite <- !app_assoc, app_nil_r.
    reflexivity. }
  rewrite Hrev.
  pose proof (len_nonneg name) as Hn0. pose proof (len_nonneg ext) as He0.
  assert (Hext' : 0 < len ext).
  { destruct ext; [congruence|]. rewrite len_cons.
    pose proof (len_nonneg ext). lia. }
  assert (Hname' : 0 < len name).
  { destruct name; [congruence|]. rewrite len_cons.
    pose proof (len_nonneg name). lia. }
  destruct (rev ext) as [|c e] eqn:Hre.
  { now apply rev_nonempty in Hxe. }
  assert (He : noSlashDot (c :: e) = true).
  { rewrite <- Hre. unfold noSlashDot. now rewrite forallb_rev_eq. }
  assert (Hlen : len ext = len e + 1).
  { rewrite <- len_rev, Hre. apply len_cons. }
  simpl in He. apply andb_true_iff in He as [Hc He].
  apply andb_true_iff in Hc as [Hc1 Hc2]. apply negb_true_iff in Hc1, Hc2.
  assert (Hrn : noSlash (rev name) = true)
    by (unfold noSlash; now rewrite forallb_rev_eq).
  remember (rev name ++ []) as tl eqn:Htl.
  assert (Htl_len : len tl = len name).
  { subst tl. now rewrite app_nil_r, len_rev. }
  simpl app. rewrite extnameLoop_first by assumption.
  rewrite extnameLoop_ext;
    cbn [posix.startDot posix.startPart posix.eEnd posix.eMatchedSlash
         posix.preDotState];
    [|assumption|pose proof (len_nonneg (e ++ CHAR_DOT :: tl)); lia|reflexivity].
  rewrite extnameLoop_dot by (pose proof (len_nonneg (e ++ CHAR_DOT :: tl)); lia).
  assert (Hend : len (e ++ CHAR_DOT :: tl) + 1 = len tl + 1 + len ext).
  { rewrite len_app, len_cons. lia. }
  rewrite Hend. subst tl.
  rewrite extnameLoop_name;
    cbn [posix.startDot posix.startPart posix.eEnd posix.eMatchedSlash
         posix.preDotState];
    [|assumption|lia|lia].
  cbn [posix.extnameLoop posix.startDot posix.startPart posix.eEnd
       posix.eMatchedSlash posix.preDotState].
  rewrite Htl_len.
  rewrite (neqb_m1 (len name)) by lia.
  rewrite (neqb_m1 (len name + 1 + len ext)) by lia.
  replace (preDotAfter 0 (rev name) =? 0) with false.
  2:{ symmetry. apply Z.eqb_neq.
      destruct (preDotAfter_nonempty (rev name) 0 (rev_nonempty _ Hne)); lia. }
  replace (len name =? len name + 1 + len ext - 1)
    with false by (symmetry; apply Z.eqb_neq; lia).
  rewrite andb_false_r. simpl orb. cbv iota.
  replace (name ++ CHAR_DOT :: ext) with (name ++ (CHAR_DOT :: ext) ++ [])
    by now rewrite app_nil_r.
  apply slice_at; [reflexivity|rewrite len_cons; lia].
Qed.

(** The base name of a file name that stands alone, without its
    extension. *)
Lemma basename_bare (name ext : jsstring) :
  noSlash name = true -> name <> [] -> noSlashDot ext = true ->
  posix.basename (name ++ CHAR_DOT :: ext) (CHAR_DOT :: ext) = name.
Proof.
  intros Hname Hne Hext. unfold posix.basename.
  pose proof (len_nonneg name) as Hn0. pose proof (len_nonneg ext) as He0.
  assert (Hpos : 0 < len name).
  { destruct name; [congruence|]. rewrite len_cons.
    pose proof (len_nonneg name). lia. }
  assert (Hlen : len (name ++ CHAR_DOT :: ext) = len name + 1 + len ext).
  { rewrite len_app, len_cons. lia. }
  replace (0 <? len (CHAR_DOT :: ext)) with true
    by (symmetry; apply Z.ltb_lt; rewrite len_cons; lia).
  replace (len (CHAR_DOT :: ext) <=? _) with true
    by (symmetry; apply Z.leb_le; rewrite Hlen, len_cons; lia).
  rewrite eqb_len by (rewrite Hlen, len_cons; lia).
  simpl andb. cbv iota.
  assert (Hrev : rev (name ++ CHAR_DOT :: ext)
                 = (rev ext ++ [CHAR_DOT]) ++ rev name ++ []).
  { rewrite rev_app_distr. simpl rev. rewrite <- !app_assoc, app_nil_r.
    reflexivity. }
  rewrite Hrev. simpl (rev (CHAR_DOT :: ext)).
  assert (Hsfx : noSlash (rev ext ++ [CHAR_DOT]) = true).
  { unfold noSlash. rewrite forallb_app, forallb_rev_eq.
    apply noSlashDot_noSlash in Hext. unfold noSlash in Hext.
    now rewrite Hext. }
  rewrite basenameSuffixLoop_match;
    cbn [posix.bStart posix.bEnd posix.bMatchedSlash posix.extRest
         posix.firstNonSlashEnd];
    [|assumption|destruct (rev ext); discriminate|reflexivity|lia].
  simpl (-1 =? -1). cbv iota.
  rewrite basenameSuffixLoop_pass;
    cbn [posix.bStart posix.bEnd posix.bMatchedSlash posix.extRest
         posix.firstNonSlashEnd];
    [|unfold noSlash; now rewrite forallb_rev_eq
     |apply len_nonneg|reflexivity].
  cbn [posix.basenameSuffixLoop posix.bStart posix.bEnd posix.bMatchedSlash
       posix.extRest posix.firstNonSlashEnd].
  rewrite app_nil_r, len_rev.
  replace (0 =? len name) with false by (symmetry; apply Z.eqb_neq; lia).
  rewrite neqb_m1 by lia.
  apply slice_prefix.
Qed.

(** A file name without a dot has no extension. *)
Lemma extname_none (d name : jsstring) :
  noSlashDot name = true -> name <> [] ->
  posix.extname (d ++ CHAR_FORWARD_SLASH :: name) = [].
Proof.
  intros Hname Hne. unfold posix.extname.
  rewrite rev_app_distr. simpl rev. rewrite <- app_assoc. simpl app.
  destruct (rev name) as [|c e] eqn:Hre.
  { now apply rev_nonempty in Hne. }
  assert (He : noSlashDot (c :: e) = true).
  { rewrite <- Hre. unfold noSlashDot. now rewrite forallb_rev_eq. }
  simpl in He. apply andb_true_iff in He as [Hc He].
  apply andb_true_iff in Hc as [Hc1 Hc2]. apply negb_true_iff in Hc1, Hc2.
  simpl app. rewrite extnameLoop_first by assumption.
  rewrite extnameLoop_ext;
    cbn [posix.startDot posix.startPart posix.eEnd posix.eMatchedSlash
         posix.preDotState];
    [|assumption
     |pose proof (len_nonneg (e ++ CHAR_FORWARD_SLASH :: rev d)); lia
     |reflexivity].
  rewrite extnameLoop_sep. reflexivity.
Qed.

Lemma basenameLoop_name (n rest : jsstring) (st : posix.bstate) :
  noSlash n = true -> 0 <= st.(posix.bEnd) ->
  posix.basenameLoop (n ++ rest) st = posix.basenameLoop rest st.
Proof.
  intros Hn Hend. induction n as [|c n IH]; [reflexivity|].
  simpl in Hn. apply andb_true_iff in Hn as [Hc Hn]. apply negb_true_iff in Hc.
  simpl app. cbn [posix.basenameLoop]. rewrite Hc.
  rewrite neqb_m1 by assumption. now apply IH.
Qed.

(** The base name of [d/name], when no suffix is to be removed. *)
Lemma basename_whole (d name : jsstring) :
  noSlash name = true -> name <> [] ->
  posix.basename (d ++ CHAR_FORWARD_SLASH :: name) [] = name.
Proof.
  intros Hname Hne. unfold posix.basename.
  change (0 <? len []) with false. cbn [andb].
  rewrite rev_app_distr. simpl rev. rewrite <- app_assoc. simpl app.
  destruct (rev name) as [|c e] eqn:Hre.
  { now apply rev_nonempty in Hne. }
  assert (He : noSlash (c :: e) = true).
  { rewrite <- Hre. unfold noSlash. now rewrite forallb_rev_eq. }
  assert (Hlen : len name = len e + 1).
  { rewrite <- len_rev, Hre. apply len_cons. }
  simpl in He. apply andb_true_iff in He as [Hc He]. apply negb_true_iff in Hc.
  simpl app. cbn [posix.basenameLoop]. rewrite Hc.
  cbn [posix.bStart posix.bEnd posix.bMatchedSlash posix.extRest
       posix.firstNonSlashEnd].
  simpl (-1 =? -1). cbv iota.
  pose proof (len_nonneg (e ++ CHAR_FORWARD_SLASH :: rev d)) as H0.
  rewrite basenameLoop_name;
    cbn [posix.bStart posix.bEnd posix.bMatchedSlash posix.extRest
         posix.firstNonSlashEnd]; [|exact He|lia].
  cbn [posix.basenameLoop negb posix.bStart posix.bEnd posix.bMatchedSlash
       posix.extRest posix.firstNonSlashEnd].
  rewrite N.eqb_refl. cbv iota.
  cbn [posix.bStart posix.bEnd].
  rewrite neqb_m1 by lia.
  rewrite len_rev, len_app, len_cons, len_rev.
  replace (d ++ CHAR_FORWARD_SLASH :: name)
    with ((d ++ [CHAR_FORWARD_SLASH]) ++ name ++ [])
    by (rewrite app_nil_r, <- app_assoc; reflexivity).
  apply slice_at.
  - rewrite len_app, len_cons. change (len []) with 0. lia.
  - rewrite len_app, len_cons. change (len []) with 0. lia.
Qed.

Lemma normalize_relative (p q : jsstring) :
  N.eqb (hd CHAR_FORWARD_SLASH p) CHAR_FORWARD_SLASH = false ->
  N.eqb (last p 0%N) CHAR_FORWARD_SLASH = false ->
  posix.normalizeString p true = q -> q <> [] ->
  posix.normalize p = q.
Proof.
  intros Hhd Hlast Hn Hq. unfold posix.normalize.
  destruct p as [|c p1]; [discriminate|].
  simpl hd in Hhd. rewrite Hhd. simpl negb. rewrite Hn, Hlast.
  destruct q; [congruence|reflexivity].
Qed.

(** [join] drops a ["."] directory. *)
Lemma join_dot_directory (n : jsstring) :
  plainSegment n = true ->
  posix.join [lit "gallery"; lit "thumbs"; lit "."; n]
  = lit "gallery/thumbs/" ++ n.
Proof.
  intros Hn. destruct (plainSegment_nonempty n Hn) as (c & n' & Hcn & Hc).
  unfold posix.join. rewrite joinArgs_four; try discriminate.
  2:{ rewrite Hcn. discriminate. }
  change (lit "gallery" ++ CHAR_FORWARD_SLASH :: lit "thumbs"
          ++ CHAR_FORWARD_SLASH :: lit "." ++ CHAR_FORWARD_SLASH :: n)
    with (lit "gallery/thumbs/./" ++ joinSlash [n]).
  apply normalize_relative.
  - reflexivity.
  - rewrite last_app_right by (simpl; rewrite Hcn; discriminate).
    apply (joinSlash_last [n]); [discriminate|].
    cbn [forallb]. now rewrite Hn.
  - unfold posix.normalizeString.
    rewrite normalizeLoop_fold, fold_left_app.
    change (fold_left (step true) (lit "gallery/thumbs/./")
              (posix.mkNstate [] 0 [] 0 0%N))
      with (posix.mkNstate (lit "gallery/thumbs") 6 [] 0 CHAR_FORWARD_SLASH).
    rewrite finish_plain_segments;
      [reflexivity|discriminate|cbn [forallb]; now rewrite Hn
      |reflexivity|reflexivity].
  - discriminate.
Qed.

End posix_more.

Import posix_more.

(** X7. A picture that lies directly under [public/], with no directory,
    gets its thumbnail directly under [gallery/thumbs]: the ["."] that
    [dirname] answers is dropped by [join]. *)
Theorem toThumbUrl_no_directory (name ext : jsstring) :
  fileName name = true -> fileExt ext = true ->
  toThumbUrl (VStr (lit "/" ++ name ++ lit "." ++ ext))
  = lit "/gallery/thumbs/" ++ name ++ lit ".jpg".
Proof.
  intros Hname Hext.
  unfold fileName in Hname. apply andb_true_iff in Hname as [Hname Hn3].
  apply andb_true_iff in Hname as [Hn1 Hn2].
  unfold fileExt in Hext. apply andb_true_iff in Hext as [Hext He3].
  apply andb_true_iff in Hext as [He1 He2].
  assert (Hnne : name <> []) by (intros ->; discriminate).
  assert (Hene : ext <> []) by (intros ->; discriminate).
  change (lit "/" ++ name ++ lit "." ++ ext)
    with (CHAR_FORWARD_SLASH :: name ++ CHAR_DOT :: ext).
  unfold toThumbUrl.
  rewrite normalizeUrlPath_fixed by (rewrite noBackslash_app, Hn2; exact He2).
  rewrite stripLeadingSlash_slash.
  rewrite extname_bare, basename_bare by assumption.
  rewrite dirname_bare.
  2:{ unfold noSlash. rewrite forallb_app. fold (noSlash name). rewrite Hn1.
      apply noSlashDot_noSlash in He1. exact He1. }
  rewrite join_dot_directory by now apply plainSegment_jpg.
  rewrite replaceAllChar_absent; [reflexivity|].
  change (noBackslash (lit "/gallery/thumbs/" ++ name ++ lit ".jpg") = true).
  rewrite !noBackslash_app, Hn2. reflexivity.
Qed.

Lemma toThumbUrl_no_directory_witness :
  toThumbUrl (VStr (lit "/rome.png")) = lit "/gallery/thumbs/rome.jpg".
Proof.
  exact (toThumbUrl_no_directory (lit "rome") (lit "png") eq_refl eq_refl).
Defined.

(** X8. A picture whose file name holds no dot has no extension to
    replace: [".jpg"] is appended to the whole name. *)
Theorem toThumbUrl_no_extension (seg : jsstring) (segs : list jsstring)
        (name : jsstring) :
  forallb urlSegment (seg :: segs) = true ->
  fileExt name = true ->
  toThumbUrl (VStr (lit "/" ++ joinSlash (seg :: segs) ++ lit "/" ++ name))
  = lit "/gallery/thumbs/" ++ joinSlash (seg :: segs) ++ lit "/"
    ++ name ++ lit ".jpg".
Proof.
  intros Hsegs Hname.
  unfold urlSegment in Hsegs. rewrite forallb_and in Hsegs.
  apply andb_true_iff in Hsegs as [Hplain Hnb].
  unfold fileExt in Hname. apply andb_true_iff in Hname as [Hname Hn3].
  apply andb_true_iff in Hname as [Hn1 Hn2].
  assert (Hnne : name <> []) by (intros ->; discriminate).
  assert (Hns : noSlash name = true) by now apply noSlashDot_noSlash.
  set (d := joinSlash (seg :: segs)) in *.
  assert (Hd_nb : noBackslash d = true) by now apply noBackslash_joinSlash.
  assert (Hd_hd : N.eqb (hd CHAR_FORWARD_SLASH d) CHAR_FORWARD_SLASH = false)
    by (apply joinSlash_hd; [discriminate|assumption]).
  change (lit "/") with [CHAR_FORWARD_SLASH].
  cbn [app].
  unfold toThumbUrl.
  rewrite normalizeUrlPath_fixed.
  2:{ rewrite !noBackslash_app, Hd_nb. cbn [noBackslash forallb].
      exact Hn2. }
  rewrite stripLeadingSlash_slash.
  rewrite extname_none by assumption.
  rewrite basename_whole by assumption.
  destruct d as [|c0 d'] eqn:Hd; [discriminate|]. simpl hd in Hd_hd.
  rewrite dirname_file by assumption.
  unfold posix.join. rewrite joinArgs_four; try discriminate.
  2:{ destruct name; discriminate. }
  rewrite <- Hd.
  assert (Hj : lit "gallery" ++ CHAR_FORWARD_SLASH :: lit "thumbs"
               ++ CHAR_FORWARD_SLASH :: d ++ CHAR_FORWARD_SLASH
               :: name ++ lit ".jpg"
               = joinSlash ([lit "gallery"; lit "thumbs"]
                            ++ (seg :: segs) ++ [name ++ lit ".jpg"])).
  { rewrite joinSlash_app by discriminate.
    rewrite (joinSlash_app (seg :: segs)) by discriminate.
    reflexivity. }
  subst d. rewrite Hj, normalize_plain.
  2: discriminate.
  2:{ rewrite !forallb_app, Hplain. cbn [forallb].
      rewrite plainSegment_jpg by assumption. reflexivity. }
  rewrite <- Hj.
  rewrite replaceAllChar_absent; [reflexivity|].
  rewrite <- Hd in Hd_nb.
  change (noBackslash (lit "/gallery/thumbs/" ++ joinSlash (seg :: segs)
                       ++ lit "/" ++ name ++ lit ".jpg") = true).
  rewrite !noBackslash_app, Hd_nb, Hn2. reflexivity.
Qed.

Lemma toThumbUrl_no_extension_witness :
  toThumbUrl (VStr (lit "/photos/2024/rome"))
  = lit "/gallery/thumbs/photos/2024/rome.jpg".
Proof.
  exact (toThumbUrl_no_extension (lit "photos") [lit "2024"] (lit "rome")
           eq_refl eq_refl).
Defined.

(* ================================================================== *)
(** ** Further properties of the script: the effects of one entry *)

Module entry_facts.

(** What [fileMtimeMs] answers for [path] after the effects [h]. *)
Definition mtimeOf (E : Env) (h : history) (path : jsstring) : float :=
  match E.(stat) h path with
  | Some st => st.(mtimeMs)
  | None => (-1)%float
  end.

(** The paths the loop body works with, for the entry [item]. *)
Definition srcOf (item : value) : jsstring :=
  normalizeUrlPath (nullish (optProp item (lit "src")) (VStr [])).

Definition absSrcOf (E : Env) (item : value) : jsstring :=
  toFsPathFromPublicUrl E (VStr (srcOf item)).

Definition absThumbOf (E : Env) (item : value) : jsstring :=
  toFsPathFromPublicUrl E (VStr (toThumbUrl (VStr (srcOf item)))).

(** Whether the thumbnail of [item] is stale once its directory is made. *)
Definition staleAfter (E : Env) (item : value) (h : history) : bool :=
  let h1 := h ++ [Mkdir (posix.dirname (absThumbOf E item))] in
  shouldGenerate (mtimeOf E h1 (absSrcOf E item))
                 (mtimeOf E h1 (absThumbOf E item)).

(** Every way the loop body can end, with the effects it has had by
    then. *)
Lemma processItem_cases (E : Env) (idx : nat) (item : value) (h h' : history)
      (r : result GalleryPhoto) :
  processItem E idx item h = (r, h') ->
  let d := posix.dirname (absThumbOf E item) in
  let h1 := h ++ [Mkdir d] in
  (h' = h
   /\ (r = Err (CoercionFailure idx) \/ r = Err (InvalidDescriptor idx)
       \/ r = Err (MissingSourceFile idx (absSrcOf E item))))
  \/ (h' = h1
      /\ ((r = Err (MkdirFailure d) /\ E.(mkdirOk) h d = false)
          \/ (E.(mkdirOk) h d = true
              /\ (r = Err (CodecFailure (absSrcOf E item))
                  \/ r = Err (UnreadableImage (srcOf item))
                  \/ (staleAfter E item h = false
                      /\ exists photo, r = Ok photo)))))
  \/ (exists w hh,
        h' = h1 ++ [ToFile (absSrcOf E item) (absThumbOf E item) w hh]
        /\ E.(mkdirOk) h d = true
        /\ staleAfter E item h = true
        /\ w <= THUMB_WIDTH /\ w <> 0 /\ 1 <= hh
        /\ ((r = Err (ThumbnailWriteFailure (absThumbOf E item))
             /\ E.(toFileOk) h1 (absSrcOf E item) (absThumbOf E item) w hh
                = false)
            \/ exists photo, r = Ok photo
                             /\ w = photo.(thumbWidth)
                             /\ hh = photo.(thumbHeight))).
Proof.
  intros H d h1. subst d h1. unfold staleAfter, absThumbOf, absSrcOf, srcOf.
  unfold processItem in H.
  set (source := normalizeUrlPath _) in *.
  unfold bind at 1 in H. unfold textField at 1 in H.
  destruct (toJsString _ _);
    [|injection H as <- <-; left; split; [reflexivity|now left]].
  unfold ret at 1 in H.
  unfold bind at 1 in H. unfold textField at 1 in H.
  destruct (toJsString _ _);
    [|injection H as <- <-; left; split; [reflexivity|now left]].
  unfold ret at 1 in H.
  unfold bind at 1 in H. unfold textField at 1 in H.
  destruct (toJsString _ _);
    [|injection H as <- <-; left; split; [reflexivity|now left]].
  unfold ret at 1 in H.
  unfold bind at 1 in H. unfold textField at 1 in H.
  destruct (toJsString _ _);
    [|injection H as <- <-; left; split; [reflexivity|now left]].
  unfold ret at 1 in H.
  unfold bind at 1 in H.
  destruct (negb (isNonEmptyString (VStr source)));
    [injection H as <- <-; left; split; [reflexivity|right; now left]|].
  unfold ret at 1 in H.
  unfold bind at 1 in H. unfold ask at 1 in H.
  unfold bind at 1 in H.
  assert (Hfile : (exists st, E.(stat) h (toFsPathFromPublicUrl E (VStr source))
                             = Some st /\ isFile st = true)
                  \/ (r = Err (MissingSourceFile idx
                                 (toFsPathFromPublicUrl E (VStr source)))
                      /\ h' = h)).
  { destruct (stat E h (toFsPathFromPublicUrl E (VStr source))) as [st|].
    - destruct (isFile st) eqn:Hf.
      + left. now exists st.
      + right. injection H as <- <-. now split.
    - right. injection H as <- <-. now split. }
  destruct Hfile as [(st & Hst & Hf)|[-> ->]];
    [|left; split; [reflexivity|right; now right]].
  rewrite Hst, Hf in H. unfold ret at 1 in H.
  unfold bind at 1 in H. unfold effect at 1 in H.
  destruct (mkdirOk E h _) eqn:Hmk;
    [|injection H as <- <-; right; left; split; [reflexivity|left; now split]].
  unfold bind at 1 in H. unfold fileMtimeMs at 1 in H. unfold ask at 1 in H.
  unfold bind at 1 in H. unfold fileMtimeMs at 1 in H. unfold ask at 1 in H.
  unfold bind at 1 in H.
  destruct (metadata E _ _) as [meta|];
    [|injection H as <- <-; right; left; split;
      [reflexivity|right; split; [reflexivity|now left]]].
  unfold bind at 1 in H.
  set (width := match mWidth meta with Some w => w | None => 0 end) in *.
  set (height := match mHeight meta with Some x => x | None => 0 end) in *.
  destruct ((width =? 0) || (height =? 0)) eqn:Hdim;
    [injection H as <- <-; right; left; split;
      [reflexivity|right; split; [reflexivity|right; now left]]|].
  unfold ret at 1 in H.
  apply orb_false_iff in Hdim as [Hw Hh]. apply Z.eqb_neq in Hw.
  unfold bind at 1 in H.
  fold (mtimeOf E (h ++ [Mkdir (posix.dirname
          (toFsPathFromPublicUrl E (VStr (toThumbUrl (VStr source)))))])
          (toFsPathFromPublicUrl E (VStr source))) in H.
  fold (mtimeOf E (h ++ [Mkdir (posix.dirname
          (toFsPathFromPublicUrl E (VStr (toThumbUrl (VStr source)))))])
          (toFsPathFromPublicUrl E (VStr (toThumbUrl (VStr source))))) in H.
  destruct (shouldGenerate _ _) eqn:Hgen.
  - unfold effect at 1 in H. right. right.
    exists (thumbWidthOf width), (thumbHeightOf width height).
    assert (Hbox : thumbWidthOf width <= THUMB_WIDTH
                   /\ thumbWidthOf width <> 0
                   /\ 1 <= thumbHeightOf width height).
    { unfold thumbWidthOf, thumbHeightOf, THUMB_WIDTH. lia. }
    destruct Hbox as (B1 & B2 & B3).
    destruct (toFileOk E _ _ _ _ _) eqn:Hto.
    + unfold ret in H. injection H as <- <-.
      repeat split; try assumption. right. eexists. repeat split.
    + injection H as <- <-. repeat split; try assumption. left. now split.
  - unfold ret in H. injection H as <- <-. right. left.
    split; [reflexivity|]. right. split; [reflexivity|]. right. right.
    split; [reflexivity|]. eexists. reflexivity.
Qed.

End entry_facts.

Import entry_facts.

(* ================================================================== *)
(** ** Further properties of the script: the effects of a run *)

Module main_facts.

(** Every way [main] can end. *)
Lemma main_cases (E : Env) (r : result unit) (h : history) :
  main E [] = (r, h) ->
  (E.(readSource) = None /\ r = Err ReadFailure /\ h = [])
  \/ (exists v, E.(readSource) = Some v /\ (forall l, v <> VArr l)
                /\ r = Err NotAnArray /\ h = [])
  \/ (exists parsed,
        E.(readSource) = Some (VArr parsed)
        /\ ((E.(mkdirOk) [] (GENERATED_DIR E) = false
             /\ r = Err (MkdirFailure (GENERATED_DIR E))
             /\ h = [Mkdir (GENERATED_DIR E)])
            \/ (E.(mkdirOk) [Mkdir (GENERATED_DIR E)] (THUMBS_PUBLIC_DIR E)
                = false
                /\ r = Err (MkdirFailure (THUMBS_PUBLIC_DIR E))
                /\ h = [Mkdir (GENERATED_DIR E); Mkdir (THUMBS_PUBLIC_DIR E)])
            \/ (exists e,
                  processAll E 0 parsed []
                    [Mkdir (GENERATED_DIR E); Mkdir (THUMBS_PUBLIC_DIR E)]
                  = (Err e, h) /\ r = Err e)
            \/ (exists ps hp,
                  processAll E 0 parsed []
                    [Mkdir (GENERATED_DIR E); Mkdir (THUMBS_PUBLIC_DIR E)]
                  = (Ok ps, hp)
                  /\ let m := mkManifest (E.(now) hp)
                                (mkThumb THUMB_WIDTH THUMB_QUALITY (lit "jpeg"))
                                ps in
                     h = hp ++ [WriteFile (MANIFEST_JSON E) m]
                     /\ r = if E.(writeFileOk) hp (MANIFEST_JSON E) m
                            then Ok tt else Err ManifestWriteFailure))).
Proof.
  unfold main. intros H.
  destruct (readSource E) as [v|] eqn:Hr.
  2:{ injection H as <- <-. left. now repeat split. }
  right.
  assert (Harr : (exists parsed, v = VArr parsed) \/ (forall l, v <> VArr l)).
  { destruct v; try (right; intros l; discriminate). left. now eexists. }
  destruct Harr as [[parsed ->]|Hna].
  2:{ left. exists v. destruct v; try (injection H as <- <-; now repeat split).
      now destruct (Hna items). }
  right. exists parsed. split; [reflexivity|].
  unfold bind at 1 in H. unfold effect at 1 in H.
  destruct (mkdirOk E [] (GENERATED_DIR E)).
  2:{ injection H as <- <-. left. now repeat split. }
  unfold bind at 1 in H. unfold effect at 1 in H. cbn [app] in H.
  destruct (mkdirOk E _ (THUMBS_PUBLIC_DIR E)).
  2:{ injection H as <- <-. right. left. now repeat split. }
  unfold bind at 1 in H.
  destruct (processAll E 0 parsed [] _) as [[ps|e] hp] eqn:Hall.
  - right. right. right. exists ps, hp. split; [reflexivity|].
    unfold bind, ask, effect in H. cbv zeta.
    destruct (writeFileOk E hp _ _); injection H as <- <-; now split.
  - injection H as <- <-. right. right. left. now exists e.
Qed.

(** A property of histories that the two first directories, the loop body
    and the write of the manifest keep is kept by the run. *)
Lemma main_invariant (E : Env) (P : history -> Prop) :
  P [] ->
  (forall h d, P h -> P (h ++ [Mkdir d])) ->
  (forall h p m, P h -> P (h ++ [WriteFile p m])) ->
  (forall idx item h r h', P h -> processItem E idx item h = (r, h') -> P h') ->
  P (snd (main E [])).
Proof.
  intros P0 Pmk Pwr Pitem.
  assert (Pall : forall items idx photos h r h',
            P h -> processAll E idx items photos h = (r, h') -> P h').
  { induction items as [|item rest IH]; intros idx photos h r h' Ph H;
      cbn [processAll] in H.
    - injection H as _ <-. exact Ph.
    - unfold bind in H.
      destruct (processItem E idx item h) as [[photo|e] h1] eqn:Hi.
      + apply (IH _ _ _ _ _ (Pitem _ _ _ _ _ Ph Hi) H).
      + injection H as _ <-. exact (Pitem _ _ _ _ _ Ph Hi). }
  destruct (main E []) as [r h] eqn:Hm. cbn [snd].
  pose proof (Pmk _ (GENERATED_DIR E) P0) as P1. cbn [app] in P1.
  pose proof (Pmk _ (THUMBS_PUBLIC_DIR E) P1) as P2. cbn [app] in P2.
  destruct (main_cases E r h Hm)
    as [(_ & _ & ->)|[(v & _ & _ & _ & ->)|(parsed & _ & Hc)]];
    [exact P0|exact P0|].
  destruct Hc as [(_ & _ & ->)|[(_ & _ & ->)|[(e & Hall & _)
                 |(ps & hp & Hall & -> & _)]]].
  - exact P1.
  - exact P2.
  - exact (Pall _ _ _ _ _ _ P2 Hall).
  - apply Pwr. exact (Pall _ _ _ _ _ _ P2 Hall).
Qed.

(** A failure of the loop is the failure of one entry, whose index is its
    position in the array. *)
Lemma processAll_failure (E : Env) (items : list value) :
  forall idx photos h e h',
    processAll E idx items photos h = (Err e, h') ->
    exists pre item post ps h1,
      items = pre ++ item :: post
      /\ processAll E idx pre photos h = (Ok ps, h1)
      /\ processItem E (idx + List.length pre) item h1 = (Err e, h').
Proof.
  induction items as [|item rest IH]; intros idx photos h e h' H;
    cbn [processAll] in H; [discriminate|].
  unfold bind in H.
  destruct (processItem E idx item h) as [[photo|e0] h1] eqn:Hi.
  - destruct (IH _ _ _ _ _ H) as (pre & it & post & ps & h2 & -> & Hp & Hf).
    exists (item :: pre), it, post, ps, h2. split; [reflexivity|]. split.
    + cbn [processAll]. unfold bind. now rewrite Hi.
    + simpl List.length. now rewrite <- Nat.add_succ_comm.
  - injection H as <- <-. exists [], item, rest, photos, h.
    split; [reflexivity|]. split; [reflexivity|].
    simpl. now rewrite Nat.add_0_r.
Qed.

End main_facts.

Import main_facts.

(** X9. How an entry that fails leaves the world.  A text field that cannot
    be converted, a [src] that is not a string and a source file that is
    missing are found before anything is done for the entry; a directory
    that cannot be made, an image that cannot be read and an image without
    dimensions leave the request to make the thumbnail directory behind; a
    thumbnail that cannot be written leaves that and the request to write
    it.  The error carries the index of the entry and the path it is
    about. *)
Theorem entry_failure_effects (E : Env) (idx : nat) (item : value)
        (h h' : history) (e : error) :
  processItem E idx item h = (Err e, h') ->
  let d := posix.dirname (absThumbOf E item) in
  match e with
  | CoercionFailure i | InvalidDescriptor i => i = idx /\ h' = h
  | MissingSourceFile i p => i = idx /\ p = absSrcOf E item /\ h' = h
  | MkdirFailure p => p = d /\ h' = h ++ [Mkdir d]
  | CodecFailure p => p = absSrcOf E item /\ h' = h ++ [Mkdir d]
  | UnreadableImage s => s = srcOf item /\ h' = h ++ [Mkdir d]
  | ThumbnailWriteFailure p =>
      p = absThumbOf E item
      /\ exists w hh,
          h' = h ++ [Mkdir d; ToFile (absSrcOf E item) p w hh]
  | ReadFailure | NotAnArray | ManifestWriteFailure => False
  end.
Proof.
  intros H d. subst d.
  destruct (processItem_cases E idx item h h' _ H)
    as [(-> & [Hr|[Hr|Hr]])
       |[(-> & [(Hr & _)|(_ & [Hr|[Hr|(_ & p & Hr)]])])
        |(w & hh & -> & _ & _ & _ & _ & _ & [(Hr & _)|(p & Hr & _)])]];
    try discriminate; injection Hr as ->; repeat split.
  exists w, hh. now rewrite <- app_assoc.
Qed.

Lemma entry_failure_effects_witness :
  processItem (demo.world []) 1 demo.noSrc []
  = (Err (MissingSourceFile 1 (lit "/srv/site/public")), []).
Proof.
  assert (H : processItem (demo.world []) 1 demo.noSrc []
              = (Err (MissingSourceFile 1 (lit "/srv/site/public")),
                 snd (processItem (demo.world []) 1 demo.noSrc [])))
    by (vm_compute; reflexivity).
  destruct (entry_failure_effects (demo.world []) 1 demo.noSrc [] _ _ H)
    as (_ & _ & Hh).
  rewrite H at 1. now rewrite Hh.
Defined.



Module history_facts.

(** Histories in which every thumbnail is written right after its
    directory was made, with success, and in a box of width 1 to 900 and
    height 1 at least. *)
Inductive orderly (E : Env) : history -> Prop :=
| orderly_nil : orderly E []
| orderly_mkdir h d : orderly E h -> orderly E (h ++ [Mkdir d])
| orderly_manifest h p m : orderly E h -> orderly E (h ++ [WriteFile p m])
| orderly_thumb h s t w hh :
    orderly E h -> E.(mkdirOk) h (posix.dirname t) = true ->
    w <= THUMB_WIDTH -> w <> 0 -> 1 <= hh ->
    orderly E (h ++ [Mkdir (posix.dirname t); ToFile s t w hh]).

Lemma snoc_split (a b d : history) (x c : event) :
  a ++ [x] = b ++ c :: d ->
  (d = [] /\ a = b /\ x = c) \/ (exists d', d = d' ++ [x] /\ a = b ++ c :: d').
Proof.
  intros H. destruct (exists_last (l := c :: d) ltac:(discriminate))
    as (l' & y & Hl).
  rewrite Hl, app_assoc in H. apply app_inj_tail in H as [-> ->].
  destruct d as [|d0 d].
  - left. destruct l' as [|? [|]]; try discriminate.
    injection Hl as ->. rewrite app_nil_r. now repeat split.
  - right. destruct (exists_last (l := d0 :: d) ltac:(discriminate))
      as (d' & z & Hd).
    rewrite Hd in Hl. change (c :: d' ++ [z]) with ((c :: d') ++ [z]) in Hl.
    apply app_inj_tail in Hl as [<- <-]. exists d'. now split.
Qed.

Lemma orderly_thumbnails (E : Env) (h : history) :
  orderly E h ->
  forall pre s t w hh post,
    h = pre ++ ToFile s t w hh :: post ->
    exists pre',
      pre = pre' ++ [Mkdir (posix.dirname t)]
      /\ E.(mkdirOk) pre' (posix.dirname t) = true
      /\ w <= THUMB_WIDTH /\ w <> 0 /\ 1 <= hh.
Proof.
  induction 1 as [|h d Ho IH|h p m Ho IH|h s0 t0 w0 hh0 Ho IH Hmk Hw Hw0 Hh];
    intros pre s t w hh post Heq.
  - destruct pre; discriminate.
  - apply snoc_split in Heq as [(_ & _ & Hx)|(d' & _ & Heq)];
      [discriminate|]. now apply (IH _ _ _ _ _ _ Heq).
  - apply snoc_split in Heq as [(_ & _ & Hx)|(d' & _ & Heq)];
      [discriminate|]. now apply (IH _ _ _ _ _ _ Heq).
  - change [Mkdir (posix.dirname t0); ToFile s0 t0 w0 hh0]
      with ([Mkdir (posix.dirname t0)] ++ [ToFile s0 t0 w0 hh0]) in Heq.
    rewrite app_assoc in Heq.
    apply snoc_split in Heq as [(_ & <- & Hx)|(d' & _ & Heq)].
    + injection Hx as <- <- <- <-. exists h. now repeat split.
    + apply snoc_split in Heq as [(_ & _ & Hx)|(d2 & _ & Heq)];
        [discriminate|]. now apply (IH _ _ _ _ _ _ Heq).
Qed.

Lemma orderly_main (E : Env) : orderly E (snd (main E [])).
Proof.
  apply main_invariant.
  - constructor.
  - intros h d Ho. now constructor.
  - intros h p m Ho. now constructor.
  - intros idx item h r h' Ho H.
    destruct (processItem_cases E idx item h h' _ H)
      as [(-> & _)|[(-> & _)
         |(w & hh & -> & Hmk & _ & Hw & Hw0 & Hh & _)]].
    + exact Ho.
    + now constructor.
    + rewrite <- app_assoc. now constructor.
Qed.

(** The number of events of a history that [f] picks. *)
Definition count (f : event -> bool) (h : history) : nat :=
  List.length (List.filter f h).

Definition isMkdir (ev : event) : bool :=
  match ev with Mkdir _ => true | _ => false end.

Definition isToFile (ev : event) : bool :=
  match ev with ToFile _ _ _ _ => true | _ => false end.

Definition isWriteFile (ev : event) : bool :=
  match ev with WriteFile _ _ => true | _ => false end.

Lemma count_app (f : event -> bool) (a b : history) :
  count f (a ++ b) = (count f a + count f b)%nat.
Proof. unfold count. now rewrite filter_app, length_app. Qed.

Lemma processAll_counts (E : Env) (items : list value) :
  forall idx photos h ps h',
    processAll E idx items photos h = (Ok ps, h') ->
    count isMkdir h' = (count isMkdir h + List.length items)%nat
    /\ (count isToFile h' <= count isToFile h + List.length items)%nat
    /\ count isWriteFile h' = count isWriteFile h
    /\ List.length ps = (List.length photos + List.length items)%nat.
Proof.
  induction items as [|item rest IH]; intros idx photos h ps h' H;
    cbn [processAll] in H.
  - injection H as <- <-. cbn [List.length]. lia.
  - unfold bind in H.
    destruct (processItem E idx item h) as [[photo|e] h1] eqn:Hi;
      [|discriminate].
    destruct (IH _ _ _ _ _ H) as (I1 & I2 & I3 & I4).
    rewrite length_app in I4. cbn [List.length] in *.
    destruct (processItem_cases E idx item h h1 _ Hi)
      as [(-> & [Hr|[Hr|Hr]])
         |[(-> & _)|(w & hh & -> & _)]]; try discriminate;
      rewrite ?count_app in *; unfold count in *; cbn in *; lia.
Qed.

End history_facts.

Import history_facts.

(** X11. In every run, whatever the world answers, a thumbnail is written
    right after the request to make its directory, which succeeded; the
    box asked of the resizer is 900 wide at most, is not 0 wide and is 1
    high at least. *)
Theorem thumbnail_directory_first (E : Env) (pre post : history)
        (s t : jsstring) (w hh : Z) :
  snd (main E []) = pre ++ ToFile s t w hh :: post ->
  exists pre',
    pre = pre' ++ [Mkdir (posix.dirname t)]
    /\ E.(mkdirOk) pre' (posix.dirname t) = true
    /\ w <= THUMB_WIDTH /\ w <> 0 /\ 1 <= hh.
Proof. apply orderly_thumbnails, orderly_main. Qed.

Lemma thumbnail_directory_first_witness :
  exists pre',
    [Mkdir (GENERATED_DIR (demo.world [demo.rome]));
     Mkdir (THUMBS_PUBLIC_DIR (demo.world [demo.rome]));
     Mkdir (lit "/srv/site/public/gallery/thumbs/photos")]
    = pre' ++ [Mkdir (posix.dirname
                 (lit "/srv/site/public/gallery/thumbs/photos/Rome-01.jpg"))].
Proof.
  pose (E := demo.world [demo.rome]).
  pose (m := demo.writtenManifest E).
  assert (H : snd (main E [])
              = [Mkdir (GENERATED_DIR E); Mkdir (THUMBS_PUBLIC_DIR E);
                 Mkdir (lit "/srv/site/public/gallery/thumbs/photos")]
                ++ ToFile (lit "/srv/site/public/photos/Rome-01.PNG")
                     (lit "/srv/site/public/gallery/thumbs/photos/Rome-01.jpg")
                     900 450
                   :: [WriteFile (MANIFEST_JSON E) m])
    by (vm_compute; reflexivity).
  destruct (thumbnail_directory_first E _ _ _ _ _ _ H) as (pre' & Hp & _).
  exists pre'. exact Hp.
Defined.

(** X12. A run whose input is an array of [n] entries and which succeeds
    has asked for [n + 2] directories, one for each entry besides the two
    it starts with, has written [n] thumbnails at most, and has written
    the manifest once, last, with [n] photos. *)
Theorem run_effect_counts (E : Env) (parsed : list value) (h : history) :
  E.(readSource) = Some (VArr parsed) ->
  main E [] = (Ok tt, h) ->
  count isMkdir h = (List.length parsed + 2)%nat
  /\ (count isToFile h <= List.length parsed)%nat
  /\ count isWriteFile h = 1%nat
  /\ exists before m,
       h = before ++ [WriteFile (MANIFEST_JSON E) m]
       /\ List.length m.(photos) = List.length parsed.
Proof.
  intros Hr Hm.
  destruct (main_cases E _ _ Hm)
    as [(_ & Hx & _)|[(v & _ & _ & Hx & _)|(parsed' & Hr' & Hc)]];
    try discriminate.
  rewrite Hr in Hr'. injection Hr' as <-.
  destruct Hc as [(_ & Hx & _)|[(_ & Hx & _)|[(e & _ & Hx)
                 |(ps & hp & Hall & -> & _)]]]; try discriminate.
  destruct (processAll_counts E _ _ _ _ _ _ Hall) as (I1 & I2 & I3 & I4).
  rewrite !count_app. unfold count in *. cbn in *.
  repeat split; try lia.
  eexists _, _. split; [reflexivity|]. cbn [photos]. exact I4.
Qed.

Lemma run_effect_counts_witness :
  count isMkdir (snd (main (demo.world [demo.rome; demo.rome]) [])) = 4%nat.
Proof.
  pose (E := demo.world [demo.rome; demo.rome]).
  assert (Hm : main E [] = (Ok tt, snd (main E [])))
    by (vm_compute; reflexivity).
  exact (proj1 (run_effect_counts E [demo.rome; demo.rome] _ eq_refl Hm)).
Defined.

(** The run reaches the comparison of line 122 for [item] with the
    history [h]: the input is an array in which [item] stands after
    entries that were all resolved, which left the history [h], and the
    work on [item] gets as far as the comparison, that is, the entry is
    resolved or fails only when its thumbnail is written. *)
Definition compares (E : Env) (item : value) (h : history) : Prop :=
  exists pre post resolved,
    E.(readSource) = Some (VArr (pre ++ item :: post))
    /\ E.(mkdirOk) [] (GENERATED_DIR E) = true
    /\ E.(mkdirOk) [Mkdir (GENERATED_DIR E)] (THUMBS_PUBLIC_DIR E) = true
    /\ processAll E 0 pre []
         [Mkdir (GENERATED_DIR E); Mkdir (THUMBS_PUBLIC_DIR E)]
       = (Ok resolved, h)
    /\ match fst (processItem E (List.length pre) item h) with
       | Ok _ | Err (ThumbnailWriteFailure _) => True
       | Err _ => False
       end.

Module fresh_facts.

(** The loop over [pre ++ rest] is the loop over [rest], started where the
    loop over [pre] ends. *)
Lemma processAll_app (E : Env) (pre rest : list value) :
  forall idx photos h ps h1,
    processAll E idx pre photos h = (Ok ps, h1) ->
    processAll E idx (pre ++ rest) photos h
    = processAll E (idx + List.length pre) rest ps h1.
Proof.
  induction pre as [|x pre IH]; intros idx photos h ps h1 H.
  - cbn [processAll] in H. injection H as <- <-. simpl.
    now rewrite Nat.add_0_r.
  - simpl app. cbn [processAll] in *. unfold bind in *.
    destruct (processItem E idx x h) as [[photo|e] hx]; [|discriminate].
    rewrite (IH _ _ _ _ _ H). simpl List.length.
    now rewrite Nat.add_succ_comm.
Qed.

Lemma processAll_grows (E : Env) (items : list value) (idx : nat)
      (photos : list GalleryPhoto) (h h' : history)
      (r : result (list GalleryPhoto)) :
  processAll E idx items photos h = (r, h') -> exists evs, h' = h ++ evs.
Proof.
  intros H. destruct (quiet_processAll E items idx photos h r h' H)
    as [(evs & -> & _) _]. now exists evs.
Qed.

Lemma toFile_stays (a b : history) :
  Forall (fun ev => isToFile ev = false) (a ++ b) ->
  Forall (fun ev => isToFile ev = false) a.
Proof. intros F. now apply Forall_app in F. Qed.

End fresh_facts.

Import fresh_facts.

(** X13. A run writes no thumbnail exactly when, at every comparison of
    line 122 the run makes, the thumbnail is not stale: it is there, its
    modification time is not negative and that of the source is not
    greater. *)
Theorem fresh_run_writes_no_thumbnail (E : Env) :
  Forall (fun ev => isToFile ev = false) (snd (main E []))
  <-> (forall item h, compares E item h -> staleAfter E item h = false).
Proof.
  split.
  - intros F item h (pre & post & resolved & Hr & Hm1 & Hm2 & Hpre & Hcmp).
    destruct (staleAfter E item h) eqn:Hs; [exfalso|reflexivity].
    destruct (processItem E (List.length pre) item h) as [ri hi] eqn:Hi.
    cbn [fst] in Hcmp.
    assert (Hto : exists w hh tl,
               snd (main E [])
               = ((h ++ [Mkdir (posix.dirname (absThumbOf E item))])
                  ++ [ToFile (absSrcOf E item) (absThumbOf E item) w hh])
                 ++ tl).
    { destruct (processItem_cases E _ item h hi ri Hi)
        as [(_ & [Hx|[Hx|Hx]])
           |[(_ & [(Hx & _)|(_ & [Hx|[Hx|(Hf & _)]])])
            |(w & hh & Hh & _)]];
        try (rewrite Hx in Hcmp; destruct Hcmp); try congruence.
      exists w, hh. subst hi.
      unfold main. rewrite Hr. unfold bind at 1. unfold effect at 1.
      rewrite Hm1. unfold bind at 1. unfold effect at 1. cbn [app].
      rewrite Hm2. unfold bind at 1.
      rewrite (processAll_app E pre (item :: post) 0 [] _ resolved h Hpre).
      cbn [processAll Nat.add]. unfold bind at 1. rewrite Hi.
      destruct ri as [photo|e].
      - destruct (processAll E (S (List.length pre)) post (resolved ++ [photo])
                    _) as [[ps|e] hp] eqn:Hpost.
        + destruct (processAll_grows E _ _ _ _ _ _ Hpost) as [evs ->].
          unfold bind, ask, effect. cbn [snd].
          eexists. rewrite <- (app_assoc _ evs). reflexivity.
        + destruct (processAll_grows E _ _ _ _ _ _ Hpost) as [evs ->].
          cbn [snd]. now exists evs.
      - cbn [snd]. exists []. now rewrite app_nil_r. }
    destruct Hto as (w & hh & tl & Hto). rewrite Hto in F.
    apply toFile_stays in F. apply Forall_app in F as [_ F].
    inversion F as [|? ? Hx _]. discriminate.
  - intros Hfresh. unfold main.
    destruct (readSource E) as [v|] eqn:Hr; [|constructor].
    destruct v as [| | | | |parsed|]; try constructor.
    unfold bind at 1. unfold effect at 1.
    destruct (mkdirOk E [] (GENERATED_DIR E)) eqn:Hm1;
      [|now repeat constructor].
    unfold bind at 1. unfold effect at 1. cbn [app].
    destruct (mkdirOk E _ (THUMBS_PUBLIC_DIR E)) eqn:Hm2;
      [|now repeat constructor].
    assert (Hloop : forall rest pre resolved hpre r' h',
                parsed = pre ++ rest ->
                processAll E 0 pre []
                  [Mkdir (GENERATED_DIR E); Mkdir (THUMBS_PUBLIC_DIR E)]
                = (Ok resolved, hpre) ->
                Forall (fun ev => isToFile ev = false) hpre ->
                processAll E (List.length pre) rest resolved hpre = (r', h') ->
                Forall (fun ev => isToFile ev = false) h').
    { induction rest as [|item rest IH];
        intros pre resolved hpre r' h' Hp Hpre F Hrest; cbn [processAll] in Hrest.
      - injection Hrest as _ <-. exact F.
      - unfold bind in Hrest.
        destruct (processItem E (List.length pre) item hpre) as [ri hi] eqn:Hi.
        assert (Fi : Forall (fun ev => isToFile ev = false) hi).
        { destruct (processItem_cases E _ item hpre hi ri Hi)
            as [(-> & _)|[(-> & _)
               |(w & hh & _ & _ & Hs & _ & _ & _ & Hres)]].
          - exact F.
          - apply Forall_app. split; [exact F|now repeat constructor].
          - exfalso.
            assert (Hcmp : compares E item hpre).
            { exists pre, rest, resolved. rewrite Hr, Hp.
              repeat split; try assumption. rewrite Hi. cbn [fst].
              destruct Hres as [(-> & _)|(photo & -> & _)]; exact I. }
            rewrite (Hfresh item hpre Hcmp) in Hs. discriminate. }
        destruct ri as [photo|e].
        + apply (IH (pre ++ [item]) (resolved ++ [photo]) hi r' h').
          * rewrite <- app_assoc. exact Hp.
          * rewrite (processAll_app E pre [item] 0 [] _ resolved hpre Hpre).
            cbn [processAll Nat.add]. unfold bind. now rewrite Hi.
          * exact Fi.
          * rewrite length_app. simpl List.length.
            now rewrite Nat.add_1_r.
        + injection Hrest as _ <-. exact Fi. }
    assert (F0 : Forall (fun ev => isToFile ev = false)
                   [Mkdir (GENERATED_DIR E); Mkdir (THUMBS_PUBLIC_DIR E)])
      by now repeat constructor.
    unfold bind at 1.
    destruct (processAll E 0 parsed [] _) as [[ps|e] hp] eqn:Hp.
    + pose proof (Hloop parsed [] [] _ _ hp eq_refl eq_refl F0 Hp) as F.
      unfold bind, ask, effect. cbn [snd].
      apply Forall_app. split; [exact F|now repeat constructor].
    + exact (Hloop parsed [] [] _ _ hp eq_refl eq_refl F0 Hp).
Qed.

Lemma fresh_run_writes_no_thumbnail_witness :
  Forall (fun ev => isToFile ev = false)
         (snd (main (demo.secondRun [demo.rome; demo.rome]) []))
  /\ staleAfter (demo.secondRun [demo.rome; demo.rome]) demo.noSrc [] = true.
Proof.
  split; [|reflexivity].
  apply (proj2 (fresh_run_writes_no_thumbnail
                  (demo.secondRun [demo.rome; demo.rome]))).
  intros item h (pre & post & resolved & Hr & _ & _ & Hpre & _).
  injection Hr as Hr.
  destruct pre as [|a [|b [|c pre]]].
  - injection Hr as <- _. injection Hpre as _ <-. reflexivity.
  - injection Hr as <- <- _. vm_compute in Hpre. injection Hpre as _ <-.
    reflexivity.
  - injection Hr as _ _ Hx. discriminate.
  - injection Hr as _ _ Hx. destruct pre; discriminate.
Defined.

(** X14. The input decides whether a run touches anything.  When the
    source file cannot be read or parsed the run fails with that failure,
    and when it holds something else than an array it fails with
    ["Expected an array in <SOURCE_JSON>"]; in both cases, and in no
    other, the run has no effect at all.  On an array the first effect is
    the request for [GENERATED_DIR]; on the empty array, where the two
    directories can be made, the effects are those two requests and the
    write of a manifest without photos. *)
Theorem input_rejection (E : Env) :
  (snd (main E []) = []
   <-> (E.(readSource) = None
        \/ exists v, E.(readSource) = Some v /\ forall l, v <> VArr l))
  /\ (E.(readSource) = None -> run E = (1, [])
                               /\ fst (main E []) = Err ReadFailure)
  /\ (forall v, E.(readSource) = Some v -> (forall l, v <> VArr l) ->
        run E = (1, []) /\ fst (main E []) = Err NotAnArray
        /\ message E NotAnArray
           = Some (lit "Expected an array in " ++ SOURCE_JSON E))
  /\ (forall parsed, E.(readSource) = Some (VArr parsed) ->
        exists rest, snd (main E []) = Mkdir (GENERATED_DIR E) :: rest)
  /\ (E.(readSource) = Some (VArr []) ->
      E.(mkdirOk) [] (GENERATED_DIR E) = true ->
      E.(mkdirOk) [Mkdir (GENERATED_DIR E)] (THUMBS_PUBLIC_DIR E) = true ->
      exists m,
        snd (main E [])
        = [Mkdir (GENERATED_DIR E); Mkdir (THUMBS_PUBLIC_DIR E);
           WriteFile (MANIFEST_JSON E) m]
        /\ m.(photos) = []).
Proof.
  assert (Harr : forall parsed, E.(readSource) = Some (VArr parsed) ->
            exists rest, snd (main E []) = Mkdir (GENERATED_DIR E) :: rest).
  { intros parsed Hr. destruct (main E []) as [r h] eqn:Hm. cbn [snd].
    destruct (main_cases E r h Hm)
      as [(Hx & _)|[(v & Hx & Hna & _)|(parsed' & _ & Hc)]].
    - congruence.
    - rewrite Hr in Hx. injection Hx as <-. now destruct (Hna parsed).
    - destruct Hc as [(_ & _ & ->)|[(_ & _ & ->)|[(e & Hall & _)
                     |(ps & hp & Hall & -> & _)]]].
      + now eexists.
      + now eexists.
      + destruct (quiet_processAll E _ _ _ _ _ _ Hall) as [(evs & -> & _) _].
        now eexists.
      + destruct (quiet_processAll E _ _ _ _ _ _ Hall) as [(evs & -> & _) _].
        now eexists. }
  assert (Hnone : E.(readSource) = None -> main E [] = (Err ReadFailure, [])).
  { intros Hr. unfold main. now rewrite Hr. }
  assert (Hna : forall v, E.(readSource) = Some v -> (forall l, v <> VArr l) ->
                          main E [] = (Err NotAnArray, [])).
  { intros v Hr Hv. unfold main. rewrite Hr.
    destruct v; try reflexivity. now destruct (Hv items). }
  split; [split|split; [|split; [|split]]].
  - intros Hh. destruct (readSource E) as [v|] eqn:Hr; [|now left].
    right. exists v. split; [reflexivity|]. intros l ->.
    destruct (Harr l eq_refl) as [rest Hrest]. congruence.
  - intros [Hr|(v & Hr & Hv)].
    + now rewrite (Hnone Hr).
    + now rewrite (Hna v Hr Hv).
  - intros Hr. unfold run. rewrite (Hnone Hr). now split.
  - intros v Hr Hv. unfold run. rewrite (Hna v Hr Hv). now repeat split.
  - exact Harr.
  - intros Hr H1 H2. unfold main. rewrite Hr.
    unfold bind, effect, ask, processAll, ret. rewrite H1. cbn [app].
    rewrite H2. cbn [app snd]. eexists. split; reflexivity.
Qed.

(** X15. The index an error carries is the position of the entry it is
    about: when a run fails with an error for index [i], the input is an
    array that has an entry at [i], the entries before it were resolved,
    and it is the work on that entry that failed so; for the error of the
    check of line 87 the [src] of that entry is there and is not a
    string, for a missing file the path is the one of that entry. *)
Theorem error_index_is_position (E : Env) (e : error) (h : history)
        (i : nat) :
  main E [] = (Err e, h) ->
  (e = InvalidDescriptor i \/ e = CoercionFailure i
   \/ exists p, e = MissingSourceFile i p) ->
  exists pre item post resolved h1,
    E.(readSource) = Some (VArr (pre ++ item :: post))
    /\ List.length pre = i
    /\ nth_error (pre ++ item :: post) i = Some item
    /\ Forall2 (resolves E) pre resolved
    /\ processItem E i item h1 = (Err e, h)
    /\ (e = InvalidDescriptor i ->
        isString (nullish (optProp item (lit "src")) (VStr [])) = false)
    /\ (forall p, e = MissingSourceFile i p -> p = absSrcOf E item).
Proof.
  intros Hm He.
  destruct (main_cases E _ _ Hm)
    as [(_ & Hx & _)|[(v & _ & _ & Hx & _)|(parsed & Hr & Hc)]].
  1,2: injection Hx as ->; destruct He as [He|[He|[p He]]]; discriminate.
  destruct Hc as [(_ & Hx & _)|[(_ & Hx & _)|[(e' & Hall & Hx)
                 |(ps & hp & _ & _ & Hx)]]].
  1,2: injection Hx as ->; destruct He as [He|[He|[p He]]]; discriminate.
  2:{ cbv zeta in Hx. destruct (writeFileOk E hp _ _); [discriminate|].
      injection Hx as ->. destruct He as [He|[He|[p He]]]; discriminate. }
  injection Hx as <-.
  destruct (processAll_failure E _ _ _ _ _ _ Hall)
    as (pre & item & post & ps & h1 & -> & Hpre & Hitem).
  cbn [Nat.add] in Hitem.
  pose proof (entry_facts.processItem_cases E _ item h1 h _ Hitem) as Hcases.
  assert (Hidx : List.length pre = i).
  { destruct Hcases
      as [(_ & [Hx|[Hx|Hx]])
         |[(_ & [(Hx & _)|(_ & [Hx|[Hx|(_ & p & Hx)]])])
          |(w & hh & _ & _ & _ & _ & _ & _ & [(Hx & _)|(p & Hx & _)])]];
      try discriminate; injection Hx as ->;
      destruct He as [He|[He|[p He]]]; congruence. }
  rewrite Hidx in Hitem.
  apply processAll_ok in Hpre as (qs & _ & F2).
  exists pre, item, post, qs, h1. repeat split; try assumption.
  - rewrite nth_error_app2 by lia. rewrite <- Hidx, Nat.sub_diag. reflexivity.
  - intros ->.
    destruct (nullish (optProp item (lit "src")) (VStr [])) eqn:Hs;
      try reflexivity.
    exfalso. apply (validation_facts.processItem_string E i i item h1 s Hs).
    now rewrite Hitem.
  - intros p ->. rewrite <- Hidx in Hitem.
    destruct (entry_facts.processItem_cases E _ item h1 h _ Hitem)
      as [(_ & [Hx|[Hx|Hx]])
         |[(_ & [(Hx & _)|(_ & [Hx|[Hx|(_ & q & Hx)]])])
          |(w & hh & _ & _ & _ & _ & _ & _ & [(Hx & _)|(q & Hx & _)])]];
      try discriminate. now injection Hx.
Qed.

Lemma error_index_is_position_witness :
  exists item,
    nth_error [demo.rome; demo.noSrc; demo.rome] 1 = Some item
    /\ absSrcOf (demo.world [demo.rome; demo.noSrc; demo.rome]) item
       = lit "/srv/site/public".
Proof.
  pose (E := demo.world [demo.rome; demo.noSrc; demo.rome]).
  assert (Hm : main E []
               = (Err (MissingSourceFile 1 (lit "/srv/site/public")),
                  snd (main E []))) by (vm_compute; reflexivity).
  destruct (error_index_is_position E _ _ 1%nat Hm
              (or_intror (or_intror (ex_intro _ _ eq_refl))))
    as (pre & item & post & resolved & h1 & Hr & _ & Hn & _ & _ & _ & Hp).
  exists item. split.
  - injection Hr as Hr. rewrite Hr. exact Hn.
  - symmetry. now apply Hp.
Defined.

(* ================================================================== *)
(** ** Further properties of the script: text fields and validation *)

Module text_facts.

Lemma trimStart_blank (s : jsstring) :
  trimStart s = [] <-> forallb isWhiteSpace s = true.
Proof.
  induction s as [|c s IH]; simpl; [now split|].
  destruct (isWhiteSpace c); simpl; [exact IH|].
  split; discriminate.
Qed.

Lemma blank_trimStart (s : jsstring) :
  forallb isWhiteSpace (trimStart s) = forallb isWhiteSpace s.
Proof.
  induction s as [|c s IH]; simpl; [reflexivity|].
  destruct (isWhiteSpace c) eqn:Hc; simpl; [exact IH|].
  now rewrite Hc.
Qed.

(** A string trims to the empty string exactly when it is blank. *)
Lemma trim_blank (s : jsstring) :
  trim s = [] <-> forallb isWhiteSpace s = true.
Proof.
  unfold trim, trimEnd. rewrite <- blank_trimStart.
  rewrite <- (forallb_rev_eq isWhiteSpace (trimStart s)).
  rewrite <- trimStart_blank. split.
  - intros H. apply (f_equal (@rev N)) in H.
    now rewrite rev_involutive in H.
  - intros ->. reflexivity.
Qed.

Lemma trimStart_idem (s : jsstring) : trimStart (trimStart s) = trimStart s.
Proof.
  induction s as [|c s IH]; simpl; [reflexivity|].
  destruct (isWhiteSpace c) eqn:Hc; [exact IH|]. simpl. now rewrite Hc.
Qed.

Lemma trimStart_snoc (l : jsstring) (c : N) :
  isWhiteSpace c = false -> exists l', trimStart (l ++ [c]) = l' ++ [c].
Proof.
  intros Hc. induction l as [|x l IH]; simpl.
  - rewrite Hc. now exists [].
  - destruct (isWhiteSpace x); [exact IH|]. now exists (x :: l).
Qed.

Lemma trimStart_head (s : jsstring) :
  match trimStart s with
  | [] => True
  | c :: _ => isWhiteSpace c = false
  end.
Proof.
  induction s as [|c s IH]; simpl; [exact I|].
  destruct (isWhiteSpace c) eqn:Hc; [exact IH|exact Hc].
Qed.

Lemma trimStart_fixed (c : N) (t : jsstring) :
  isWhiteSpace c = false -> trimStart (c :: t) = c :: t.
Proof. intros H. simpl. now rewrite H. Qed.

Lemma last_rev (x : jsstring) (d : N) : last (rev x) d = hd d x.
Proof.
  destruct x as [|c x]; [reflexivity|]. simpl rev. apply last_app_one.
Qed.

(** What [trim] answers neither starts nor ends with white space. *)
Lemma trim_edges (s : jsstring) :
  trim s = []
  \/ exists c t, trim s = c :: t /\ isWhiteSpace c = false
                 /\ isWhiteSpace (last (c :: t) 0%N) = false.
Proof.
  unfold trim, trimEnd.
  pose proof (trimStart_head s) as Hc.
  destruct (trimStart s) as [|c a]; [now left|].
  right. simpl rev.
  destruct (trimStart_snoc (rev a) c Hc) as [l' Hl'].
  pose proof (trimStart_head (rev a ++ [c])) as Hb.
  exists c, (rev l'). rewrite Hl' in *. rewrite rev_app_distr.
  split; [reflexivity|]. split; [exact Hc|].
  change (c :: rev l') with (rev [c] ++ rev l').
  rewrite <- rev_app_distr, last_rev.
  destruct (l' ++ [c]) as [|x y] eqn:Hx; [destruct l'; discriminate|].
  exact Hb.
Qed.

Lemma trim_idem (s : jsstring) : trim (trim s) = trim s.
Proof.
  destruct (trim_edges s) as [->|(c & t & -> & Hc & Hl)]; [reflexivity|].
  unfold trim, trimEnd. rewrite (trimStart_fixed c t Hc).
  rewrite <- (rev_involutive (c :: t)) in Hl. rewrite last_rev in Hl.
  destruct (rev (c :: t)) as [|x y] eqn:Hr.
  - apply (f_equal (@rev N)) in Hr. rewrite rev_involutive in Hr.
    discriminate.
  - simpl hd in Hl. rewrite (trimStart_fixed x y Hl), <- Hr.
    apply rev_involutive.
Qed.

(** An entry that is resolved has a [src] that was a string, or was
    missing. *)
Lemma processItem_ok_string (E : Env) (idx : nat) (item : value)
      (h h' : history) (photo : GalleryPhoto) :
  processItem E idx item h = (Ok photo, h') ->
  exists s, nullish (optProp item (lit "src")) (VStr []) = VStr s.
Proof.
  intros H. pose proof (processItem_ok E idx item h h' photo H) as R.
  destruct R as (_ & _ & _ & T1 & T2 & T3 & T4 & _).
  destruct (nullish (optProp item (lit "src")) (VStr [])) as [| | | |s| |] eqn:Hs;
    try (rewrite (validation_facts.processItem_not_string E idx item h
                    _ _ _ _ ltac:(now rewrite Hs) T1 T2 T3 T4) in H;
         discriminate).
  now exists s.
Qed.

(** What holds of every photo of a manifest, when it holds of every entry
    the loop body resolves. *)
Lemma manifest_photos (E : Env) (Q : GalleryPhoto -> Prop) :
  (forall idx item h photo h',
      processItem E idx item h = (Ok photo, h') -> Q photo) ->
  forall path m photo,
    In (WriteFile path m) (snd (main E [])) -> In photo m.(photos) ->
    Q photo.
Proof.
  intros HQ path m photo Hin Hphoto.
  assert (Hall : forall items idx photos h ps h',
            Forall Q photos ->
            processAll E idx items photos h = (Ok ps, h') -> Forall Q ps).
  { induction items as [|item rest IH]; intros idx photos h ps h' F H;
      cbn [processAll] in H.
    - injection H as <- _. exact F.
    - unfold bind in H.
      destruct (processItem E idx item h) as [[p|e] h1] eqn:Hi; [|discriminate].
      apply (IH _ _ _ _ _ (proj2 (Forall_app _ _ _)
                                 (conj F (Forall_cons _ (HQ _ _ _ _ _ Hi)
                                                      (Forall_nil _)))) H). }
  destruct (main E []) as [r h] eqn:Hm. cbn [snd] in Hin.
  destruct (main_cases E r h Hm)
    as [(_ & _ & ->)|[(v & _ & _ & _ & ->)|(parsed & _ & Hc)]];
    try destruct Hin.
  assert (Hq : forall r0 hp, processAll E 0 parsed []
                 [Mkdir (GENERATED_DIR E); Mkdir (THUMBS_PUBLIC_DIR E)]
                 = (r0, hp) -> ~ In (WriteFile path m) hp).
  { intros r0 hp Hp Hi.
    destruct (quiet_processAll E _ _ _ _ _ _ Hp) as [(evs & -> & F) _].
    destruct Hi as [Hi|[Hi|Hi]]; try discriminate.
    rewrite Forall_forall in F. exact (F _ Hi). }
  destruct Hc as [(_ & _ & ->)|[(_ & _ & ->)|[(e & Hp & _)
                 |(ps & hp & Hp & -> & _)]]].
  - destruct Hin as [Hin|[]]; discriminate.
  - destruct Hin as [Hin|[Hin|[]]]; discriminate.
  - now destruct (Hq _ _ Hp).
  - apply in_app_or in Hin as [Hin|[Hin|[]]]; [now destruct (Hq _ _ Hp)|].
    injection Hin as _ <-. cbn [photos] in Hphoto.
    pose proof (Hall _ _ _ _ _ _ (Forall_nil _) Hp) as F.
    rewrite Forall_forall in F. now apply F.
Qed.

End text_facts.

Import text_facts.

(** X16. [isNonEmptyString] accepts exactly the strings that hold a
    character that is not white space, and nothing that is not a
    string. *)
Theorem isNonEmptyString_spec (x : value) :
  isNonEmptyString x
  = match x with
    | VStr s => negb (forallb isWhiteSpace s)
    | _ => false
    end.
Proof.
  destruct x as [| | | |s| |]; try reflexivity.
  unfold isNonEmptyString.
  destruct (forallb isWhiteSpace s) eqn:Hb.
  - apply trim_blank in Hb. now rewrite Hb.
  - destruct (trim s) as [|c t] eqn:Ht.
    + apply trim_blank in Ht. congruence.
    + cbn [negb]. apply Z.ltb_lt. rewrite len_cons.
      pose proof (len_nonneg t). lia.
Qed.

(** X17. The text fields of every photo of a manifest are trimmed: each is
    empty or starts and ends with a character that is not white space, and
    trimming it again changes nothing.  A field that is missing or [null]
    in the descriptor is the empty string. *)
Theorem manifest_text_trimmed (E : Env) (path : jsstring)
        (m : GalleryManifest) (photo : GalleryPhoto) :
  In (WriteFile path m) (snd (main E [])) -> In photo m.(photos) ->
  Forall (fun t =>
            trim t = t
            /\ (t = [] \/ (isWhiteSpace (hd 0%N t) = false
                          /\ isWhiteSpace (last t 0%N) = false)))
         [photo.(title); photo.(shotUsing); photo.(location);
          photo.(description)]
  /\ forall item k,
       nullish (optProp item (lit k)) (VStr []) = VStr [] ->
       textOf E item k = Some [].
Proof.
  intros Hin Hphoto. split.
  - revert path m photo Hin Hphoto. apply manifest_photos.
    intros idx item h photo h' H.
    destruct (processItem_ok E idx item h h' photo H)
      as (_ & _ & _ & T1 & T2 & T3 & T4 & _).
    assert (G : forall k t, textOf E item k = Some t ->
                trim t = t
                /\ (t = [] \/ (isWhiteSpace (hd 0%N t) = false
                              /\ isWhiteSpace (last t 0%N) = false))).
    { intros k t Ht. unfold textOf in Ht.
      destruct (toJsString _ _) as [x|]; [|discriminate].
      injection Ht as <-. split; [apply trim_idem|].
      destruct (trim_edges x) as [->|(c & u & -> & Hc & Hl)];
        [now left|right; now split]. }
    constructor; [exact (G _ _ T1)|]. constructor; [exact (G _ _ T2)|].
    constructor; [exact (G _ _ T3)|]. constructor; [exact (G _ _ T4)|].
    constructor.
  - intros item k Hk. unfold textOf. now rewrite Hk.
Qed.

Lemma manifest_text_trimmed_witness :
  List.map title (demo.written (demo.world [demo.rome])) = [lit "Forum"]
  /\ Forall (fun p => trim p.(title) = p.(title))
            (demo.written (demo.world [demo.rome])).
Proof.
  split; [vm_compute; reflexivity|].
  pose (E := demo.world [demo.rome]).
  assert (Hin : In (WriteFile (MANIFEST_JSON E) (demo.writtenManifest E))
                   (snd (main E []))).
  { vm_compute. repeat (try (left; reflexivity); right). }
  apply Forall_forall. intros photo Hphoto.
  destruct (manifest_text_trimmed E (MANIFEST_JSON E)
              (demo.writtenManifest E) photo Hin Hphoto) as [F _].
  inversion F as [|? ? [Ht _] _]. exact Ht.
Defined.

(** X18. The URLs of every photo of a manifest are normalised: [src]
    starts with a slash and holds no backslash, [thumbSrc] starts with a
    slash, holds no backslash and ends in [".jpg"], and neither dimension
    of the source is 0. *)
Theorem manifest_urls_normalized (E : Env) (path : jsstring)
        (m : GalleryManifest) (photo : GalleryPhoto) :
  In (WriteFile path m) (snd (main E [])) -> In photo m.(photos) ->
  (exists rest, photo.(src) = CHAR_FORWARD_SLASH :: rest)
  /\ noBackslash photo.(src) = true
  /\ normalizeUrlPath (VStr photo.(src)) = photo.(src)
  /\ (exists rest, photo.(thumbSrc) = CHAR_FORWARD_SLASH :: rest)
  /\ noBackslash photo.(thumbSrc) = true
  /\ (exists r, photo.(thumbSrc) = r ++ lit ".jpg")
  /\ photo.(width) <> 0 /\ photo.(height) <> 0.
Proof.
  revert path m photo. apply manifest_photos.
  intros idx item h photo h' H.
  destruct (processItem_ok_string E idx item h h' photo H) as [s Hs].
  destruct (processItem_ok E idx item h h' photo H)
    as (Hsrc & _ & Hth & _ & _ & _ & _ & Hw & Hh & _).
  rewrite Hs in Hsrc. rewrite Hth.
  destruct (normalizeUrlPath_string s) as (rest & Hr & Hnb & _).
  destruct (toThumbUrl_slash (VStr (src photo))) as (rest2 & Hr2 & Hnb2).
  rewrite Hsrc. repeat split; try assumption.
  - now exists rest.
  - apply normalizeUrlPath_idem.
  - rewrite <- Hsrc. now exists rest2.
  - rewrite <- Hsrc, Hr2. exact Hnb2.
  - apply toThumbUrl_jpg.
Qed.

Lemma manifest_urls_normalized_witness :
  List.map (fun p => (p.(src), p.(thumbSrc)))
           (demo.written (demo.world [demo.rome]))
  = [(lit "/photos/Rome-01.PNG", lit "/gallery/thumbs/photos/Rome-01.jpg")]
  /\ Forall (fun p => noBackslash p.(src) = true)
            (demo.written (demo.world [demo.rome])).
Proof.
  split; [vm_compute; reflexivity|].
  pose (E := demo.world [demo.rome]).
  assert (Hin : In (WriteFile (MANIFEST_JSON E) (demo.writtenManifest E))
                   (snd (main E []))).
  { vm_compute. repeat (try (left; reflexivity); right). }
  apply Forall_forall. intros photo Hphoto.
  exact (proj1 (proj2 (manifest_urls_normalized E (MANIFEST_JSON E)
                         (demo.writtenManifest E) photo Hin Hphoto))).
Defined.

(* ================================================================== *)
(** ** Further properties of the script: identifiers *)

Module id_more.
Import IdSpec.

(** The characters an identifier is made of besides the hyphen:
    [[a-z0-9_]]. *)
Definition wordChar (c : N) : bool := idChar c && negb (N.eqb c CHAR_HYPHEN).

Definition allHyphens (s : jsstring) : bool :=
  forallb (fun c => N.eqb c CHAR_HYPHEN) s.

Lemma trimLeading_nil (s : jsstring) :
  trimLeading s = [] <-> allHyphens s = true.
Proof.
  induction s as [|c s IH]; simpl; [now split|].
  destruct (N.eqb c CHAR_HYPHEN); simpl; [exact IH|]. split; discriminate.
Qed.

Lemma allHyphens_trimLeading (s : jsstring) :
  allHyphens (trimLeading s) = allHyphens s.
Proof.
  induction s as [|c s IH]; simpl; [reflexivity|].
  destruct (N.eqb c CHAR_HYPHEN) eqn:Hc; simpl; [exact IH|]. now rewrite Hc.
Qed.

Lemma trimHyphens_nil (s : jsstring) :
  trimHyphens s = [] <-> allHyphens s = true.
Proof.
  unfold trimHyphens. rewrite <- allHyphens_trimLeading.
  unfold allHyphens at 1. rewrite <- (forallb_rev_eq _ (trimLeading s)).
  fold (allHyphens (rev (trimLeading s))). rewrite <- trimLeading_nil.
  split.
  - intros H. apply (f_equal (@rev N)) in H.
    now rewrite rev_involutive in H.
  - intros ->. reflexivity.
Qed.

Lemma allHyphens_collapseRuns (s : jsstring) :
  allHyphens (collapseRuns s) = allHyphens s.
Proof.
  induction s as [|c s IH]; [reflexivity|].
  cbn [collapseRuns]. destruct (N.eqb c CHAR_HYPHEN) eqn:Hc.
  - destruct s as [|d s']; [simpl; now rewrite Hc|].
    destruct (N.eqb d CHAR_HYPHEN) eqn:Hd.
    + rewrite IH. simpl. now rewrite Hc, Hd.
    + cbn [allHyphens forallb]. fold (allHyphens (collapseRuns (d :: s'))).
      rewrite IH, Hc. reflexivity.
  - cbn [allHyphens forallb]. now rewrite Hc.
Qed.

Lemma allHyphens_filter (s : jsstring) :
  allHyphens (stripOutside (replaceSeparators s))
  = forallb (fun c => negb (wordChar c)) s.
Proof.
  unfold stripOutside, replaceSeparators, allHyphens.
  induction s as [|c s IH]; [reflexivity|].
  cbn [List.map filter forallb]. rewrite <- IH. clear IH.
  unfold wordChar.
  destruct (N.eqb c CHAR_FORWARD_SLASH) eqn:H1.
  { apply N.eqb_eq in H1. subst c. reflexivity. }
  destruct (N.eqb c CHAR_DOT) eqn:H2.
  { apply N.eqb_eq in H2. subst c. reflexivity. }
  cbn [orb]. destruct (idChar c) eqn:Hi; cbn [forallb andb negb].
  - destruct (N.eqb c CHAR_HYPHEN); reflexivity.
  - reflexivity.
Qed.

Lemma replaceSeparators_app (a b : jsstring) :
  replaceSeparators (a ++ b) = replaceSeparators a ++ replaceSeparators b.
Proof. apply map_app. Qed.

End id_more.

Import id_more.

(** X19. The identifier of a source is empty exactly when its normalised,
    lower-cased URL holds no character of [[a-z0-9_]]: so it is for a
    [src] that is missing wherever ["/"] is its own lower case. *)
Theorem stableIdFromSrc_empty (E : Env) (source : jsstring) :
  (stableIdFromSrc E (VStr source) = []
   <-> forallb (fun c => negb (wordChar c))
               (E.(toLowerCase) (normalizeUrlPath (VStr source))) = true)
  /\ (E.(toLowerCase) (lit "/") = lit "/" -> stableIdFromSrc E (VStr []) = []).
Proof.
  assert (G : forall s, stableIdFromSrc E (VStr s) = []
              <-> forallb (fun c => negb (wordChar c))
                          (E.(toLowerCase) (normalizeUrlPath (VStr s))) = true).
  { intros s. rewrite stableIdFromSrc_deriveId. unfold IdSpec.deriveId.
    rewrite trimHyphens_nil, allHyphens_collapseRuns, allHyphens_filter.
    reflexivity. }
  split; [apply G|].
  intros Hl. apply G.
  change (normalizeUrlPath (VStr [])) with (lit "/"). now rewrite Hl.
Qed.

(** X20. Identifiers collide: where lower-casing works character by
    character and leaves ["/"], ["."] and ["-"] alone, a slash, a dot and
    a hyphen at the same place of two sources give the same identifier. *)
Theorem stableIdFromSrc_separator_collision (E : Env) (lower : N -> N)
        (a b : jsstring) :
  (forall s, E.(toLowerCase) s = List.map lower s) ->
  lower CHAR_FORWARD_SLASH = CHAR_FORWARD_SLASH ->
  lower CHAR_DOT = CHAR_DOT -> lower CHAR_HYPHEN = CHAR_HYPHEN ->
  noBackslash a = true -> noBackslash b = true ->
  stableIdFromSrc E (VStr (lit "/" ++ a ++ lit "/" ++ b))
  = stableIdFromSrc E (VStr (lit "/" ++ a ++ lit "-" ++ b))
  /\ stableIdFromSrc E (VStr (lit "/" ++ a ++ lit "." ++ b))
     = stableIdFromSrc E (VStr (lit "/" ++ a ++ lit "-" ++ b)).
Proof.
  intros Hlow Hs Hd Hh Ha Hb.
  assert (G : forall c, negb (N.eqb c CHAR_BACKWARD_SLASH) = true ->
              IdSpec.replaceSeparators [lower c] = [CHAR_HYPHEN] ->
              stableIdFromSrc E (VStr (lit "/" ++ a ++ [c] ++ b))
              = IdSpec.trimHyphens
                  (IdSpec.collapseRuns
                     (IdSpec.stripOutside
                        (IdSpec.replaceSeparators (List.map lower (lit "/" ++ a))
                         ++ [CHAR_HYPHEN]
                         ++ IdSpec.replaceSeparators (List.map lower b))))).
  { intros c Hc Hrep. rewrite stableIdFromSrc_deriveId. unfold IdSpec.deriveId.
    change (lit "/" ++ a ++ [c] ++ b) with (CHAR_FORWARD_SLASH :: a ++ [c] ++ b).
    rewrite normalizeUrlPath_fixed.
    2:{ rewrite !noBackslash_app, Ha, Hb. cbn. now rewrite Hc. }
    rewrite Hlow.
    change (CHAR_FORWARD_SLASH :: a ++ [c] ++ b)
      with ((lit "/" ++ a) ++ [c] ++ b).
    rewrite !map_app, !replaceSeparators_app. cbn [List.map].
    now rewrite Hrep. }
  change (lit "/" ++ a ++ lit "/" ++ b)
    with (lit "/" ++ a ++ [CHAR_FORWARD_SLASH] ++ b).
  change (lit "/" ++ a ++ lit "." ++ b) with (lit "/" ++ a ++ [CHAR_DOT] ++ b).
  change (lit "/" ++ a ++ lit "-" ++ b)
    with (lit "/" ++ a ++ [CHAR_HYPHEN] ++ b).
  rewrite (G CHAR_FORWARD_SLASH), (G CHAR_DOT), (G CHAR_HYPHEN);
    try reflexivity; try (now rewrite Hs); try (now rewrite Hd);
    try (now rewrite Hh).
  split; reflexivity.
Qed.

Lemma stableIdFromSrc_separator_collision_witness :
  stableIdFromSrc (demo.world []) (VStr (lit "/photos/rome.jpg"))
  = stableIdFromSrc (demo.world []) (VStr (lit "/photos-rome.jpg")).
Proof.
  exact (proj1 (stableIdFromSrc_separator_collision (demo.world [])
                  (fun c => if N.leb 65 c && N.leb c 90 then (c + 32)%N else c)
                  (lit "photos") (lit "rome.jpg")
                  (fun s => eq_refl) eq_refl eq_refl eq_refl eq_refl eq_refl)).
Defined.

(* ================================================================== *)
(** ** Further properties of the script: the thumbnail box *)

(** X21. For a source of [w] x [h] pixels, both below [2^32], the
    thumbnail box is never larger than the source in either dimension,
    and a source that is 900 wide at most keeps its dimensions: the
    rounding of [(h / w) * w] in doubles does not lose [h]. *)
Theorem thumbnail_box_within_source (w h : Z) :
  0 < w < 2 ^ 32 -> 0 < h < 2 ^ 32 ->
  thumbWidthOf w <= w
  /\ 1 <= thumbHeightOf w h <= h
  /\ (w <= THUMB_WIDTH -> thumbWidthOf w = w /\ thumbHeightOf w h = h).
Proof.
  intros Hw Hh.
  destruct (thumbHeightOf_exact w h Hw Hh) as [Hor Hne].
  assert (Htw : 0 < thumbWidthOf w <= w)
    by (unfold thumbWidthOf, THUMB_WIDTH; lia).
  assert (Hrd : roundDiv (h * thumbWidthOf w) w <= h).
  { unfold roundDiv. apply Z.lt_succ_r.
    apply Z.div_lt_upper_bound; [lia|]. nia. }
  split; [lia|]. split.
  - split; [unfold thumbHeightOf; lia|]. destruct Hor as [-> | ->]; lia.
  - intros Hsmall.
    assert (Heq : thumbWidthOf w = w)
      by (unfold thumbWidthOf, THUMB_WIDTH in *; lia).
    split; [exact Heq|]. rewrite Hne; rewrite Heq.
    + unfold roundDiv.
      replace (2 * (h * w) + w) with (h * (2 * w) + w) by ring.
      rewrite Z.div_add_l by lia. rewrite Z.div_small by lia. lia.
    + replace (2 * (h * w) + w) with (w + h * (2 * w)) by ring.
      rewrite Z.mod_add by lia. rewrite Z.mod_small by lia. lia.
Qed.

Lemma thumbnail_box_within_source_witness :
  thumbWidthOf 640 = 640 /\ thumbHeightOf 640 427 = 427.
Proof.
  assert (R1 : 0 < 640 < 2 ^ 32) by (split; reflexivity).
  assert (R2 : 0 < 427 < 2 ^ 32) by (split; reflexivity).
  apply (proj2 (proj2 (thumbnail_box_within_source 640 427 R1 R2))).
  unfold THUMB_WIDTH. lia.
Defined.

(* ================================================================== *)
(** ** Further properties of the script: a [src] that climbs out of
       [public/] *)

Module climb_facts.

Lemma push_push (r s j : jsstring) :
  s <> [] -> push (push r s) j = push r (s ++ CHAR_FORWARD_SLASH :: j).
Proof.
  intros Hs. unfold push.
  assert (Hpos : 0 < len s).
  { destruct s; [congruence|]. rewrite len_cons.
    pose proof (len_nonneg s). lia. }
  destruct (0 <? len r) eqn:Hr.
  - replace (0 <? len (r ++ CHAR_FORWARD_SLASH :: s)) with true.
    + rewrite <- !app_assoc. reflexivity.
    + symmetry. apply Z.ltb_lt. rewrite len_app, len_cons.
      pose proof (len_nonneg r). lia.
  - replace (0 <? len s) with true by (symmetry; now apply Z.ltb_lt).
    reflexivity.
Qed.

(** The state of the loop of [normalizeString] after plain segments and a
    separator. *)
Lemma fold_plain_segments (b : bool) (segs : list jsstring) :
  forall st, segs <> [] -> forallb plainSegment segs = true ->
    st.(posix.segment) = [] -> st.(posix.dots) = 0 ->
    fold_left (step b) (joinSlash segs ++ [CHAR_FORWARD_SLASH]) st
    = posix.mkNstate (push st.(posix.res) (joinSlash segs))
                     (len (last segs [])) [] 0 CHAR_FORWARD_SLASH.
Proof.
  induction segs as [|s segs IH]; intros st Hne Hall Hseg Hd; [congruence|].
  simpl in Hall. apply andb_true_iff in Hall as [Hs Hall].
  destruct segs as [|s2 rest].
  - simpl joinSlash. simpl last. now apply fold_plain_segment.
  - rewrite joinSlash_cons by discriminate.
    replace ((s ++ CHAR_FORWARD_SLASH :: joinSlash (s2 :: rest))
             ++ [CHAR_FORWARD_SLASH])
      with ((s ++ [CHAR_FORWARD_SLASH])
            ++ joinSlash (s2 :: rest) ++ [CHAR_FORWARD_SLASH])
      by (rewrite <- !app_assoc; reflexivity).
    rewrite fold_left_app, (fold_plain_segment b _ st Hs Hseg Hd).
    rewrite IH; try (reflexivity || assumption || discriminate).
    cbn [posix.res]. rewrite push_push.
    + reflexivity.
    + destruct (plainSegment_nonempty s Hs) as (c & s' & -> & _).
      discriminate.
Qed.

Lemma lastIndexOf_from_noSlash (s : jsstring) (i f : Z) :
  noSlash s = true -> lastIndexOf_from CHAR_FORWARD_SLASH s i f = f.
Proof.
  revert i f. induction s as [|c s IH]; intros i f H; [reflexivity|].
  simpl in H. apply andb_true_iff in H as [Hc H]. apply negb_true_iff in Hc.
  cbn [lastIndexOf_from]. rewrite Hc. now apply IH.
Qed.

Lemma lastIndexOf_from_app (a b : jsstring) (i f : Z) :
  lastIndexOf_from CHAR_FORWARD_SLASH (a ++ b) i f
  = lastIndexOf_from CHAR_FORWARD_SLASH b (i + len a)
      (lastIndexOf_from CHAR_FORWARD_SLASH a i f).
Proof.
  revert i f. induction a as [|c a IH]; intros i f.
  - simpl. change (len []) with 0. now rewrite Z.add_0_r.
  - simpl app. cbn [lastIndexOf_from]. rewrite IH, len_cons.
    f_equal. lia.
Qed.

(** The last slash of [a/s], when [s] holds none. *)
Lemma lastIndexOf_segment (a s : jsstring) :
  noSlash s = true ->
  lastIndexOf (a ++ CHAR_FORWARD_SLASH :: s) CHAR_FORWARD_SLASH = len a.
Proof.
  intros Hs. unfold lastIndexOf. rewrite lastIndexOf_from_app.
  cbn [lastIndexOf_from]. rewrite N.eqb_refl.
  now rewrite lastIndexOf_from_noSlash.
Qed.

(** A [".."] segment takes the last segment of the result away again,
    below the root. *)
Lemma onSeparator_parent (b : bool) (r s : jsstring) (c : N) :
  r <> [] -> noSlash s = true -> s <> [] -> len s <> 2 ->
  posix.onSeparator b
    (posix.mkNstate (r ++ CHAR_FORWARD_SLASH :: s) (len s) (lit "..") 2 c)
  = posix.mkNstate r (len r - 1 - lastIndexOf r CHAR_FORWARD_SLASH) [] 0
                   CHAR_FORWARD_SLASH.
Proof.
  intros Hr Hs Hne Hlen. unfold posix.onSeparator.
  cbn [posix.res posix.lastSegmentLength posix.segment posix.dots posix.code].
  change (len (lit "..") =? 0) with false.
  change (2 =? 1) with false. change (2 =? 2) with true. cbn [orb].
  cbv iota.
  replace (len s =? 2) with false by (symmetry; now apply Z.eqb_neq).
  cbn [negb]. rewrite orb_true_r. cbn [orb]. cbv iota.
  assert (Hpos : 0 < len r).
  { destruct r; [congruence|]. rewrite len_cons.
    pose proof (len_nonneg r). lia. }
  assert (Hpos2 : 0 < len s).
  { destruct s; [congruence|]. rewrite len_cons.
    pose proof (len_nonneg s). lia. }
  replace (2 <? len (r ++ CHAR_FORWARD_SLASH :: s)) with true
    by (symmetry; apply Z.ltb_lt; rewrite len_app, len_cons; lia).
  cbv iota. rewrite lastIndexOf_segment by assumption.
  rewrite neqb_m1 by lia. cbv iota.
  now rewrite slice_prefix.
Qed.

Lemma fold_parent_of_public (b : bool) (r : jsstring) :
  r <> [] ->
  exists l,
    fold_left (step b) (lit "../")
      (posix.mkNstate (r ++ lit "/public") 6 [] 0 CHAR_FORWARD_SLASH)
    = posix.mkNstate r l [] 0 CHAR_FORWARD_SLASH.
Proof.
  intros Hr.
  assert (H : fold_left (step b) (lit "../")
                (posix.mkNstate (r ++ lit "/public") 6 [] 0 CHAR_FORWARD_SLASH)
              = posix.onSeparator b
                  (posix.mkNstate (r ++ CHAR_FORWARD_SLASH :: lit "public")
                     (len (lit "public")) (lit "..") 2 CHAR_DOT))
    by reflexivity.
  rewrite H, onSeparator_parent; try discriminate; try reflexivity.
  - now eexists.
  - exact Hr.
Qed.

Lemma normalize_rooted (p q : jsstring) :
  N.eqb (last (CHAR_FORWARD_SLASH :: p) 0%N) CHAR_FORWARD_SLASH = false ->
  posix.normalizeString (CHAR_FORWARD_SLASH :: p) false = q -> q <> [] ->
  posix.normalize (CHAR_FORWARD_SLASH :: p) = CHAR_FORWARD_SLASH :: q.
Proof.
  intros Hlast Hn Hq. unfold posix.normalize.
  rewrite N.eqb_refl. cbn [negb]. rewrite Hn, Hlast.
  destruct q; [congruence|reflexivity].
Qed.

(** [join] of an absolute directory that ends in [/public] with a relative
    path that starts with [../]. *)
Lemma join_climb (roots segs : list jsstring) :
  roots <> [] -> forallb plainSegment roots = true ->
  segs <> [] -> forallb plainSegment segs = true ->
  posix.join [CHAR_FORWARD_SLASH :: joinSlash (roots ++ [lit "public"]);
              lit "../" ++ joinSlash segs]
  = CHAR_FORWARD_SLASH :: joinSlash roots
    ++ CHAR_FORWARD_SLASH :: joinSlash segs.
Proof.
  intros Hr Hrp Hs Hsp. unfold posix.join.
  set (X := joinSlash (roots ++ [lit "public"])).
  change (posix.joinArgs None
            [CHAR_FORWARD_SLASH :: X; lit "../" ++ joinSlash segs])
    with (Some (CHAR_FORWARD_SLASH
                :: X ++ CHAR_FORWARD_SLASH :: lit "../" ++ joinSlash segs)).
  cbv iota beta.
  assert (Hpath : X ++ CHAR_FORWARD_SLASH :: lit "../" ++ joinSlash segs
                  = (X ++ [CHAR_FORWARD_SLASH]) ++ lit "../" ++ joinSlash segs)
    by (rewrite <- app_assoc; reflexivity).
  rewrite Hpath.
  pose proof (joinSlash_nonempty segs Hs Hsp) as Hj.
  pose proof (joinSlash_nonempty roots Hr Hrp) as Hjr.
  apply normalize_rooted.
  - rewrite app_comm_cons.
    rewrite last_app_right by discriminate.
    rewrite last_app_right by assumption. now apply joinSlash_last.
  - unfold posix.normalizeString. cbn [posix.normalizeLoop].
    change (posix.isPosixPathSeparator CHAR_FORWARD_SLASH) with true.
    cbv iota.
    change (posix.onSeparator false (posix.mkNstate [] 0 [] 0 0%N))
      with (posix.mkNstate [] 0 [] 0 CHAR_FORWARD_SLASH).
    rewrite normalizeLoop_fold, fold_left_app.
    rewrite (fold_left_app _ (lit "../") (joinSlash segs)).
    subst X.
    rewrite fold_plain_segments;
      [|destruct roots; discriminate
       |rewrite forallb_app, Hrp; reflexivity|reflexivity|reflexivity].
    cbn [posix.res]. rewrite last_last.
    rewrite joinSlash_app by (assumption || discriminate).
    change (push [] (joinSlash roots ++ CHAR_FORWARD_SLASH
                     :: joinSlash [lit "public"]))
      with (joinSlash roots ++ lit "/public").
    change (len (lit "public")) with 6.
    destruct (fold_parent_of_public false (joinSlash roots) Hjr) as [l ->].
    rewrite finish_plain_segments;
      [|assumption|assumption|reflexivity|reflexivity].
    cbn [posix.res]. unfold push.
    replace (0 <? len (joinSlash roots)) with true; [reflexivity|].
    symmetry. apply Z.ltb_lt. destruct (joinSlash roots); [congruence|].
    rewrite len_cons. pose proof (len_nonneg j). lia.
  - destruct (joinSlash roots); [congruence|discriminate].
Qed.

End climb_facts.

Import climb_facts.

(** X22. A [src] that starts with [/../] names a file outside [public/]:
    when the script runs in [/r1/.../rk], the file of the URL
    [/../s1/.../sn] is [/r1/.../rk/s1/.../sn], since [path.join] resolves
    the [".."] against [public]. *)
Theorem toFsPathFromPublicUrl_climbs (E : Env) (roots segs : list jsstring) :
  E.(cwd) = CHAR_FORWARD_SLASH :: joinSlash roots ->
  roots <> [] -> forallb plainSegment roots = true ->
  segs <> [] -> forallb urlSegment segs = true ->
  toFsPathFromPublicUrl E (VStr (lit "/../" ++ joinSlash segs))
  = E.(cwd) ++ lit "/" ++ joinSlash segs.
Proof.
  intros Hcwd Hr Hrp Hs Hsu.
  destruct (toFsPath_segments E roots segs Hcwd Hr Hrp Hs Hsu) as (Hpub & _).
  unfold urlSegment in Hsu. rewrite forallb_and in Hsu.
  apply andb_true_iff in Hsu as [Hsp Hnb].
  unfold toFsPathFromPublicUrl.
  change (lit "/../" ++ joinSlash segs)
    with (CHAR_FORWARD_SLASH :: lit "../" ++ joinSlash segs).
  rewrite normalizeUrlPath_fixed.
  2:{ rewrite noBackslash_app. now rewrite noBackslash_joinSlash. }
  rewrite stripLeadingSlash_slash.
  assert (Hp : PUBLIC_DIR E
               = CHAR_FORWARD_SLASH :: joinSlash (roots ++ [lit "public"])).
  { rewrite Hpub, Hcwd, joinSlash_app by (assumption || discriminate).
    reflexivity. }
  rewrite Hp, join_climb by assumption. rewrite Hcwd. reflexivity.
Qed.

Lemma toFsPathFromPublicUrl_climbs_witness :
  toFsPathFromPublicUrl (demo.world []) (VStr (lit "/../src/data/gallery.json"))
  = lit "/srv/site/src/data/gallery.json".
Proof.
  exact (toFsPathFromPublicUrl_climbs (demo.world [])
           [lit "srv"; lit "site"]
           [lit "src"; lit "data"; lit "gallery.json"]
           eq_refl ltac:(discriminate) eq_refl ltac:(discriminate) eq_refl).
Defined.

(* ================================================================== *)
(** ** Further properties of the script: the files of one entry *)

Module entry_paths_facts.

(** The directory part of [/d/f], for a file name [f]. *)
Lemma dirname_rooted (d f : jsstring) :
  d <> [] -> noSlash f = true -> f <> [] ->
  posix.dirname (CHAR_FORWARD_SLASH :: d ++ CHAR_FORWARD_SLASH :: f)
  = CHAR_FORWARD_SLASH :: d.
Proof.
  intros Hd Hf Hne. unfold posix.dirname. rewrite N.eqb_refl.
  rewrite rev_app_distr. simpl rev. rewrite <- app_assoc. simpl app.
  destruct (rev f) as [|x rf] eqn:Hrf.
  { apply (f_equal (@rev N)) in Hrf. rewrite rev_involutive in Hrf. now subst f. }
  assert (Hnf : noSlash (x :: rf) = true).
  { rewrite <- Hrf. unfold noSlash. rewrite forallb_rev_eq. exact Hf. }
  simpl in Hnf. apply andb_true_iff in Hnf as [Hx Hrest].
  apply negb_true_iff in Hx.
  simpl app. cbn [posix.dirnameLoop]. rewrite Hx.
  rewrite dirnameLoop_file by assumption.
  assert (Hl : len (rev d) + 1 = len (CHAR_FORWARD_SLASH :: d)).
  { rewrite len_cons. unfold len. now rewrite length_rev. }
  rewrite Hl.
  assert (Hpos : 1 < len (CHAR_FORWARD_SLASH :: d)).
  { rewrite len_cons. destruct d; [congruence|]. rewrite len_cons.
    pose proof (len_nonneg d). lia. }
  replace (len (CHAR_FORWARD_SLASH :: d) =? -1) with false
    by (symmetry; apply Z.eqb_neq; lia).
  replace (len (CHAR_FORWARD_SLASH :: d) =? 1) with false
    by (symmetry; apply Z.eqb_neq; lia).
  cbn [andb].
  change (CHAR_FORWARD_SLASH :: d ++ CHAR_FORWARD_SLASH :: f)
    with ((CHAR_FORWARD_SLASH :: d) ++ CHAR_FORWARD_SLASH :: f).
  apply slice_prefix.
Qed.

End entry_paths_facts.

Import entry_paths_facts.

(** X23. The files of an entry, end to end.  When the script runs in
    [/r1/.../rk] and the [src] of an entry is [/<dir>/<name>.<ext>], with
    plain segments, the picture is read from
    [/r1/.../rk/public/<dir>/<name>.<ext>], the directory that is made is
    [/r1/.../rk/public/gallery/thumbs/<dir>], and the thumbnail is
    [<name>.jpg] in it. *)
Theorem entry_paths (E : Env) (roots : list jsstring) (seg : jsstring)
        (segs : list jsstring) (name ext : jsstring) (item : value) :
  E.(cwd) = CHAR_FORWARD_SLASH :: joinSlash roots ->
  roots <> [] -> forallb plainSegment roots = true ->
  forallb urlSegment (seg :: segs) = true ->
  fileName name = true -> fileExt ext = true ->
  nullish (optProp item (lit "src")) (VStr [])
  = VStr (lit "/" ++ joinSlash (seg :: segs) ++ lit "/"
          ++ name ++ lit "." ++ ext) ->
  absSrcOf E item
  = E.(cwd) ++ lit "/public/" ++ joinSlash (seg :: segs) ++ lit "/"
    ++ name ++ lit "." ++ ext
  /\ posix.dirname (absThumbOf E item)
     = E.(cwd) ++ lit "/public/gallery/thumbs/" ++ joinSlash (seg :: segs)
  /\ absThumbOf E item
     = posix.dirname (absThumbOf E item) ++ lit "/" ++ name ++ lit ".jpg".
Proof.
  intros Hcwd Hr Hrp Hd Hname Hext Hsrc.
  unfold absSrcOf, absThumbOf, srcOf. rewrite Hsrc.
  assert (Hnorm : normalizeUrlPath
                    (VStr (lit "/" ++ joinSlash (seg :: segs) ++ lit "/"
                           ++ name ++ lit "." ++ ext))
                  = lit "/" ++ joinSlash (seg :: segs) ++ lit "/"
                    ++ name ++ lit "." ++ ext).
  { pose proof Hd as Hd'. unfold urlSegment in Hd'.
    rewrite forallb_and in Hd'. apply andb_true_iff in Hd' as [_ Hnb].
    unfold fileName in Hname. apply andb_true_iff in Hname as [Hname _].
    apply andb_true_iff in Hname as [_ Hn2].
    unfold fileExt in Hext. apply andb_true_iff in Hext as [Hext _].
    apply andb_true_iff in Hext as [_ He2].
    apply normalizeUrlPath_fixed.
    rewrite !noBackslash_app, (noBackslash_joinSlash _ Hnb), Hn2, He2.
    reflexivity. }
  rewrite Hnorm.
  rewrite (toThumbUrl_segments seg segs name ext Hd Hname Hext).
  unfold fileName in Hname. apply andb_true_iff in Hname as [Hname Hn3].
  apply andb_true_iff in Hname as [Hn1 Hn2].
  unfold fileExt in Hext. apply andb_true_iff in Hext as [Hext He3].
  apply andb_true_iff in Hext as [He1 He2].
  assert (Hnne : name <> []) by (intros ->; discriminate).
  assert (Hene : ext <> []) by (intros ->; discriminate).
  assert (Hfile : urlSegment (name ++ CHAR_DOT :: ext) = true).
  { unfold urlSegment. rewrite plainSegment_file by assumption.
    rewrite noBackslash_app, Hn2. exact He2. }
  assert (Hjpg : urlSegment (name ++ lit ".jpg") = true).
  { unfold urlSegment. rewrite plainSegment_jpg by assumption.
    rewrite noBackslash_app, Hn2. reflexivity. }
  assert (Hs1 : lit "/" ++ joinSlash (seg :: segs) ++ lit "/"
                ++ name ++ lit "." ++ ext
                = CHAR_FORWARD_SLASH
                  :: joinSlash ((seg :: segs) ++ [name ++ CHAR_DOT :: ext])).
  { rewrite joinSlash_app by discriminate. reflexivity. }
  assert (Hs2 : lit "/gallery/thumbs/" ++ joinSlash (seg :: segs) ++ lit "/"
                ++ name ++ lit ".jpg"
                = CHAR_FORWARD_SLASH
                  :: joinSlash ([lit "gallery"; lit "thumbs"]
                                ++ (seg :: segs) ++ [name ++ lit ".jpg"])).
  { rewrite joinSlash_app by discriminate.
    rewrite (joinSlash_app (seg :: segs)) by discriminate. reflexivity. }
  assert (F1 : forallb urlSegment ((seg :: segs) ++ [name ++ CHAR_DOT :: ext])
               = true).
  { rewrite forallb_app, Hd. cbn [forallb]. now rewrite Hfile. }
  assert (F2 : forallb urlSegment
                 ([lit "gallery"; lit "thumbs"] ++ (seg :: segs)
                  ++ [name ++ lit ".jpg"]) = true).
  { rewrite !forallb_app, Hd. cbn [forallb]. now rewrite Hjpg. }
  assert (N1 : (seg :: segs) ++ [name ++ CHAR_DOT :: ext] <> [])
    by discriminate.
  assert (N2 : [lit "gallery"; lit "thumbs"] ++ (seg :: segs)
               ++ [name ++ lit ".jpg"] <> []) by discriminate.
  destruct (toFsPath_segments E roots _ Hcwd Hr Hrp N1 F1) as (_ & A1 & _).
  destruct (toFsPath_segments E roots _ Hcwd Hr Hrp N2 F2) as (_ & A2 & _).
  rewrite <- Hs1 in A1. rewrite <- Hs2 in A2. rewrite A1, A2.
  assert (Hthumb : cwd E ++ lit "/public/"
                   ++ joinSlash ([lit "gallery"; lit "thumbs"]
                                 ++ (seg :: segs) ++ [name ++ lit ".jpg"])
                   = CHAR_FORWARD_SLASH
                     :: (joinSlash roots ++ lit "/public/gallery/thumbs/"
                         ++ joinSlash (seg :: segs))
                     ++ CHAR_FORWARD_SLASH :: name ++ lit ".jpg").
  { rewrite Hcwd. rewrite joinSlash_app by discriminate.
    rewrite (joinSlash_app (seg :: segs)) by discriminate.
    cbn [joinSlash app lit list_ascii_of_string List.map].
    rewrite <- !app_assoc. reflexivity. }
  assert (Hdir : posix.dirname
                   (cwd E ++ lit "/public/"
                    ++ joinSlash ([lit "gallery"; lit "thumbs"]
                                  ++ (seg :: segs) ++ [name ++ lit ".jpg"]))
                 = cwd E ++ lit "/public/gallery/thumbs/"
                   ++ joinSlash (seg :: segs)).
  { rewrite Hthumb, dirname_rooted.
    - rewrite Hcwd. reflexivity.
    - pose proof (joinSlash_nonempty roots Hr Hrp).
      destruct (joinSlash roots); [congruence|discriminate].
    - unfold noSlash in *. rewrite forallb_app, Hn1. reflexivity.
    - destruct name; discriminate. }
  split; [rewrite joinSlash_app by discriminate; reflexivity|].
  split; [exact Hdir|].
  rewrite Hdir, Hthumb, Hcwd.
  cbn [joinSlash app lit list_ascii_of_string List.map].
  rewrite <- !app_assoc. reflexivity.
Qed.

Lemma entry_paths_witness :
  posix.dirname (absThumbOf (demo.world []) demo.rome)
  = lit "/srv/site/public/gallery/thumbs/photos".
Proof.
  exact (proj1 (proj2 (entry_paths (demo.world []) [lit "srv"; lit "site"]
                         (lit "photos") [] (lit "Rome-01") (lit "PNG")
                         demo.rome eq_refl ltac:(discriminate) eq_refl
                         eq_refl eq_refl eq_refl eq_refl))).
Defined.

(* ================================================================== *)
(** ** Further properties of the script: the manifest document *)

(** X24. A manifest is written once at most, as the last effect of the
    run, to [MANIFEST_JSON]; it declares the thumbnail policy
    [{ width: 900, quality: 78, format: "jpeg" }] of the type
    [GalleryManifest], its [generatedAt] is the time when all entries had
    been worked on, and no photo in it has a thumbnail wider than the
    width it declares. *)
Theorem manifest_policy (E : Env) (path : jsstring) (m : GalleryManifest) :
  In (WriteFile path m) (snd (main E [])) ->
  path = MANIFEST_JSON E
  /\ m.(thumb) = mkThumb 900 78 (lit "jpeg")
  /\ (exists before,
        snd (main E []) = before ++ [WriteFile path m]
        /\ Forall (fun ev => isWriteFile ev = false) before
        /\ m.(generatedAt) = E.(now) before)
  /\ Forall (fun p => p.(thumbWidth) <= m.(thumb).(tWidth)) m.(photos).
Proof.
  intros Hin.
  assert (Hw : Forall (fun p => p.(thumbWidth) <= 900) m.(photos)).
  { apply Forall_forall. intros photo Hphoto. revert path m photo Hin Hphoto.
    apply manifest_photos. intros idx item h photo h' H.
    destruct (processItem_ok E idx item h h' photo H)
      as (_ & _ & _ & _ & _ & _ & _ & _ & _ & -> & _).
    unfold thumbWidthOf, THUMB_WIDTH. lia. }
  destruct (main E []) as [r h] eqn:Hm. cbn [snd] in *.
  destruct (main_cases E r h Hm)
    as [(_ & _ & ->)|[(v & _ & _ & _ & ->)|(parsed & _ & Hc)]];
    try destruct Hin.
  assert (Hq : forall r0 hp, processAll E 0 parsed []
                 [Mkdir (GENERATED_DIR E); Mkdir (THUMBS_PUBLIC_DIR E)]
                 = (r0, hp) -> Forall (fun ev => isWriteFile ev = false) hp).
  { intros r0 hp Hp.
    destruct (quiet_processAll E _ _ _ _ _ _ Hp) as [(evs & -> & F) _].
    repeat constructor. apply Forall_forall. intros ev Hev.
    rewrite Forall_forall in F. specialize (F ev Hev).
    destruct ev; [reflexivity|reflexivity|destruct F]. }
  destruct Hc as [(_ & _ & ->)|[(_ & _ & ->)|[(e & Hp & _)
                 |(ps & hp & Hp & -> & _)]]].
  - destruct Hin as [Hin|[]]; discriminate.
  - destruct Hin as [Hin|[Hin|[]]]; discriminate.
  - pose proof (Hq _ _ Hp) as F. rewrite Forall_forall in F.
    specialize (F _ Hin). discriminate.
  - pose proof (Hq _ _ Hp) as F.
    apply in_app_or in Hin as [Hin|[Hin|[]]].
    + rewrite Forall_forall in F. specialize (F _ Hin). discriminate.
    + injection Hin as <- <-. cbn [thumb generatedAt photos tWidth] in *.
      split; [reflexivity|]. split; [reflexivity|]. split; [|exact Hw].
      exists hp. now repeat split.
Qed.

Lemma manifest_policy_witness :
  (demo.writtenManifest (demo.world [demo.rome])).(thumb)
  = mkThumb 900 78 (lit "jpeg").
Proof.
  pose (E := demo.world [demo.rome]).
  assert (Hin : In (WriteFile (MANIFEST_JSON E) (demo.writtenManifest E))
                   (snd (main E []))).
  { vm_compute. repeat (try (left; reflexivity); right). }
  exact (proj1 (proj2 (manifest_policy E _ _ Hin))).
Defined.

(* ================================================================== *)
(** ** The decision to regenerate (C1) *)

Module staleness_facts.

(** [fileMtimeMs] answers [-1] for a file that is not there, and that
    counts as stale. *)
Lemma mtimeOf_absent (E : Env) (h : history) (path : jsstring) :
  E.(stat) h path = None -> mtimeOf E h path = (-1)%float.
Proof. unfold mtimeOf. now intros ->. Qed.

Lemma shouldGenerate_or (s t : float) :
  shouldGenerate s t = true <-> ((t <? 0)%float = true \/ (t <? s)%float = true).
Proof. unfold shouldGenerate. apply orb_true_iff. Qed.

(** A history does not end in the write of a thumbnail that it does not
    hold. *)
Lemma not_regenerated (h : history) (x y : event) :
  h <> (h ++ [x]) ++ [y] /\ h ++ [x] <> (h ++ [x]) ++ [y].
Proof.
  split; intros H; apply (f_equal (@List.length event)) in H;
    rewrite !length_app in H; simpl in H; lia.
Qed.

End staleness_facts.

Import staleness_facts.

(** C1 as stated fails on a thumbnail that was last modified before 1970:
    its modification time is negative, so the script takes it for the
    [-1] of a thumbnail that is not there and writes it again, though it
    is there and the source is exactly as old. *)
Lemma old_thumbnail_regenerated :
  stat (demo.dated (-86400000) (demo.world [demo.rome]))
    [Mkdir (lit "/srv/site/public/gallery/thumbs/photos")]
    (lit "/srv/site/public/gallery/thumbs/photos/Rome-01.jpg")
  = Some (mkStats true (-86400000)%float)
  /\ mtimeOf (demo.dated (-86400000) (demo.world [demo.rome]))
       [Mkdir (lit "/srv/site/public/gallery/thumbs/photos")]
       (lit "/srv/site/public/photos/Rome-01.PNG")
     = mtimeOf (demo.dated (-86400000) (demo.world [demo.rome]))
         [Mkdir (lit "/srv/site/public/gallery/thumbs/photos")]
         (lit "/srv/site/public/gallery/thumbs/photos/Rome-01.jpg")
  /\ snd (processItem (demo.dated (-86400000) (demo.world [demo.rome]))
            0 demo.rome [])
     = [Mkdir (lit "/srv/site/public/gallery/thumbs/photos");
        ToFile (lit "/srv/site/public/photos/Rome-01.PNG")
               (lit "/srv/site/public/gallery/thumbs/photos/Rome-01.jpg")
               900 450].
Proof. vm_compute. repeat split. Qed.

(** C1, amended.  Take the work of the loop body on an entry, with [s] and
    [t] what [fileMtimeMs] answers for the source and for the thumbnail
    once the thumbnail directory is made.  The thumbnail is written only
    if the work gets as far as the comparison of line 122 (the entry is
    resolved, or fails in that very write), and then exactly when
    [t < 0] or [s > t].  A thumbnail that is not there has [t = -1] and is
    written.  Where a thumbnail that is there has a modification time
    that is not negative, this is: the thumbnail is written exactly when
    it is absent or [s > t], and it is not written when it is there and
    [s = t]. *)
Theorem staleness_decision (E : Env) (idx : nat) (item : value)
        (h h' : history) (r : result GalleryPhoto) :
  processItem E idx item h = (r, h') ->
  let h1 := h ++ [Mkdir (posix.dirname (absThumbOf E item))] in
  let s := mtimeOf E h1 (absSrcOf E item) in
  let t := mtimeOf E h1 (absThumbOf E item) in
  let absent := E.(stat) h1 (absThumbOf E item) = None in
  let compared := match r with
                  | Ok _ | Err (ThumbnailWriteFailure _) => True
                  | Err _ => False
                  end in
  let regenerated :=
    exists w hh,
      h' = h1 ++ [ToFile (absSrcOf E item) (absThumbOf E item) w hh] in
  (regenerated -> compared)
  /\ (compared ->
      (regenerated <-> ((t <? 0)%float = true \/ (t <? s)%float = true))
      /\ (~ regenerated -> h' = h1))
  /\ (absent -> t = (-1)%float /\ (compared -> regenerated))
  /\ ((forall st, E.(stat) h1 (absThumbOf E item) = Some st ->
                  (0 <=? st.(mtimeMs))%float = true) ->
      (compared -> (regenerated <-> (absent \/ (t <? s)%float = true)))
      /\ (~ absent -> s = t -> ~ regenerated)).
Proof.
  intros H h1 s t absent compared regenerated.
  assert (Hstale : staleAfter E item h = true
                   <-> ((t <? 0)%float = true \/ (t <? s)%float = true))
    by apply shouldGenerate_or.
  assert (Hcases : (regenerated /\ compared /\ staleAfter E item h = true)
                   \/ (~ regenerated /\ ~ compared)
                   \/ (~ regenerated /\ compared /\ h' = h1
                       /\ staleAfter E item h = false)).
  { destruct (processItem_cases E idx item h h' r H)
      as [(-> & Hr)
         |[(-> & [(Hr & _)|(_ & [Hr|[Hr|(Hs & p & Hr)]])])
          |(w & hh & Hh & _ & Hs & _ & _ & _ & Hr)]].
    - right. left. split.
      + intros (w & hh & Hx).
        now destruct (proj1 (not_regenerated h _ _) Hx).
      + subst compared. destruct Hr as [->|[->| ->]]; exact (fun x => x).
    - right. left. split.
      + intros (w & hh & Hx).
        now destruct (proj2 (not_regenerated h _ _) Hx).
      + subst compared. rewrite Hr. exact (fun x => x).
    - right. left. split.
      + intros (w & hh & Hx).
        now destruct (proj2 (not_regenerated h _ _) Hx).
      + subst compared. rewrite Hr. exact (fun x => x).
    - right. left. split.
      + intros (w & hh & Hx).
        now destruct (proj2 (not_regenerated h _ _) Hx).
      + subst compared. rewrite Hr. exact (fun x => x).
    - right. right. split; [|split; [|split]].
      + intros (w & hh & Hx).
        now destruct (proj2 (not_regenerated h _ _) Hx).
      + subst compared. rewrite Hr. exact I.
      + reflexivity.
      + exact Hs.
    - left. split; [now exists w, hh|]. split; [|exact Hs].
      subst compared. destruct Hr as [(-> & _)|(p & -> & _)]; exact I. }
  assert (Habs : absent -> t = (-1)%float /\ staleAfter E item h = true).
  { intros Ha. assert (Ht : t = (-1)%float) by now apply mtimeOf_absent.
    split; [exact Ht|]. apply Hstale. left. now rewrite Ht. }
  assert (Hreal : (forall st, E.(stat) h1 (absThumbOf E item) = Some st ->
                              (0 <=? st.(mtimeMs))%float = true) ->
                  staleAfter E item h = true
                  <-> (absent \/ (t <? s)%float = true)).
  { intros Hnn. split.
    - intros Hs. apply Hstale in Hs as [Hs|Hs]; [|now right].
      left. subst absent t. unfold mtimeOf in Hs.
      destruct (stat E h1 (absThumbOf E item)) as [st|] eqn:Hst;
        [|reflexivity].
      rewrite (nonneg_not_below_zero _ (Hnn st eq_refl)) in Hs. discriminate.
    - intros [Ha|Hs]; [now apply Habs|]. apply Hstale. now right. }
  split; [|split; [|split]].
  - intros Hreg. destruct Hcases as [(_ & Hc & _)|[(Hn & _)|(Hn & _)]];
      [exact Hc|now destruct Hn|now destruct Hn].
  - intros Hc.
    destruct Hcases as [(Hreg & _ & Hs)|[(_ & Hn)|(Hn & _ & Hh & Hs)]].
    + split; [|intros Hx; now destruct Hx].
      split; [intros _; now apply Hstale|intros _; exact Hreg].
    + now destruct Hn.
    + split; [|intros _; exact Hh].
      split; [intros Hx; now destruct Hn|].
      intros Hx. apply Hstale in Hx. congruence.
  - intros Ha. destruct (Habs Ha) as [Ht Hs]. split; [exact Ht|].
    intros Hc.
    destruct Hcases as [(Hreg & _)|[(_ & Hn)|(_ & _ & _ & Hs')]];
      [exact Hreg|now destruct Hn|congruence].
  - intros Hnn. specialize (Hreal Hnn). split.
    + intros Hc.
      destruct Hcases as [(Hreg & _ & Hs)|[(_ & Hn)|(Hn & _ & _ & Hs)]].
      * split; [intros _; now apply Hreal|intros _; exact Hreg].
      * now destruct Hn.
      * split; [intros Hx; now destruct Hn|].
        intros Hx. apply Hreal in Hx. congruence.
    + intros Hna Heq Hreg.
      destruct Hcases as [(_ & _ & Hs)|[(Hn & _)|(Hn & _)]];
        [|now destruct Hn|now destruct Hn].
      apply Hreal in Hs as [Ha|Hs]; [now destruct Hna|].
      rewrite Heq, ltb_irrefl in Hs. discriminate.
Qed.

Lemma staleness_decision_witness :
  snd (processItem (demo.world [demo.rome]) 0 demo.rome [])
  = [Mkdir (lit "/srv/site/public/gallery/thumbs/photos");
     ToFile (lit "/srv/site/public/photos/Rome-01.PNG")
            (lit "/srv/site/public/gallery/thumbs/photos/Rome-01.jpg")
            900 450]
  /\ snd (processItem (demo.dated 1700000000000 (demo.world [demo.rome]))
            0 demo.rome [])
     = [Mkdir (lit "/srv/site/public/gallery/thumbs/photos")].
Proof.
  pose (E1 := demo.world [demo.rome]).
  pose (E2 := demo.dated 1700000000000 (demo.world [demo.rome])).
  pose (r1 := processItem E1 0 demo.rome []).
  pose (r2 := processItem E2 0 demo.rome []).
  assert (H1 : processItem E1 0 demo.rome [] = (fst r1, snd r1))
    by (vm_compute; reflexivity).
  assert (H2 : processItem E2 0 demo.rome [] = (fst r2, snd r2))
    by (vm_compute; reflexivity).
  split.
  - destruct (staleness_decision E1 0 demo.rome [] _ _ H1)
      as (_ & _ & Habs & _).
    destruct (Habs eq_refl) as [_ Hreg].
    assert (Hc : match fst r1 with
                 | Ok _ | Err (ThumbnailWriteFailure _) => True
                 | Err _ => False
                 end) by (vm_compute; exact I).
    destruct (Hreg Hc) as (w & hh & Hh).
    change (snd r1 = [Mkdir (lit "/srv/site/public/gallery/thumbs/photos");
                      ToFile (lit "/srv/site/public/photos/Rome-01.PNG")
                        (lit "/srv/site/public/gallery/thumbs/photos/Rome-01.jpg")
                        900 450]).
    rewrite Hh.
    assert (Hbox : snd r1 = snd r1) by reflexivity.
    rewrite Hh in Hbox at 1. vm_compute in Hbox. injection Hbox as -> ->.
    vm_compute. reflexivity.
  - destruct (staleness_decision E2 0 demo.rome [] _ _ H2)
      as (_ & Hcmp & _ & Hreal).
    assert (Hc : match fst r2 with
                 | Ok _ | Err (ThumbnailWriteFailure _) => True
                 | Err _ => False
                 end) by (vm_compute; exact I).
    assert (Hnn : forall st,
               stat E2 ([] ++ [Mkdir (posix.dirname (absThumbOf E2 demo.rome))])
                 (absThumbOf E2 demo.rome) = Some st ->
               (0 <=? mtimeMs st)%float = true).
    { intros st Hst. injection Hst as <-. reflexivity. }
    destruct (Hreal Hnn) as [_ Hsame].
    assert (Hno : ~ (exists w hh,
                       snd r2
                       = ([] ++ [Mkdir (posix.dirname (absThumbOf E2 demo.rome))])
                         ++ [ToFile (absSrcOf E2 demo.rome)
                               (absThumbOf E2 demo.rome) w hh])).
    { apply Hsame; [discriminate|reflexivity]. }
    change (snd r2 = [Mkdir (lit "/srv/site/public/gallery/thumbs/photos")]).
    rewrite (proj2 (Hcmp Hc) Hno). vm_compute. reflexivity.
Defined.
